(** * Cache simulation: a set-associative cache with rank-based LRU

    A shallow embedding of the classes [Cache] and [Block] of [code.py],
    followed by the properties of the engine: hit/miss classification,
    the rank invariant of the replacement policy, the counters, the frame
    of one access and the behaviour of construction.

    Python values are modelled as follows.
    - [int] is [Z]; [//] is [Z.div] (both round towards minus infinity).
    - [str] is [list ascii]; slices follow Python's clamping rules.
    - A raised exception is the [Raise] branch of [result].
    - A [Block] object mutated in place inside [self.cache] is a
      functional update of its set at the same position: the constructor
      builds one fresh [Block] per slot, so no two slots alias. *)

From Stdlib Require Import ZArith Ascii Lia Bool.
From stdpp Require Import base list list_numbers strings.

Local Open Scope Z_scope.

(** ** Exceptions and results *)

Inductive exn := ValueError | IndexError | ZeroDivisionError | TypeError.

Inductive result (A : Type) :=
| Ok (a : A)
| Raise (e : exn).
Arguments Ok {A} a.
Arguments Raise {A} e.

#[global] Instance exn_eq_dec : EqDecision exn.
Proof. solve_decision. Defined.
#[global] Instance result_eq_dec {A} `{EqDecision A} : EqDecision (result A).
Proof. solve_decision. Defined.

(** Sequencing: the first exception raised is the outcome. *)
#[global] Instance result_ret : MRet result := λ A a, Ok a.
#[global] Instance result_bind : MBind result := λ A B k r,
  match r with
  | Ok a => k a
  | Raise e => Raise e
  end.

(** ** Python primitives used by the engine *)

Definition str := list ascii.

(** [c * n] for a one-character string: empty when [n] is not positive. *)
Definition str_mul (c : ascii) (n : Z) : str := replicate (Z.to_nat n) c.

Definition str_eqb (s t : str) : bool := bool_decide (s = t).

(** A slice bound [i] against a sequence of length [len]: a negative bound
    counts from the end, and every bound is clamped into [0, len]. *)
Definition py_clamp (len i : Z) : Z :=
  if i <? 0 then Z.max (len + i) 0 else Z.min i len.

(** [s[lo:hi]]; [None] is an omitted bound. *)
Definition py_slice (s : str) (lo hi : option Z) : str :=
  let len := Z.of_nat (length s) in
  let a := match lo with Some i => py_clamp len i | None => 0 end in
  let b := match hi with Some i => py_clamp len i | None => len end in
  take (Z.to_nat (b - a)) (drop (Z.to_nat a) s).

(** The value of a string of binary digits read most significant first;
    [None] at the first character that is not ['0'] or ['1']. *)
Fixpoint bin_value (acc : Z) (s : str) : option Z :=
  match s with
  | [] => Some acc
  | c :: r =>
      if Ascii.eqb c "0" then bin_value (2 * acc) r
      else if Ascii.eqb c "1" then bin_value (2 * acc + 1) r
      else None
  end.

(** [int(s, 2)] on the strings the engine meets: slices of an address made
    of the digits 0 and 1. The empty string raises [ValueError], as in
    Python. Signs, blanks, underscores and the [0b] prefix, which Python
    also accepts, are outside this model, so a value returned here is the
    value Python returns, and the statements below that need a value take
    a string of binary digits. *)
Definition int_base2 (s : str) : result Z :=
  match s with
  | [] => Raise ValueError
  | _ => match bin_value 0 s with
         | Some v => Ok v
         | None => Raise ValueError
         end
  end.

(** [int(log2(n))]: [math.log2] raises [ValueError] on an argument that is
    not positive. On a positive integer below 2^47, and on every power of
    two, the integer part of the double that [math.log2] returns is the
    floor of the binary logarithm, [Z.log2 n]. From 2^47 on the double can
    round up to the next integer (2^49 - 1 gives 49), so there [Z.log2 n]
    is the integer the code computes or one less; a statement that gives
    the widths of a cache as logarithms carries the bound 2^47. *)
Definition int_log2 (n : Z) : result Z :=
  if n <=? 0 then Raise ValueError else Ok (Z.log2 n).

(** [a // b] *)
Definition floordiv (a b : Z) : result Z :=
  if b =? 0 then Raise ZeroDivisionError else Ok (a / b).

(** The position denoted by index [i] in a list of length [len]; a negative
    index counts from the end, anything out of range is an [IndexError]. *)
Definition py_index (len : nat) (i : Z) : result nat :=
  if (0 <=? i) && (i <? Z.of_nat len) then Ok (Z.to_nat i)
  else if (- Z.of_nat len <=? i) && (i <? 0) then Ok (Z.to_nat (Z.of_nat len + i))
  else Raise IndexError.

Definition getitem {A} (l : list A) (i : Z) : result A :=
  n ← py_index (length l) i;
  match l !! n with
  | Some x => Ok x
  | None => Raise IndexError
  end.

(** ** Block *)

Record Block := mkBlock {
  tag : str;
  valid : bool;
  data : str;
  lru_counter : Z
}.

(** [Block(tag, valid)], with the default [lru_counter = -1]. *)
Definition Block_init (tag : str) (valid : bool) : Block :=
  {| tag := tag; valid := valid; data := str_mul "0" 32; lru_counter := -1 |}.

Definition set_lru (b : Block) (n : Z) : Block :=
  {| tag := tag b; valid := valid b; data := data b; lru_counter := n |}.

(** ** Cache *)

Record Cache := mkCache {
  cache_size : Z;
  block_size : Z;
  associativity : Z;
  sets : Z;
  no_of_ind_bits : Z;
  no_of_offset_bits : Z;
  no_of_tag_bits : Z;
  hit_count : Z;
  miss_count : Z;
  cache : list (list Block)
}.

Definition with_cache (self : Cache) (c : list (list Block)) : Cache :=
  {| cache_size := cache_size self; block_size := block_size self;
     associativity := associativity self; sets := sets self;
     no_of_ind_bits := no_of_ind_bits self;
     no_of_offset_bits := no_of_offset_bits self;
     no_of_tag_bits := no_of_tag_bits self;
     hit_count := hit_count self; miss_count := miss_count self;
     cache := c |}.

Definition with_hit_count (self : Cache) (n : Z) : Cache :=
  {| cache_size := cache_size self; block_size := block_size self;
     associativity := associativity self; sets := sets self;
     no_of_ind_bits := no_of_ind_bits self;
     no_of_offset_bits := no_of_offset_bits self;
     no_of_tag_bits := no_of_tag_bits self;
     hit_count := n; miss_count := miss_count self;
     cache := cache self |}.

Definition with_miss_count (self : Cache) (n : Z) : Cache :=
  {| cache_size := cache_size self; block_size := block_size self;
     associativity := associativity self; sets := sets self;
     no_of_ind_bits := no_of_ind_bits self;
     no_of_offset_bits := no_of_offset_bits self;
     no_of_tag_bits := no_of_tag_bits self;
     hit_count := hit_count self; miss_count := n;
     cache := cache self |}.

(** [Cache.__init__] *)
Definition Cache_init (cache_size block_size associativity : Z) : result Cache :=
  sets ← floordiv cache_size (block_size * associativity);
  no_of_ind_bits ← int_log2 sets;
  no_of_offset_bits ← int_log2 block_size;
  let no_of_tag_bits := 32 - no_of_ind_bits - no_of_offset_bits in
  Ok {| cache_size := cache_size; block_size := block_size;
        associativity := associativity; sets := sets;
        no_of_ind_bits := no_of_ind_bits;
        no_of_offset_bits := no_of_offset_bits;
        no_of_tag_bits := no_of_tag_bits;
        hit_count := 0; miss_count := 0;
        cache := replicate (Z.to_nat sets)
                   (replicate (Z.to_nat associativity)
                      (Block_init (str_mul "0" no_of_tag_bits) false)) |}.

(** [Cache.extract_index] *)
Definition extract_index (self : Cache) (address : str) : result Z :=
  let index_bits :=
    py_slice address (Some (no_of_tag_bits self))
      (Some (no_of_tag_bits self + no_of_ind_bits self)) in
  int_base2 index_bits.

(** [Cache.extract_tag] *)
Definition extract_tag (self : Cache) (address : str) : str :=
  py_slice address None (Some (no_of_tag_bits self)).

(** [Cache.extract_offset] *)
Definition extract_offset (self : Cache) (address : str) : result Z :=
  let offset_bits := py_slice address (Some (- no_of_offset_bits self)) None in
  int_base2 offset_bits.

(** The body of the hit loop of [lru_handling], for one block. *)
Definition promote (assoc cur : Z) (block : Block) : Block :=
  if lru_counter block >? cur then set_lru block (lru_counter block - 1)
  else if lru_counter block =? cur then set_lru block (assoc - 1)
  else block.

(** The body of the miss loop of [lru_handling], for one block. *)
Definition age (block : Block) : Block :=
  set_lru block (lru_counter block - 1).

(** [Cache.lru_handling]. With [hit] set and [cur] left at its default
    [None], the first comparison [block.lru_counter > None] is a
    [TypeError]; [check] never calls it that way. *)
Definition lru_handling (self : Cache) (set_index : Z) (hit : bool)
    (cur : option Z) : result Cache :=
  n ← py_index (length (cache self)) set_index;
  blocks ← getitem (cache self) set_index;
  if hit then
    match cur, blocks with
    | Some cur, _ =>
        Ok (with_cache self
              (<[n := promote (associativity self) cur <$> blocks]> (cache self)))
    | None, [] => Ok self
    | None, _ :: _ => Raise TypeError
    end
  else
    Ok (with_cache self (<[n := age <$> blocks]> (cache self))).

(** What both loops of [evictor] do to the block they pick. *)
Definition place (assoc : Z) (new_tag : str) (block : Block) : Block :=
  {| tag := new_tag; valid := true; data := data block; lru_counter := assoc |}.

(** First loop of [evictor]: the first block that is not valid receives
    the tag and the loop returns; [None] when the loop runs to its end. *)
Fixpoint fill_invalid (assoc : Z) (new_tag : str) (blocks : list Block)
    : option (list Block) :=
  match blocks with
  | [] => None
  | block :: rest =>
      if negb (valid block) then Some (place assoc new_tag block :: rest)
      else cons block <$> fill_invalid assoc new_tag rest
  end.

(** Second loop of [evictor]: the first block whose counter is 0. *)
Fixpoint evict_zero (assoc : Z) (new_tag : str) (blocks : list Block)
    : option (list Block) :=
  match blocks with
  | [] => None
  | block :: rest =>
      if lru_counter block =? 0 then Some (place assoc new_tag block :: rest)
      else cons block <$> evict_zero assoc new_tag rest
  end.

(** The two loops in sequence; when neither finds a block the set is left
    as it was. *)
Definition evictor_set (assoc : Z) (new_tag : str) (blocks : list Block)
    : list Block :=
  match fill_invalid assoc new_tag blocks with
  | Some blocks' => blocks'
  | None =>
      match evict_zero assoc new_tag blocks with
      | Some blocks' => blocks'
      | None => blocks
      end
  end.

(** [Cache.evictor] *)
Definition evictor (self : Cache) (set_index : Z) (new_tag : str) (offset : Z)
    : result Cache :=
  n ← py_index (length (cache self)) set_index;
  blocks ← getitem (cache self) set_index;
  Ok (with_cache self
        (<[n := evictor_set (associativity self) new_tag blocks]> (cache self))).

(** The test of the lookup loop of [check]. *)
Definition matches (t : str) (block : Block) : bool :=
  str_eqb (tag block) t && valid block.

(** [Cache.check] *)
Definition check (self : Cache) (address : str) : result (bool * Cache) :=
  index ← extract_index self address;
  let t := extract_tag self address in
  offset ← extract_offset self address;
  blocks ← getitem (cache self) index;
  match List.find (matches t) blocks with
  | Some block =>
      let self := with_hit_count self (hit_count self + 1) in
      self ← lru_handling self index true (Some (lru_counter block));
      Ok (true, self)
  | None =>
      let self := with_miss_count self (miss_count self + 1) in
      self ← evictor self index t offset;
      self ← lru_handling self index false None;
      Ok (false, self)
  end.

(** Feeding a trace, as the driving loops do: the first exception stops
    the run. The outcomes of the accesses are returned in order. *)
Fixpoint run (self : Cache) (trace : list str) : result (list bool * Cache) :=
  match trace with
  | [] => Ok ([], self)
  | address :: rest =>
      r ← check self address;
      rs ← run r.2 rest;
      Ok (r.1 :: rs.1, rs.2)
  end.

(** A 32-bit address as [hextobin] produces it. *)
Definition is_bit (c : ascii) : bool := Ascii.eqb c "0" || Ascii.eqb c "1".
Definition bin32 (address : str) : bool :=
  (length address =? 32)%nat && forallb is_bit address.

Definition zeros32 : str := str_mul "0" 32.

(** ** One access, seen from the set it lands in *)

(** The valid blocks of a set, their tags and their ranks, in slot order. *)
Definition valid_blocks (blocks : list Block) : list Block :=
  List.filter valid blocks.
Definition valid_tags (blocks : list Block) : list str :=
  tag <$> valid_blocks blocks.
Definition valid_ranks (blocks : list Block) : list Z :=
  lru_counter <$> valid_blocks blocks.

(** What [check] does to the blocks of the selected set: the lookup loop,
    then either the hit loop of [lru_handling], or [evictor] followed by
    the miss loop. *)
Definition access_set (assoc : Z) (t : str) (blocks : list Block)
    : bool * list Block :=
  match List.find (matches t) blocks with
  | Some block => (true, promote assoc (lru_counter block) <$> blocks)
  | None => (false, age <$> evictor_set assoc t blocks)
  end.

(** The cache after an access that landed in slot [n] of [self.cache]. *)
Definition after_access (self : Cache) (n : nat) (r : bool * list Block)
    : bool * Cache :=
  (r.1,
   with_cache
     (if r.1 then with_hit_count self (hit_count self + 1)
      else with_miss_count self (miss_count self + 1))
     (<[n := r.2]> (cache self))).

(** The hit loop of [lru_handling] on a rank. *)
Definition rank_promote (assoc cur x : Z) : Z :=
  if x >? cur then x - 1 else if x =? cur then assoc - 1 else x.

(** ** The rank invariant of a set

    Every set keeps [associativity] slots; the ranks of its valid blocks
    are pairwise distinct and fill the top of the range below
    [associativity]; a block that is not valid carries a negative rank. *)
Definition set_inv (assoc : Z) (blocks : list Block) : Prop :=
  length blocks = Z.to_nat assoc ∧
  NoDup (valid_ranks blocks) ∧
  ∀ block, block ∈ blocks →
    if valid block
    then assoc - Z.of_nat (length (valid_blocks blocks)) ≤ lru_counter block < assoc
    else lru_counter block < 0.

(** ** Caches that occur

    What construction establishes and every access keeps: positive
    associativity, bit widths that are not negative, at least
    [2 ^ no_of_ind_bits] sets, and the rank invariant in every set. *)
Definition wf (self : Cache) : Prop :=
  0 < associativity self ∧
  0 ≤ no_of_ind_bits self ∧
  0 ≤ no_of_offset_bits self ∧
  2 ^ no_of_ind_bits self ≤ Z.of_nat (length (cache self)) ∧
  ∀ blocks, blocks ∈ cache self → set_inv (associativity self) blocks.

(** The states a driver can observe: a cache built with a positive
    associativity, then any number of accesses with 32-bit addresses that
    returned. An access that raises leaves the cache as it was, since both
    [extract_index] and the indexing of [self.cache] come before the first
    assignment. *)
Inductive reachable : Cache → Prop :=
| reachable_init cs bs a self :
    0 < a → Cache_init cs bs a = Ok self → reachable self
| reachable_check self address hit self' :
    reachable self → bin32 address = true →
    check self address = Ok (hit, self') → reachable self'.

(** Two caches with the same configuration fields. *)
Definition same_config (c c' : Cache) : Prop :=
  cache_size c' = cache_size c ∧ block_size c' = block_size c ∧
  associativity c' = associativity c ∧ sets c' = sets c ∧
  no_of_ind_bits c' = no_of_ind_bits c ∧
  no_of_offset_bits c' = no_of_offset_bits c ∧
  no_of_tag_bits c' = no_of_tag_bits c.

(** Whether the cache reads an index out of a 32-bit address at all; by
    [extract_index_uniform] below, the answer is the same for every 32-bit
    address. *)
Definition decodes (self : Cache) : bool :=
  match extract_index self zeros32 with
  | Ok _ => true
  | Raise _ => false
  end.

(** An exact power of two. *)
Definition is_pow2 (n : Z) : bool := (0 <? n) && (n =? 2 ^ Z.log2 n).

(** The number of blocks of a set whose rank is 0, the ones the second
    loop of [evictor] looks for. *)
Definition count_rank0 (blocks : list Block) : nat :=
  length (List.filter (λ block, lru_counter block =? 0) blocks).

(** Whether an address is mapped to set [index]. *)
Definition targets (self : Cache) (index : Z) (address : str) : bool :=
  match extract_index self address with
  | Ok i => i =? index
  | Raise _ => false
  end.

(** The tags of the addresses of a trace mapped to [index], in order, and
    the distinct tags among them. *)
Definition tags_of (self : Cache) (index : Z) (trace : list str) : list str :=
  extract_tag self <$> List.filter (targets self index) trace.
Definition tags_received (self : Cache) (index : Z) (trace : list str)
    : list str :=
  remove_dups (tags_of self index trace).

(** A sequence of accesses that all land in one set, given by their tags. *)
Fixpoint run_set (assoc : Z) (tags : list str) (blocks : list Block)
    : list bool * list Block :=
  match tags with
  | [] => ([], blocks)
  | t :: rest =>
      let r := access_set assoc t blocks in
      let rs := run_set assoc rest r.2 in
      (r.1 :: rs.1, rs.2)
  end.

(** Tag [t] is held by a valid block of set [n] of [c], a cache with the
    configuration of [self0]. *)
Definition holds_tag (self0 : Cache) (n : nat) (t : str) (c : Cache) : Prop :=
  wf c ∧ same_config self0 c ∧
  ∃ blocks, cache c !! n = Some blocks ∧ t ∈ valid_tags blocks.

(** A 32-bit address whose bit 2 is set: with 2 offset bits and 1 index
    bit it is mapped to set 1. *)
Definition other_set32 : str := str_mul "0" 29 ++ ["1"; "0"; "0"]%char.

(** The cache [Cache(16, 4, 2)]: two sets of two blocks, 29 tag bits, and
    its state after a first access of address 0. *)
Definition demo : Cache :=
  mkCache 16 4 2 2 1 2 29 0 0
    (replicate 2 (replicate 2 (Block_init (str_mul "0" 29) false))).
Definition demo1 : Cache :=
  with_cache (with_miss_count demo 1)
    [[mkBlock (str_mul "0" 29) true (str_mul "0" 32) 1;
      mkBlock (str_mul "0" 29) false (str_mul "0" 32) (-2)];
     replicate 2 (Block_init (str_mul "0" 29) false)].

(** Two more 32-bit addresses mapped to set 0 of [demo], with tags that
    differ from the tag of address 0 and from each other. *)
Definition tagY32 : str := str_mul "0" 28 ++ ["1"; "0"; "0"; "0"]%char.
Definition tagZ32 : str := str_mul "0" 27 ++ ["1"; "0"; "0"; "0"; "0"]%char.

(** [demo] after the accesses of address 0 and of [tagY32]: set 0 is
    full. *)
Definition demo2 : Cache :=
  with_cache (with_miss_count demo 2)
    [[mkBlock (str_mul "0" 29) true (str_mul "0" 32) 0;
      mkBlock (str_mul "0" 28 ++ ["1"]%char) true (str_mul "0" 32) 1];
     replicate 2 (Block_init (str_mul "0" 29) false)].

(** While set [index] has received no more distinct tags than it has
    blocks, its valid tags are the tags received, each held once. *)
Definition received_inv (self0 : Cache) (index : Z) (history : list str)
    (c : Cache) : Prop :=
  wf c ∧ same_config self0 c ∧
  ∀ blocks, cache c !! Z.to_nat index = Some blocks →
    Z.of_nat (length (tags_received self0 index history)) ≤ associativity self0 →
    valid_tags blocks ≡ₚ tags_received self0 index history.

(** ** An ideal LRU stack

    The replacement policy the docstrings of [Cache] and [evictor] name: a
    stack of at most [cap] distinct tags, most recently used first. An
    access to a tag of the stack moves it to the front; any other tag is
    pushed on the front and, when the stack is full, the last tag drops
    out. *)
Definition remove_tag (t : str) (stack : list str) : list str :=
  List.filter (λ x, negb (str_eqb x t)) stack.

Definition lru_step (cap : Z) (t : str) (stack : list str)
    : bool * list str :=
  if bool_decide (t ∈ stack) then (true, t :: remove_tag t stack)
  else (false, t :: take (Z.to_nat (cap - 1)) stack).

(** One ideal stack per set, fed with the index and tag [self] reads from
    each address. *)
Fixpoint ideal_run (self : Cache) (trace : list str) (stacks : Z → list str)
    : result (list bool * (Z → list str)) :=
  match trace with
  | [] => Ok ([], stacks)
  | address :: rest =>
      index ← extract_index self address;
      let r := lru_step (associativity self) (extract_tag self address)
                 (stacks index) in
      rs ← ideal_run self rest
             (λ j, if decide (j = index) then r.2 else stacks j);
      Ok (r.1 :: rs.1, rs.2)
  end.

(** The tag of the valid block of rank [r], and the valid tags of a set
    from the highest rank down. *)
Definition tag_of_rank (blocks : list Block) (r : Z) : str :=
  match List.find (λ b, valid b && (lru_counter b =? r)) blocks with
  | Some b => tag b
  | None => []
  end.
Definition stack_of (assoc : Z) (blocks : list Block) : list str :=
  (λ k, tag_of_rank blocks (assoc - 1 - Z.of_nat k))
    <$> seq 0 (length (valid_blocks blocks)).

(** [stack] lists the tags of the valid blocks of a set by decreasing
    rank, each once. *)
Definition ranked (assoc : Z) (blocks : list Block) (stack : list str) : Prop :=
  NoDup stack ∧ length stack = length (valid_blocks blocks) ∧
  ∀ k t, stack !! k = Some t →
    ∃ b, b ∈ blocks ∧ valid b = true ∧ tag b = t ∧
         lru_counter b = assoc - 1 - Z.of_nat k.

(** Every set of [c] is listed, by decreasing rank, by its ideal stack. *)
Definition tracks (c : Cache) (stacks : Z → list str) : Prop :=
  ∀ index blocks, 0 ≤ index →
    cache c !! Z.to_nat index = Some blocks →
    ranked (associativity c) blocks (stacks index).

(** The slices that [extract_index] and [extract_offset] convert. *)
Definition index_bits (self : Cache) (address : str) : str :=
  py_slice address (Some (no_of_tag_bits self))
    (Some (no_of_tag_bits self + no_of_ind_bits self)).
Definition offset_bits (self : Cache) (address : str) : str :=
  py_slice address (Some (- no_of_offset_bits self)) None.

(** ** [hextobin] *)

(** The value of a hexadecimal digit, in either case. *)
Definition hex_digit (c : ascii) : option Z :=
  let n := Z.of_nat (nat_of_ascii c) in
  if (48 <=? n) && (n <=? 57) then Some (n - 48)
  else if (97 <=? n) && (n <=? 102) then Some (n - 87)
  else if (65 <=? n) && (n <=? 70) then Some (n - 55)
  else None.

Fixpoint hex_value (acc : Z) (s : str) : option Z :=
  match s with
  | [] => Some acc
  | c :: r =>
      match hex_digit c with
      | Some d => hex_value (16 * acc + d) r
      | None => None
      end
  end.

(** [int(s, base=16)] on strings of hexadecimal digits; the empty string
    raises [ValueError]. As for [int_base2], the prefix, signs, blanks and
    underscores Python also accepts are outside the model. *)
Definition int_base16 (s : str) : result Z :=
  match s with
  | [] => Raise ValueError
  | _ => match hex_value 0 s with
         | Some v => Ok v
         | None => Raise ValueError
         end
  end.

(** The binary digits of a positive number, most significant first. *)
Fixpoint pos_bits (p : positive) : str :=
  match p with
  | xH => ["1"%char]
  | xO q => pos_bits q ++ ["0"%char]
  | xI q => pos_bits q ++ ["1"%char]
  end.

(** [bin(n)] *)
Definition py_bin (n : Z) : str :=
  match n with
  | Z0 => ["0"; "b"; "0"]%char
  | Zpos p => ["0"; "b"]%char ++ pos_bits p
  | Zneg p => ["-"; "0"; "b"]%char ++ pos_bits p
  end.

(** [s.zfill(width)]: zeros on the left up to [width], after the sign when
    [s] starts with one. *)
Definition zfill (width : Z) (s : str) : str :=
  let fill := width - Z.of_nat (length s) in
  if fill <=? 0 then s
  else match s with
       | c :: rest =>
           if Ascii.eqb c "+" || Ascii.eqb c "-"
           then c :: str_mul "0" fill ++ rest
           else str_mul "0" fill ++ s
       | [] => str_mul "0" fill
       end.

(** [hextobin] *)
Definition hextobin (address : str) : result str :=
  n ← int_base16 address;
  let num := py_bin n in
  let num := py_slice num (Some 2) None in
  Ok (zfill 32 num).

Definition is_hex (c : ascii) : bool :=
  match hex_digit c with Some _ => true | None => false end.

(** The digits of a number that is not negative: [bin(n)] without its
    prefix. *)
Definition bin_digits (n : Z) : str :=
  match n with
  | Zpos p => pos_bits p
  | _ => ["0"%char]
  end.

(** Every valid tag of every set of [c] is the tag of an address of
    [history] that was mapped to that set. *)
Definition only_received (self0 : Cache) (history : list str) (c : Cache)
    : Prop :=
  ∀ index blocks t, 0 ≤ index →
    cache c !! Z.to_nat index = Some blocks →
    t ∈ valid_tags blocks → t ∈ tags_of self0 index history.

(** The memory block an address belongs to, as the cache sees it: its
    index and its tag. The distinct blocks of a trace are the blocks a
    cache of any size has to load at least once. *)
Definition line_of (self : Cache) (address : str) : result Z * str :=
  (extract_index self address, extract_tag self address).
Definition lines_touched (self : Cache) (trace : list str)
    : list (result Z * str) :=
  remove_dups (line_of self <$> trace).

(** ** The replay loop of [parta], [partb], [partc] and [partd] *)

(** The characters [str.split()] separates on, among the code points
    below 256: tab to carriage return, the four separators 28 to 31,
    space, next line and no-break space. *)
Definition is_space (c : ascii) : bool :=
  let n := nat_of_ascii c in
  ((9 <=? n) && (n <=? 13) || (28 <=? n) && (n <=? 32)
   || (n =? 133) || (n =? 160))%nat.

(** [line.split()]: the maximal runs of characters that are not blank;
    [cur] is the run being read. *)
Fixpoint split_ws (s : str) (cur : str) : list str :=
  match s with
  | [] => match cur with [] => [] | _ => [cur] end
  | c :: r =>
      if is_space c
      then match cur with
           | [] => split_ws r []
           | _ => cur :: split_ws r []
           end
      else split_ws r (cur ++ [c])
  end.
Definition py_split (s : str) : list str := split_ws s [].

(** [hextobin(line.split()[1][2:])] *)
Definition line_address (line : str) : result str :=
  token ← getitem (py_split line) 1;
  hextobin (py_slice token (Some 2) None).

(** [for line in file: ... cache1.check(address_bin)] *)
Fixpoint replay (cache1 : Cache) (lines : list str) : result Cache :=
  match lines with
  | [] => Ok cache1
  | line :: rest =>
      address_bin ← line_address line;
      r ← check cache1 address_bin;
      replay r.2 rest
  end.

(** One trace file under one configuration, as the four parts do it:
    build the cache, replay the file, then divide each counter by the sum
    of the two. The divisions raise [ZeroDivisionError] when the sum is 0;
    the two counters stand here for the floating-point rates computed
    from them. *)
Definition measure (cache_size block_size associativity : Z)
    (lines : list str) : result (Z * Z) :=
  cache1 ← Cache_init cache_size block_size associativity;
  c ← replay cache1 lines;
  if hit_count c + miss_count c =? 0 then Raise ZeroDivisionError
  else Ok (hit_count c, miss_count c).

(** The configurations of the four parts. *)
Definition parta_config : Z * Z * Z := (1024 * 1024, 4, 4).
Definition partb_configs : list (Z * Z * Z) :=
  (λ i, (1024 * 2 ^ i, 4, 4)) <$> seqZ 7 6.
Definition partc_configs : list (Z * Z * Z) :=
  (λ i, (1024 * 1024, 2 ^ i, 4)) <$> seqZ 0 8.
Definition partd_configs : list (Z * Z * Z) :=
  (λ i, (1024 * 1024, 4, 2 ^ i)) <$> seqZ 0 7.
Definition driver_configs : list (Z * Z * Z) :=
  parta_config :: partb_configs ++ partc_configs ++ partd_configs.

(** A line whose second field is two characters, the [0x] of the trace
    files, followed by one to eight hexadecimal digits. *)
Definition well_formed_line (line : str) : bool :=
  match py_split line with
  | _ :: token :: _ =>
      let h := drop 2 token in
      (1 <=? length h)%nat && (length h <=? 8)%nat && forallb is_hex h
  | _ => false
  end.

(** The line [l 0x1fffff50 1] of a trace file, with its newline. *)
Definition demo_line : str :=
  ["l"; " "; "0"; "x"; "1"; "f"; "f"; "f"; "f"; "f"; "5"; "0"; " "; "1";
   "010"]%char.

(** The distinct tags of a sequence, most recently used first, and the
    [associativity] most recent ones among the tags that the addresses of
    [history] bring to set [index]. *)
Definition mru_order (tags : list str) : list str :=
  foldl (λ stack t, t :: remove_tag t stack) [] tags.
Definition recent_stacks (self0 : Cache) (history : list str) (index : Z)
    : list str :=
  take (Z.to_nat (associativity self0))
    (mru_order (tags_of self0 index history)).

(** ** The instance after a call of [check]

    Every exception of [check] comes from [extract_index],
    [extract_offset] or the indexing of [self.cache], the three statements
    before the first assignment, so a call that raises leaves the instance
    as it was. *)
Definition after_call (self : Cache) (address : str) : Cache :=
  match check self address with
  | Ok r => r.2
  | Raise _ => self
  end.

(** ** The points of an access

    The states the selected set goes through during one call of [check],
    one after each assignment to a block: the three assignments of
    [evictor] to the block it picks, and each iteration of the loops of
    [lru_handling]. *)
Inductive point : Type :=
| Entry
| TagAssigned
| ValidAssigned
| RankAssigned
| HitLoop (k : nat)
| MissLoop (k : nat).

(** [block.tag = tag], [block.valid = True],
    [block.lru_counter = self.associativity], in this order. *)
Definition place_points (assoc : Z) (new_tag : str) (block : Block)
    : list (point * Block) :=
  [(TagAssigned,
    {| tag := new_tag; valid := valid block; data := data block;
       lru_counter := lru_counter block |});
   (ValidAssigned,
    {| tag := new_tag; valid := true; data := data block;
       lru_counter := lru_counter block |});
   (RankAssigned, place assoc new_tag block)].

(** The points of the first and of the second loop of [evictor]; [None]
    when the loop runs to its end without an assignment. *)
Fixpoint fill_invalid_points (assoc : Z) (new_tag : str) (blocks : list Block)
    : option (list (point * list Block)) :=
  match blocks with
  | [] => None
  | block :: rest =>
      if negb (valid block)
      then Some ((λ pb : point * Block, (pb.1, pb.2 :: rest))
                   <$> place_points assoc new_tag block)
      else match fill_invalid_points assoc new_tag rest with
           | Some points =>
               Some ((λ ps : point * list Block, (ps.1, block :: ps.2))
                       <$> points)
           | None => None
           end
  end.

Fixpoint evict_zero_points (assoc : Z) (new_tag : str) (blocks : list Block)
    : option (list (point * list Block)) :=
  match blocks with
  | [] => None
  | block :: rest =>
      if lru_counter block =? 0
      then Some ((λ pb : point * Block, (pb.1, pb.2 :: rest))
                   <$> place_points assoc new_tag block)
      else match evict_zero_points assoc new_tag rest with
           | Some points =>
               Some ((λ ps : point * list Block, (ps.1, block :: ps.2))
                       <$> points)
           | None => None
           end
  end.

Definition evictor_points (assoc : Z) (new_tag : str) (blocks : list Block)
    : list (point * list Block) :=
  match fill_invalid_points assoc new_tag blocks with
  | Some points => points
  | None =>
      match evict_zero_points assoc new_tag blocks with
      | Some points => points
      | None => []
      end
  end.

(** A loop of [lru_handling] with body [body]: the set after 1, 2, ...
    iterations. *)
Definition loop_points (label : nat → point) (body : Block → Block)
    (blocks : list Block) : list (point * list Block) :=
  (λ k, (label k, (body <$> take k blocks) ++ drop k blocks))
    <$> seq 1 (length blocks).

(** The points of [check] in the selected set, from the set as the call
    finds it to the set as the call leaves it. *)
Definition access_points (assoc : Z) (t : str) (blocks : list Block)
    : list (point * list Block) :=
  (Entry, blocks) ::
  match List.find (matches t) blocks with
  | Some block => loop_points HitLoop (promote assoc (lru_counter block)) blocks
  | None =>
      evictor_points assoc t blocks
      ++ loop_points MissLoop age (evictor_set assoc t blocks)
  end.

Definition check_points (self : Cache) (address : str)
    : result (list (point * list Block)) :=
  index ← extract_index self address;
  offset ← extract_offset self address;
  blocks ← getitem (cache self) index;
  Ok (access_points (associativity self) (extract_tag self address) blocks).

Section primitives.

Lemma py_index_lt len i n : py_index len i = Ok n → (n < len)%nat.
Proof.
  unfold py_index. repeat case_match; intros [= <-]; lia.
Qed.

Lemma py_index_nonneg len i :
  0 ≤ i < Z.of_nat len → py_index len i = Ok (Z.to_nat i).
Proof.
  intros H. unfold py_index.
  destruct (0 <=? i) eqn:E1; [| lia].
  destruct (i <? Z.of_nat len) eqn:E2; [done | lia].
Qed.

Lemma py_index_nonneg_inv len i n :
  0 ≤ i → py_index len i = Ok n → n = Z.to_nat i ∧ i < Z.of_nat len.
Proof.
  intros Hi. unfold py_index. repeat case_match; intros [= <-]; lia.
Qed.

Lemma getitem_Ok {A} (l : list A) i x :
  getitem l i = Ok x ↔ ∃ n, py_index (length l) i = Ok n ∧ l !! n = Some x.
Proof.
  unfold getitem. destruct (py_index (length l) i) as [n|e] eqn:E; simpl.
  - destruct (l !! n) as [y|] eqn:El; simpl.
    + split; [intros [= <-]; eauto | intros (? & [= <-] & ?); congruence].
    + split; [done | intros (? & [= <-] & ?); congruence].
  - split; [done | intros (? & ? & ?); done].
Qed.

Lemma getitem_at {A} (l : list A) i n x :
  py_index (length l) i = Ok n → l !! n = Some x → getitem l i = Ok x.
Proof. intros. apply getitem_Ok. eauto. Qed.

Lemma lookup_middle_ne {A} (s1 s2 : list A) x y j :
  j ≠ length s1 → (s1 ++ x :: s2) !! j = (s1 ++ y :: s2) !! j.
Proof.
  intros Hj. destruct (decide (j < length s1)%nat) as [Hlt | Hge].
  - by rewrite !lookup_app_l.
  - rewrite !lookup_app_r by lia.
    destruct (j - length s1)%nat eqn:E; [lia | done].
Qed.

End primitives.

Section check_as_access_set.

Lemma check_eq self address index offset n blocks :
  extract_index self address = Ok index →
  extract_offset self address = Ok offset →
  py_index (length (cache self)) index = Ok n →
  cache self !! n = Some blocks →
  check self address =
    Ok (after_access self n
          (access_set (associativity self) (extract_tag self address) blocks)).
Proof.
  intros Hi Ho Hn Hb. unfold check. rewrite Hi, Ho. simpl.
  rewrite (getitem_at _ _ _ _ Hn Hb). simpl.
  pose proof (py_index_lt _ _ _ Hn) as Hlt.
  unfold access_set, after_access.
  destruct (List.find _ blocks) as [block|]; simpl.
  - unfold lru_handling. simpl. rewrite Hn. simpl.
    rewrite (getitem_at _ _ _ _ Hn Hb). done.
  - unfold evictor. simpl. rewrite Hn. simpl.
    rewrite (getitem_at _ _ _ _ Hn Hb). simpl.
    unfold lru_handling. simpl. rewrite length_insert, Hn. simpl.
    erewrite getitem_at; [| by rewrite length_insert
                           | by apply list_lookup_insert_eq].
    simpl. by rewrite list_insert_insert_eq.
Qed.

Lemma check_inv self address r :
  check self address = Ok r →
  ∃ index offset n blocks,
    extract_index self address = Ok index ∧
    extract_offset self address = Ok offset ∧
    py_index (length (cache self)) index = Ok n ∧
    cache self !! n = Some blocks ∧
    r = after_access self n
          (access_set (associativity self) (extract_tag self address) blocks).
Proof.
  intros H.
  destruct (extract_index self address) as [index|] eqn:Hi;
    [| by unfold check in H; rewrite Hi in H].
  destruct (extract_offset self address) as [offset|] eqn:Ho;
    [| by unfold check in H; rewrite Hi, Ho in H].
  destruct (getitem (cache self) index) as [blocks|] eqn:Hg;
    [| by unfold check in H; rewrite Hi, Ho in H; simpl in H; rewrite Hg in H].
  apply getitem_Ok in Hg as (n & Hn & Hb).
  rewrite (check_eq _ _ _ _ _ _ Hi Ho Hn Hb) in H.
  injection H as <-. eauto 10.
Qed.

End check_as_access_set.

(** ** The loops, one by one *)

Section loops.
Context (assoc : Z).

Lemma valid_blocks_app s1 s2 :
  valid_blocks (s1 ++ s2) = valid_blocks s1 ++ valid_blocks s2.
Proof. apply List.filter_app. Qed.

Lemma elem_of_valid_blocks b s :
  b ∈ valid_blocks s ↔ b ∈ s ∧ valid b = true.
Proof.
  unfold valid_blocks. rewrite !list_elem_of_In. apply List.filter_In.
Qed.

Lemma length_valid_blocks s : (length (valid_blocks s) ≤ length s)%nat.
Proof. apply List.filter_length_le. Qed.

Lemma valid_blocks_all s :
  forallb valid s = true → valid_blocks s = s.
Proof.
  induction s as [|b s IH]; simpl; [done |].
  intros [Hb Hs]%andb_true_iff. unfold valid_blocks in *. simpl.
  rewrite Hb. f_equal. auto.
Qed.

Lemma valid_blocks_fmap (f : Block → Block) s :
  (∀ b, valid (f b) = valid b) →
  valid_blocks (f <$> s) = f <$> valid_blocks s.
Proof.
  intros Hf. unfold valid_blocks.
  induction s as [|b s IH]; [done |].
  rewrite fmap_cons. cbn [List.filter]. rewrite Hf, IH.
  by destruct (valid b).
Qed.

(** *** The lookup loop *)

Lemma matches_true t b : matches t b = true ↔ tag b = t ∧ valid b = true.
Proof.
  unfold matches, str_eqb. rewrite andb_true_iff, bool_decide_eq_true. done.
Qed.

Lemma find_matches_Some t s b :
  List.find (matches t) s = Some b → b ∈ s ∧ tag b = t ∧ valid b = true.
Proof.
  intros [Hin Hm]%List.find_some. apply matches_true in Hm.
  by rewrite list_elem_of_In.
Qed.

Lemma find_matches_None t s :
  List.find (matches t) s = None ↔ t ∉ valid_tags s.
Proof.
  unfold valid_tags. rewrite list_elem_of_fmap. split.
  - intros H (b & -> & [Hb Hv]%elem_of_valid_blocks).
    apply list_elem_of_In in Hb.
    pose proof (List.find_none _ _ H _ Hb) as Hm.
    assert (matches (tag b) b = true) by by apply matches_true. congruence.
  - intros H. destruct (List.find (matches t) s) as [b|] eqn:E; [| done].
    apply find_matches_Some in E as (? & ? & ?). destruct H.
    exists b. by rewrite elem_of_valid_blocks.
Qed.

Lemma find_matches_is_Some t s :
  is_Some (List.find (matches t) s) ↔ t ∈ valid_tags s.
Proof.
  rewrite <- not_eq_None_Some, find_matches_None.
  split; [apply dec_stable | auto].
Qed.

(** *** The hit loop *)

Lemma promote_fields cur b :
  tag (promote assoc cur b) = tag b ∧
  valid (promote assoc cur b) = valid b ∧
  data (promote assoc cur b) = data b ∧
  lru_counter (promote assoc cur b) = rank_promote assoc cur (lru_counter b).
Proof. unfold promote, rank_promote. repeat case_match; done. Qed.

Lemma valid_blocks_promote cur s :
  valid_blocks (promote assoc cur <$> s) = promote assoc cur <$> valid_blocks s.
Proof. apply valid_blocks_fmap. intros b. apply promote_fields. Qed.

Lemma valid_tags_promote cur s :
  valid_tags (promote assoc cur <$> s) = valid_tags s.
Proof.
  unfold valid_tags. rewrite valid_blocks_promote, <- list_fmap_compose.
  apply list_fmap_ext. intros _ b _. simpl. apply promote_fields.
Qed.

Lemma valid_ranks_promote cur s :
  valid_ranks (promote assoc cur <$> s) = rank_promote assoc cur <$> valid_ranks s.
Proof.
  unfold valid_ranks. rewrite valid_blocks_promote, <- !list_fmap_compose.
  apply list_fmap_ext. intros _ b _. simpl. apply promote_fields.
Qed.

(** *** The miss loop *)

Lemma valid_blocks_age s : valid_blocks (age <$> s) = age <$> valid_blocks s.
Proof. by apply valid_blocks_fmap. Qed.

Lemma valid_tags_age s : valid_tags (age <$> s) = valid_tags s.
Proof.
  unfold valid_tags. rewrite valid_blocks_age, <- list_fmap_compose.
  by apply list_fmap_ext.
Qed.

Lemma valid_ranks_age s :
  valid_ranks (age <$> s) = Z.pred <$> valid_ranks s.
Proof.
  unfold valid_ranks. rewrite valid_blocks_age, <- !list_fmap_compose.
  apply list_fmap_ext. intros _ b _. simpl. lia.
Qed.

(** *** The two loops of [evictor] *)

Lemma fill_invalid_Some t s s' :
  fill_invalid assoc t s = Some s' →
  ∃ s1 b s2, s = s1 ++ b :: s2 ∧ s' = s1 ++ place assoc t b :: s2 ∧
             valid b = false ∧ forallb valid s1 = true.
Proof.
  revert s'. induction s as [|b s IH]; intros s'; simpl; [done |].
  destruct (valid b) eqn:Hb; simpl.
  - destruct (fill_invalid assoc t s) as [r|]; simpl; [| done].
    intros [= <-]. destruct (IH r eq_refl) as (s1 & x & s2 & -> & -> & ? & ?).
    exists (b :: s1), x, s2. simpl. by rewrite Hb.
  - intros [= <-]. by exists [], b, s.
Qed.

Lemma fill_invalid_None t s :
  fill_invalid assoc t s = None ↔ forallb valid s = true.
Proof.
  induction s as [|b s IH]; simpl; [done |].
  destruct (valid b); simpl; [| done].
  rewrite <- IH. by destruct (fill_invalid assoc t s).
Qed.

Lemma evict_zero_Some t s s' :
  evict_zero assoc t s = Some s' →
  ∃ s1 b s2, s = s1 ++ b :: s2 ∧ s' = s1 ++ place assoc t b :: s2 ∧
             lru_counter b = 0 ∧ ∀ x, x ∈ s1 → lru_counter x ≠ 0.
Proof.
  revert s'. induction s as [|b s IH]; intros s'; simpl; [done |].
  destruct (lru_counter b =? 0) eqn:Hb; simpl.
  - intros [= <-]. exists [], b, s. repeat split; [lia |].
    intros x Hx. by apply not_elem_of_nil in Hx.
  - destruct (evict_zero assoc t s) as [r|]; simpl; [| done].
    intros [= <-]. destruct (IH r eq_refl) as (s1 & x & s2 & -> & -> & ? & ?).
    exists (b :: s1), x, s2. repeat split; [done |].
    intros y [->|Hy]%elem_of_cons; [lia | auto].
Qed.

Lemma evict_zero_None t s :
  evict_zero assoc t s = None ↔ ∀ b, b ∈ s → lru_counter b ≠ 0.
Proof.
  induction s as [|b s IH]; simpl.
  - split; [| done]. intros _ b Hb. by apply not_elem_of_nil in Hb.
  - destruct (lru_counter b =? 0) eqn:Hb; simpl.
    + split; [done |]. intros H.
      specialize (H b (list_elem_of_here _ _)). lia.
    + destruct (evict_zero assoc t s); simpl.
      * split; [done |]. intros H. destruct IH as [_ IH].
        discriminate IH. intros x Hx. apply H. by right.
      * split; [| done]. intros _ x [->|Hx]%elem_of_cons; [lia |].
        by apply IH.
Qed.

End loops.

(** ** Preservation of the rank invariant by one access *)

Section rank_invariant.
Context (assoc : Z) (Hassoc : 0 < assoc).

Lemma NoDup_range_Permutation (l : list Z) lo :
  NoDup l →
  (∀ x, x ∈ l → lo ≤ x < lo + Z.of_nat (length l)) →
  l ≡ₚ seqZ lo (Z.of_nat (length l)).
Proof.
  intros Hnd Hr. apply submseteq_length_Permutation.
  - apply NoDup_submseteq; [done |]. intros x Hx. apply elem_of_seqZ. auto.
  - rewrite length_seqZ. lia.
Qed.

Lemma elem_of_valid_ranks x s :
  x ∈ valid_ranks s ↔ ∃ b, b ∈ s ∧ valid b = true ∧ lru_counter b = x.
Proof.
  unfold valid_ranks. rewrite list_elem_of_fmap. split.
  - intros (b & -> & [? ?]%elem_of_valid_blocks). by exists b.
  - intros (b & ? & ? & <-). exists b. by rewrite elem_of_valid_blocks.
Qed.

Lemma set_inv_rank_range s x :
  set_inv assoc s → x ∈ valid_ranks s →
  assoc - Z.of_nat (length (valid_blocks s)) ≤ x < assoc.
Proof.
  intros (_ & _ & Hb) (b & Hin & Hv & <-)%elem_of_valid_ranks.
  specialize (Hb b Hin). by rewrite Hv in Hb.
Qed.

Lemma set_inv_valid_le s :
  set_inv assoc s → Z.of_nat (length (valid_blocks s)) ≤ assoc.
Proof. intros (Hl & _). pose proof (length_valid_blocks s). lia. Qed.

Lemma set_inv_Permutation s :
  set_inv assoc s →
  valid_ranks s ≡ₚ
    seqZ (assoc - Z.of_nat (length (valid_blocks s)))
         (Z.of_nat (length (valid_blocks s))).
Proof.
  intros Hinv. pose proof Hinv as (_ & Hnd & _).
  assert (length (valid_ranks s) = length (valid_blocks s)) as Hlen
    by (unfold valid_ranks; by rewrite length_fmap).
  rewrite <- Hlen at 2. apply NoDup_range_Permutation; [done |].
  intros x Hx. rewrite Hlen. pose proof (set_inv_rank_range _ _ Hinv Hx). lia.
Qed.

(** A full set holds a block of rank 0, so the second loop of [evictor]
    finds its block. *)
Lemma set_inv_full_zero s :
  set_inv assoc s → forallb valid s = true →
  ∃ b, b ∈ s ∧ valid b = true ∧ lru_counter b = 0.
Proof.
  intros Hinv Hall. pose proof Hinv as (Hl & _).
  assert (0 ∈ valid_ranks s) as H0; [| by apply elem_of_valid_ranks].
  rewrite (set_inv_Permutation _ Hinv), (valid_blocks_all _ Hall), Hl.
  apply elem_of_seqZ. lia.
Qed.

Lemma set_inv_hit s b :
  set_inv assoc s → b ∈ s → valid b = true →
  set_inv assoc (promote assoc (lru_counter b) <$> s).
Proof.
  intros Hinv Hb Hv. pose proof Hinv as (Hl & Hnd & Hr).
  pose proof (set_inv_valid_le _ Hinv) as Hle.
  assert (assoc - Z.of_nat (length (valid_blocks s)) ≤ lru_counter b < assoc)
    as Hcur by (specialize (Hr b Hb); by rewrite Hv in Hr).
  set (cur := lru_counter b) in *.
  split; [by rewrite length_fmap |]. split.
  - rewrite valid_ranks_promote. apply NoDup_fmap_2_strong; [| done].
    intros x y Hx%(set_inv_rank_range _ _ Hinv) Hy%(set_inv_rank_range _ _ Hinv).
    unfold rank_promote.
    destruct (Z.gtb_spec x cur), (Z.gtb_spec y cur),
      (Z.eqb_spec x cur), (Z.eqb_spec y cur); lia.
  - intros b' (b0 & -> & Hb0)%list_elem_of_fmap.
    rewrite valid_blocks_promote, length_fmap.
    destruct (promote_fields assoc cur b0) as (_ & -> & _ & ->).
    specialize (Hr b0 Hb0). unfold rank_promote.
    destruct (valid b0);
      destruct (Z.gtb_spec (lru_counter b0) cur),
        (Z.eqb_spec (lru_counter b0) cur); lia.
Qed.

Lemma set_inv_place s1 b s2 t :
  set_inv assoc (s1 ++ b :: s2) →
  valid b = false ∨
    (lru_counter b = 0 ∧ forallb valid (s1 ++ b :: s2) = true) →
  set_inv assoc (age <$> (s1 ++ place assoc t b :: s2)).
Proof.
  intros Hinv Hcase. pose proof Hinv as (Hl & Hnd & Hr).
  assert (valid_blocks (s1 ++ place assoc t b :: s2)
          = valid_blocks s1 ++ place assoc t b :: valid_blocks s2) as Hvb'
    by by rewrite valid_blocks_app.
  assert (∀ x, x ∈ s1 ∨ x ∈ s2 → x ∈ s1 ++ b :: s2) as Hsub.
  { intros x. rewrite elem_of_app, elem_of_cons. tauto. }
  assert (∀ x, x ∈ valid_blocks s1 ∨ x ∈ valid_blocks s2 →
               valid x = true ∧
               assoc - Z.of_nat (length (valid_blocks (s1 ++ b :: s2)))
                 ≤ lru_counter x < assoc) as Hold.
  { intros x Hx. rewrite !elem_of_valid_blocks in Hx.
    assert (x ∈ s1 ++ b :: s2 ∧ valid x = true) as [Hin Hvx]
      by (split; [apply Hsub |]; tauto).
    specialize (Hr x Hin). by rewrite Hvx in Hr. }
  assert ((valid b = false ∧
           valid_blocks (s1 ++ b :: s2) = valid_blocks s1 ++ valid_blocks s2) ∨
          (valid b = true ∧ lru_counter b = 0 ∧
           length (valid_blocks (s1 ++ b :: s2)) = Z.to_nat assoc ∧
           valid_blocks (s1 ++ b :: s2)
           = valid_blocks s1 ++ b :: valid_blocks s2)) as Hshape.
  { assert (valid_blocks (s1 ++ b :: s2)
            = valid_blocks s1 ++ (if valid b then [b] else []) ++ valid_blocks s2)
      as Hvb0.
    { rewrite valid_blocks_app. unfold valid_blocks. cbn [List.filter].
      by destruct (valid b). }
    destruct Hcase as [Hb | [Hb Hall]].
    - left. split; [done |]. by rewrite Hvb0, Hb.
    - right. assert (valid b = true) as Hvb1.
      { rewrite forallb_app in Hall. cbn in Hall.
        by apply andb_true_iff in Hall as [_ [? _]%andb_true_iff]. }
      repeat split; [done | done | |].
      + by rewrite (valid_blocks_all _ Hall).
      + by rewrite Hvb0, Hvb1. }
  split; [| split].
  - rewrite length_fmap, <- Hl, !length_app. done.
  - rewrite valid_ranks_age. apply NoDup_fmap_2_strong; [lia |].
    unfold valid_ranks in *. rewrite Hvb', fmap_app, fmap_cons.
    cbn [place lru_counter].
    assert (∀ x, x ∈ lru_counter <$> valid_blocks s1 ∨
                 x ∈ lru_counter <$> valid_blocks s2 → x ≠ assoc) as Hne.
    { intros x. rewrite !list_elem_of_fmap.
      intros [(y & -> & Hy) | (y & -> & Hy)];
        [destruct (Hold y (or_introl Hy)) | destruct (Hold y (or_intror Hy))];
        lia. }
    destruct Hshape as [(_ & Hvb) | (_ & _ & _ & Hvb)];
      rewrite Hvb in Hnd; rewrite fmap_app in Hnd;
      [| rewrite fmap_cons in Hnd];
      apply NoDup_app in Hnd as (Hn1 & Hn12 & Hn2);
      [| apply NoDup_cons in Hn2 as [_ Hn2]];
      (apply NoDup_app; split; [done |]; split;
       [ intros x Hx [->|Hx2]%elem_of_cons;
         [ exact (Hne assoc (or_introl Hx) eq_refl)
         | apply (Hn12 x Hx); rewrite ?elem_of_cons; auto ]
       | apply NoDup_cons; split; [| done];
         intros Hin; exact (Hne assoc (or_intror Hin) eq_refl) ]).
  - intros b' (b0 & -> & Hb0)%list_elem_of_fmap.
    rewrite valid_blocks_age, length_fmap, Hvb', length_app. cbn [length].
    unfold age, set_lru. cbn [valid lru_counter].
    apply elem_of_app in Hb0 as [Hb0 | [-> | Hb0]%elem_of_cons].
    + pose proof (Hr b0 (Hsub _ (or_introl Hb0))) as Hr0.
      destruct (valid b0) eqn:Hv0; [| lia].
      unfold valid_ranks in Hnd.
      destruct Hshape as [(_ & Hvb) | (_ & Hb & Hfull & Hvb)];
        [rewrite Hvb, length_app in Hr0; lia |].
      rewrite Hvb in Hnd, Hr0, Hfull. rewrite length_app in Hr0, Hfull.
      cbn [length] in Hr0, Hfull.
      assert (lru_counter b0 ≠ 0); [| lia].
      rewrite fmap_app, fmap_cons in Hnd.
      apply NoDup_app in Hnd as (_ & Hn12 & _). intros E.
      apply (Hn12 (lru_counter b0)).
      * apply list_elem_of_fmap_2. by apply elem_of_valid_blocks.
      * rewrite E, Hb. apply list_elem_of_here.
    + cbn. lia.
    + pose proof (Hr b0 (Hsub _ (or_intror Hb0))) as Hr0.
      destruct (valid b0) eqn:Hv0; [| lia].
      unfold valid_ranks in Hnd.
      destruct Hshape as [(_ & Hvb) | (_ & Hb & Hfull & Hvb)];
        [rewrite Hvb, length_app in Hr0; lia |].
      rewrite Hvb in Hnd, Hr0, Hfull. rewrite length_app in Hr0, Hfull.
      cbn [length] in Hr0, Hfull.
      assert (lru_counter b0 ≠ 0); [| lia].
      rewrite fmap_app, fmap_cons in Hnd.
      apply NoDup_app in Hnd as (_ & _ & [Hn2 _]%NoDup_cons). intros E.
      apply Hn2. rewrite Hb, <- E.
      apply list_elem_of_fmap_2. by apply elem_of_valid_blocks.
Qed.

End rank_invariant.

(** ** What [evictor] does under the invariant *)

Section evictor_cases.
Context (assoc : Z) (Hassoc : 0 < assoc).

Lemma evictor_set_cases t s :
  set_inv assoc s →
  ∃ s1 b s2,
    s = s1 ++ b :: s2 ∧
    evictor_set assoc t s = s1 ++ place assoc t b :: s2 ∧
    ((valid b = false ∧
      fill_invalid assoc t s = Some (s1 ++ place assoc t b :: s2)) ∨
     (valid b = true ∧ lru_counter b = 0 ∧ forallb valid s = true ∧
      fill_invalid assoc t s = None ∧
      evict_zero assoc t s = Some (s1 ++ place assoc t b :: s2))).
Proof.
  intros Hinv. unfold evictor_set.
  destruct (fill_invalid assoc t s) as [s'|] eqn:Hfill.
  - apply fill_invalid_Some in Hfill as (s1 & b & s2 & -> & -> & Hb & _).
    exists s1, b, s2. split; [done |]. split; [done |]. by left.
  - pose proof Hfill as Hall%fill_invalid_None.
    destruct (evict_zero assoc t s) as [s'|] eqn:Hev.
    + apply evict_zero_Some in Hev as (s1 & b & s2 & -> & -> & Hb & _).
      exists s1, b, s2. split; [done |]. split; [done |]. right.
      split; [| done].
      rewrite forallb_app in Hall. cbn in Hall.
      by apply andb_true_iff in Hall as [_ [? _]%andb_true_iff].
    + destruct (set_inv_full_zero assoc Hassoc s Hinv Hall) as (b & Hb & _ & Hz).
      rewrite evict_zero_None in Hev. by destruct (Hev b Hb).
Qed.

Lemma access_set_inv t s :
  set_inv assoc s → set_inv assoc (access_set assoc t s).2.
Proof.
  intros Hinv. unfold access_set.
  destruct (List.find (matches t) s) as [b|] eqn:Hfind; cbn [snd].
  - apply find_matches_Some in Hfind as (Hb & _ & Hv).
    by apply set_inv_hit.
  - destruct (evictor_set_cases t s Hinv) as (s1 & b & s2 & -> & -> & Hc).
    apply set_inv_place; [done | done | tauto].
Qed.

Lemma valid_tags_place s1 b s2 t :
  valid_tags (s1 ++ place assoc t b :: s2)
  = valid_tags s1 ++ t :: valid_tags s2.
Proof.
  unfold valid_tags. by rewrite valid_blocks_app, fmap_app.
Qed.

(** After any access that returns, the tag of the address is among the
    valid tags of its set. *)
Lemma access_set_tag t s :
  set_inv assoc s → t ∈ valid_tags (access_set assoc t s).2.
Proof.
  intros Hinv. unfold access_set.
  destruct (List.find (matches t) s) as [b|] eqn:Hfind; cbn [snd].
  - rewrite valid_tags_promote. apply find_matches_is_Some. by exists b.
  - destruct (evictor_set_cases t s Hinv) as (s1 & b & s2 & -> & -> & _).
    rewrite valid_tags_age, valid_tags_place, elem_of_app, elem_of_cons. auto.
Qed.

Lemma access_set_hit t s :
  (access_set assoc t s).1 = true ↔ t ∈ valid_tags s.
Proof.
  unfold access_set. rewrite <- find_matches_is_Some.
  destruct (List.find (matches t) s); cbn [fst].
  - split; [by eexists | done].
  - split; [done | by intros [? ?]].
Qed.

Lemma access_set_hit_tags t s :
  (access_set assoc t s).1 = true →
  valid_tags (access_set assoc t s).2 = valid_tags s.
Proof.
  unfold access_set. destruct (List.find (matches t) s); cbn; [| done].
  intros _. apply valid_tags_promote.
Qed.

End evictor_cases.

(** ** Addresses: slices and binary values *)

Section addresses.

Lemma py_clamp_step len i k :
  0 ≤ len → 0 ≤ k → py_clamp len (i + k) - py_clamp len i ≤ k.
Proof.
  unfold py_clamp. destruct (Z.ltb_spec i 0), (Z.ltb_spec (i + k) 0); lia.
Qed.

Lemma length_py_slice_window s i k :
  0 ≤ k → Z.of_nat (length (py_slice s (Some i) (Some (i + k)))) ≤ k.
Proof.
  intros Hk. unfold py_slice. rewrite length_take.
  pose proof (py_clamp_step (Z.of_nat (length s)) i k). lia.
Qed.

Lemma py_slice_empty_window s i : py_slice s (Some i) (Some (i + 0)) = [].
Proof.
  unfold py_slice. rewrite Z.add_0_r, Z.sub_diag. done.
Qed.

Lemma forallb_take {A} (p : A → bool) n (l : list A) :
  forallb p l = true → forallb p (take n l) = true.
Proof.
  revert n. induction l as [|x l IH]; intros [|n]; simpl; try done.
  intros [-> ?]%andb_true_iff. simpl. auto.
Qed.

Lemma forallb_drop {A} (p : A → bool) n (l : list A) :
  forallb p l = true → forallb p (drop n l) = true.
Proof.
  revert n. induction l as [|x l IH]; intros [|n]; simpl; try done.
  intros [_ ?]%andb_true_iff. auto.
Qed.

Lemma py_slice_bits s lo hi :
  forallb is_bit s = true → forallb is_bit (py_slice s lo hi) = true.
Proof. intros H. unfold py_slice. by apply forallb_take, forallb_drop. Qed.

(** The length of a slice depends on the length of the string only. *)
Lemma length_py_slice s s' lo hi :
  length s = length s' →
  length (py_slice s lo hi) = length (py_slice s' lo hi).
Proof.
  intros H. unfold py_slice. rewrite !length_take, !length_drop, H. done.
Qed.

Lemma bin_value_bits acc s :
  forallb is_bit s = true → is_Some (bin_value acc s).
Proof.
  revert acc. induction s as [|c s IH]; intros acc; simpl; [by eexists |].
  intros [Hc Hs]%andb_true_iff. unfold is_bit in Hc.
  destruct (Ascii.eqb c "0"); [by apply IH |].
  destruct (Ascii.eqb c "1"); [by apply IH | done].
Qed.

Lemma bin_value_Some_bits acc s v :
  bin_value acc s = Some v → forallb is_bit s = true.
Proof.
  revert acc. induction s as [|c s IH]; intros acc; simpl; [done |].
  unfold is_bit. destruct (Ascii.eqb c "0"); simpl; [by apply IH |].
  destruct (Ascii.eqb c "1"); simpl; [by apply IH | done].
Qed.

Lemma bin_value_bound acc s v :
  0 ≤ acc → bin_value acc s = Some v →
  acc * 2 ^ Z.of_nat (length s) ≤ v < (acc + 1) * 2 ^ Z.of_nat (length s).
Proof.
  revert acc. induction s as [|c s IH]; intros acc Hacc; simpl.
  - intros [= <-]. lia.
  - rewrite Nat2Z.inj_succ, Z.pow_succ_r by lia.
    assert (0 < 2 ^ Z.of_nat (length s)) by (apply Z.pow_pos_nonneg; lia).
    destruct (Ascii.eqb c "0").
    + intros H'%IH; [nia | lia].
    + destruct (Ascii.eqb c "1"); [| done].
      intros H'%IH; [nia | lia].
Qed.

Lemma int_base2_Ok s :
  s ≠ [] → forallb is_bit s = true → ∃ v, int_base2 s = Ok v.
Proof.
  intros Hs Hb. destruct (bin_value_bits 0 s Hb) as [v Hv].
  exists v. unfold int_base2. rewrite Hv. by destruct s.
Qed.

Lemma int_base2_inv s v :
  int_base2 s = Ok v →
  s ≠ [] ∧ forallb is_bit s = true ∧ 0 ≤ v < 2 ^ Z.of_nat (length s).
Proof.
  unfold int_base2. destruct s as [|c s]; [done |].
  destruct (bin_value 0 (c :: s)) as [w|] eqn:E; [| done].
  intros [= <-]. split; [done |]. split; [by eapply bin_value_Some_bits |].
  apply bin_value_bound in E; lia.
Qed.

Lemma bin32_inv a :
  bin32 a = true → length a = 32%nat ∧ forallb is_bit a = true.
Proof.
  unfold bin32. intros [H1%Nat.eqb_eq H2]%andb_true_iff. done.
Qed.

(** Whether [extract_index] returns depends on the widths only, not on
    the digits of the address. *)
Lemma extract_index_uniform self a a' i :
  bin32 a = true → bin32 a' = true →
  extract_index self a = Ok i → ∃ i', extract_index self a' = Ok i'.
Proof.
  intros [Hl Hb]%bin32_inv [Hl' Hb']%bin32_inv (Hne & _ & _)%int_base2_inv.
  apply int_base2_Ok; [| by apply py_slice_bits].
  intros E. apply Hne, nil_length_inv.
  erewrite length_py_slice; [by rewrite E | congruence].
Qed.

Lemma extract_index_bound self a i :
  0 ≤ no_of_ind_bits self →
  extract_index self a = Ok i → 0 ≤ i < 2 ^ no_of_ind_bits self.
Proof.
  intros Hk (_ & _ & Hi)%int_base2_inv.
  pose proof (length_py_slice_window a (no_of_tag_bits self) _ Hk).
  split; [lia |]. eapply Z.lt_le_trans; [apply Hi |].
  apply Z.pow_le_mono_r; lia.
Qed.

Lemma extract_offset_Ok self a :
  0 ≤ no_of_offset_bits self → bin32 a = true →
  ∃ offset, extract_offset self a = Ok offset.
Proof.
  intros Ho [Hl Hb]%bin32_inv. apply int_base2_Ok; [| by apply py_slice_bits].
  intros E%(f_equal length). revert E. unfold py_slice.
  rewrite length_take, length_drop, Hl. unfold py_clamp. simpl.
  destruct (Z.ltb_spec (- no_of_offset_bits self) 0); lia.
Qed.

(** With at least one index bit and a tag width that is not negative,
    the index of every 32-bit address is read without error. *)
Lemma extract_index_Ok self a :
  1 ≤ no_of_ind_bits self → 0 ≤ no_of_offset_bits self →
  0 ≤ no_of_tag_bits self →
  no_of_tag_bits self + no_of_ind_bits self + no_of_offset_bits self = 32 →
  bin32 a = true →
  ∃ i, extract_index self a = Ok i.
Proof.
  intros Hk Ho Ht Hsum [Hl Hb]%bin32_inv.
  apply int_base2_Ok; [| by apply py_slice_bits].
  intros E%(f_equal length). revert E. unfold py_slice.
  rewrite length_take, length_drop, Hl. unfold py_clamp. simpl.
  destruct (Z.ltb_spec (no_of_tag_bits self) 0),
    (Z.ltb_spec (no_of_tag_bits self + no_of_ind_bits self) 0); lia.
Qed.

End addresses.

(** ** Construction and single accesses at the level of the cache *)

Section cache_level.

Lemma Cache_init_inv cs bs a self :
  Cache_init cs bs a = Ok self →
  bs * a ≠ 0 ∧ 0 < cs / (bs * a) ∧ 0 < bs ∧
  self = {| cache_size := cs; block_size := bs; associativity := a;
            sets := cs / (bs * a);
            no_of_ind_bits := Z.log2 (cs / (bs * a));
            no_of_offset_bits := Z.log2 bs;
            no_of_tag_bits := 32 - Z.log2 (cs / (bs * a)) - Z.log2 bs;
            hit_count := 0; miss_count := 0;
            cache := replicate (Z.to_nat (cs / (bs * a)))
                       (replicate (Z.to_nat a)
                          (Block_init
                             (str_mul "0"
                                (32 - Z.log2 (cs / (bs * a)) - Z.log2 bs))
                             false)) |}.
Proof.
  unfold Cache_init, floordiv, int_log2.
  destruct (Z.eqb_spec (bs * a) 0); [done |]. cbn.
  destruct (Z.leb_spec (cs / (bs * a)) 0); [done |]. cbn.
  destruct (Z.leb_spec bs 0); [done |]. cbn.
  intros [= <-]. done.
Qed.

Lemma valid_blocks_replicate n b :
  valid b = false → valid_blocks (replicate n b) = [].
Proof.
  intros Hb. unfold valid_blocks.
  induction n as [|n IH]; [done |]. cbn. by rewrite Hb.
Qed.

Lemma set_inv_init a t :
  0 < a → set_inv a (replicate (Z.to_nat a) (Block_init t false)).
Proof.
  intros Ha. split; [by rewrite length_replicate |]. split.
  - unfold valid_ranks. rewrite valid_blocks_replicate by done. constructor.
  - intros b ->%elem_of_replicate_inv. cbn. lia.
Qed.

Lemma Cache_init_wf cs bs a self :
  0 < a → Cache_init cs bs a = Ok self → wf self.
Proof.
  intros Ha (Hd & Hs & Hb & ->)%Cache_init_inv. unfold wf. cbn.
  split; [done |]. split; [apply Z.log2_nonneg |].
  split; [apply Z.log2_nonneg |]. split.
  - rewrite length_replicate, Z2Nat.id by lia. by apply Z.log2_spec.
  - intros blocks ->%elem_of_replicate_inv. by apply set_inv_init.
Qed.

Lemma after_access_same_config self n r :
  same_config self (after_access self n r).2.
Proof. unfold after_access, same_config. cbn. by destruct r.1. Qed.

Lemma check_same_config self address r :
  check self address = Ok r → same_config self r.2.
Proof.
  intros (? & ? & n & blocks & _ & _ & _ & _ & ->)%check_inv.
  apply after_access_same_config.
Qed.

Lemma cache_after_access self n r :
  cache (after_access self n r).2 = <[n := r.2]> (cache self).
Proof. done. Qed.

Lemma same_config_extract_index c c' a :
  same_config c c' → extract_index c' a = extract_index c a.
Proof.
  intros (_ & _ & _ & _ & Hi & _ & Ht). unfold extract_index.
  by rewrite Hi, Ht.
Qed.

Lemma same_config_extract_tag c c' a :
  same_config c c' → extract_tag c' a = extract_tag c a.
Proof.
  intros (_ & _ & _ & _ & _ & _ & Ht). unfold extract_tag. by rewrite Ht.
Qed.

Lemma same_config_decodes c c' :
  same_config c c' → decodes c' = decodes c.
Proof.
  intros H. unfold decodes. by rewrite (same_config_extract_index _ _ _ H).
Qed.

Lemma check_wf self address r :
  wf self → check self address = Ok r → wf r.2.
Proof.
  intros (Ha & Hk & Ho & Hlen & Hsets) Hc.
  pose proof (check_same_config _ _ _ Hc) as (_ & _ & Ea & _ & Ei & Eo & _).
  apply check_inv in Hc as (i & o & n & blocks & _ & _ & Hn & Hb & ->).
  unfold wf. rewrite Ea, Ei, Eo, cache_after_access, length_insert.
  repeat (split; [done |]).
  intros blocks' (j & Hj)%list_elem_of_lookup.
  apply list_lookup_insert_Some in Hj as [(-> & <- & _) | (_ & Hj)].
  - apply access_set_inv; [done |].
    apply Hsets. by eapply list_elem_of_lookup_2.
  - apply Hsets. by eapply list_elem_of_lookup_2.
Qed.

Lemma reachable_wf self : reachable self → wf self.
Proof.
  induction 1 as [cs bs a self Ha Hinit | self address hit self' _ IH _ Hc].
  - by eapply Cache_init_wf.
  - apply (check_wf _ _ _ IH Hc).
Qed.

(** The slot an index denotes, in a cache that occurs. *)
Lemma wf_index self address index :
  wf self → extract_index self address = Ok index →
  py_index (length (cache self)) index = Ok (Z.to_nat index) ∧
  is_Some (cache self !! Z.to_nat index).
Proof.
  intros (_ & Hk & _ & Hlen & _) Hi.
  pose proof (extract_index_bound _ _ _ Hk Hi) as Hb.
  split; [apply py_index_nonneg; lia |].
  apply lookup_lt_is_Some. lia.
Qed.

Lemma check_defined self address index :
  wf self → bin32 address = true →
  extract_index self address = Ok index →
  ∃ blocks,
    cache self !! Z.to_nat index = Some blocks ∧
    check self address =
      Ok (after_access self (Z.to_nat index)
            (access_set (associativity self) (extract_tag self address)
               blocks)).
Proof.
  intros Hwf Ha Hi.
  destruct (wf_index _ _ _ Hwf Hi) as [Hn [blocks Hb]].
  destruct Hwf as (_ & _ & Ho & _).
  destruct (extract_offset_Ok _ _ Ho Ha) as [offset Hoff].
  exists blocks. split; [done |]. by eapply check_eq.
Qed.

Lemma decodes_extract_index self address :
  decodes self = true → bin32 address = true →
  ∃ index, extract_index self address = Ok index.
Proof.
  unfold decodes. destruct (extract_index self zeros32) as [i|] eqn:E; [| done].
  intros _ Ha. by eapply (extract_index_uniform self zeros32).
Qed.

(** The usual case: at least one index bit and the three widths adding up
    to 32 without a negative one. *)
Lemma decodes_of_widths self :
  1 ≤ no_of_ind_bits self → 0 ≤ no_of_offset_bits self →
  0 ≤ no_of_tag_bits self →
  no_of_tag_bits self + no_of_ind_bits self + no_of_offset_bits self = 32 →
  decodes self = true.
Proof.
  intros Hk Ho Ht Hsum. unfold decodes.
  destruct (extract_index_Ok self zeros32 Hk Ho Ht Hsum eq_refl) as [i ->].
  done.
Qed.

Lemma check_total self address :
  wf self → decodes self = true → bin32 address = true →
  ∃ r, check self address = Ok r.
Proof.
  intros Hwf Hd Ha.
  destruct (decodes_extract_index _ _ Hd Ha) as [i Hi].
  destruct (check_defined _ _ _ Hwf Ha Hi) as (blocks & _ & ->). eauto.
Qed.

Lemma run_total self trace :
  wf self → decodes self = true → forallb bin32 trace = true →
  ∃ r, run self trace = Ok r.
Proof.
  revert self. induction trace as [|a trace IH]; intros self Hwf Hd; cbn.
  - eauto.
  - intros [Ha Ht]%andb_true_iff.
    destruct (check_total _ _ Hwf Hd Ha) as [r Hr]. rewrite Hr. cbn.
    destruct (IH r.2) as [rs Hrs]; [by eapply check_wf | | done |].
    + by rewrite (same_config_decodes _ _ (check_same_config _ _ _ Hr)).
    + rewrite Hrs. cbn. eauto.
Qed.

Lemma run_cons self a trace r :
  check self a = Ok r →
  run self (a :: trace) = (rs ← run r.2 trace; Ok (r.1 :: rs.1, rs.2)).
Proof. intros H. cbn [run]. by rewrite H. Qed.

Lemma run_cons_inv self a trace r :
  run self (a :: trace) = Ok r →
  ∃ hit self1 outcomes,
    check self a = Ok (hit, self1) ∧
    run self1 trace = Ok (outcomes, r.2) ∧ r.1 = hit :: outcomes.
Proof.
  cbn. destruct (check self a) as [[hit self1]|] eqn:Hc; [| done]. cbn.
  destruct (run self1 trace) as [[outs self2]|] eqn:Hr; [| done]. cbn.
  intros [= <-]. by exists hit, self1, outs.
Qed.

Lemma run_reachable self trace r :
  reachable self → forallb bin32 trace = true →
  run self trace = Ok r → reachable r.2.
Proof.
  revert self r. induction trace as [|a trace IH]; intros self r Hre.
  - cbn. by intros _ [= <-].
  - intros [Ha Ht]%andb_true_iff
      (hit & self1 & outs & Hc & Hr & _)%run_cons_inv.
    apply (IH self1 (outs, r.2)); [| done | done].
    by eapply reachable_check.
Qed.

Lemma Cache_init_widths cs bs a self :
  Cache_init cs bs a = Ok self →
  0 ≤ no_of_ind_bits self ∧ 0 ≤ no_of_offset_bits self ∧
  no_of_tag_bits self + no_of_ind_bits self + no_of_offset_bits self = 32.
Proof.
  intros (_ & _ & _ & ->)%Cache_init_inv. cbn.
  pose proof (Z.log2_nonneg (cs / (bs * a))). pose proof (Z.log2_nonneg bs).
  lia.
Qed.

Lemma reachable_widths self :
  reachable self →
  no_of_tag_bits self + no_of_ind_bits self + no_of_offset_bits self = 32.
Proof.
  induction 1 as [cs bs a self Ha Hinit | self address hit self' _ IH _ Hc].
  - by apply Cache_init_widths in Hinit as (_ & _ & ?).
  - apply check_same_config in Hc as (_ & _ & _ & _ & E1 & E2 & E3).
    cbn [snd] in *. lia.
Qed.

End cache_level.

(** Without index bits the slice taken by [extract_index] is empty. *)
Lemma check_no_index_bits self address :
  no_of_ind_bits self = 0 →
  extract_index self address = Raise ValueError ∧
  check self address = Raise ValueError.
Proof.
  intros E.
  assert (extract_index self address = Raise ValueError) as H.
  { unfold extract_index. by rewrite E, py_slice_empty_window. }
  split; [done |]. unfold check. by rewrite H.
Qed.

Section raising.

Lemma extract_index_ValueError self address e :
  extract_index self address = Raise e → e = ValueError.
Proof.
  unfold extract_index, int_base2.
  destruct (py_slice _ _ _) as [|c r]; [by intros [= <-] |].
  destruct (bin_value 0 (c :: r)); [done | by intros [= <-]].
Qed.

(** A cache that reads no index raises on every 32-bit address, in the
    first statement of [check]. *)
Lemma check_undecoded self address :
  decodes self = false → bin32 address = true →
  extract_index self address = Raise ValueError ∧
  check self address = Raise ValueError.
Proof.
  unfold decodes. intros Hd Ha.
  destruct (extract_index self address) as [i|e] eqn:E.
  - destruct (extract_index_uniform self address zeros32 i Ha eq_refl E)
      as [i' Hi']. by rewrite Hi' in Hd.
  - apply extract_index_ValueError in E as Ee. subst e.
    split; [done |]. unfold check. by rewrite E.
Qed.

(** Every exception of [check] is raised before the first assignment. *)
Lemma check_raises_early self address e :
  check self address = Raise e →
  extract_index self address = Raise e ∨
  extract_offset self address = Raise e ∨
  ∃ index, extract_index self address = Ok index ∧
           getitem (cache self) index = Raise e.
Proof.
  intros H.
  destruct (extract_index self address) as [index|] eqn:Hi;
    [| left; unfold check in H; rewrite Hi in H; cbn in H; congruence].
  destruct (extract_offset self address) as [offset|] eqn:Ho;
    [| right; left; unfold check in H; rewrite Hi, Ho in H; cbn in H; congruence].
  destruct (getitem (cache self) index) as [blocks|] eqn:Hg.
  - apply getitem_Ok in Hg as (n & Hn & Hb).
    by rewrite (check_eq _ _ _ _ _ _ Hi Ho Hn Hb) in H.
  - right; right. exists index. split; [done |].
    unfold check in H. rewrite Hi, Ho in H. cbn in H. rewrite Hg in H.
    cbn in H. congruence.
Qed.

Lemma after_call_Ok self address r :
  check self address = Ok r → after_call self address = r.2.
Proof. unfold after_call. by intros ->. Qed.

Lemma after_call_Raise self address e :
  check self address = Raise e → after_call self address = self.
Proof. unfold after_call. by intros ->. Qed.

Lemma decodes_no_index_bits self :
  no_of_ind_bits self = 0 → decodes self = false.
Proof.
  intros E. unfold decodes.
  by destruct (check_no_index_bits self zeros32 E) as [-> _].
Qed.

Lemma reachable_decodes self :
  reachable self → 1 ≤ no_of_ind_bits self → 0 ≤ no_of_tag_bits self →
  decodes self = true.
Proof.
  intros Hre Hk Ht. pose proof (reachable_widths _ Hre).
  pose proof (reachable_wf _ Hre) as (_ & _ & Ho & _).
  by apply decodes_of_widths.
Qed.

End raising.

(** ** Properties of the engine *)

(** A fully associative configuration is accepted and has one set. *)
Lemma fully_associative_one_set bs a :
  0 < bs → 0 < a →
  ∃ self, Cache_init (bs * a) bs a = Ok self ∧ sets self = 1.
Proof.
  intros Hbs Ha. unfold Cache_init, floordiv, int_log2.
  destruct (Z.eqb_spec (bs * a) 0) as [E|_]; [nia |]. cbn.
  rewrite Z.div_same by nia. cbn.
  destruct (Z.leb_spec bs 0); [lia |]. cbn. by eexists.
Qed.

(** C10. A cache whose derived number of sets is 1 has no index bits, and
    every call of [check] on it raises [ValueError], whatever the address:
    [extract_index] takes an empty slice of the address and [int('', 2)]
    is an error. By [fully_associative_one_set], the fully associative
    configurations (cache_size = block_size * associativity) are such
    caches. *)
Theorem single_set_check_raises cs bs a self address :
  Cache_init cs bs a = Ok self → sets self = 1 →
  no_of_ind_bits self = 0 ∧
  extract_index self address = Raise ValueError ∧
  check self address = Raise ValueError.
Proof.
  intros (Hd & Hs & Hb & ->)%Cache_init_inv. cbn [sets no_of_ind_bits].
  intros E. rewrite E. split; [done |]. by apply check_no_index_bits.
Qed.

Lemma single_set_check_raises_witness :
  ∃ self, Cache_init 8 4 2 = Ok self ∧ sets self = 1 ∧
    no_of_ind_bits self = 0 ∧
    extract_index self zeros32 = Raise ValueError ∧
    check self zeros32 = Raise ValueError.
Proof.
  eexists. split; [vm_compute; reflexivity |]. split; [reflexivity |].
  apply (single_set_check_raises 8 4 2); [vm_compute |]; reflexivity.
Defined.

(** C3, as stated, fails: [Cache(12, 4, 1)] is built although neither its
    size 12 nor its number of sets 3 is a power of two. *)
Lemma Cache_init_accepts_non_power_of_two :
  is_pow2 12 = false ∧
  ∃ self, Cache_init 12 4 1 = Ok self ∧
          sets self = 3 ∧ is_pow2 (sets self) = false ∧
          no_of_ind_bits self = 1.
Proof.
  split; [done |]. eexists. split; [vm_compute; reflexivity |]. done.
Qed.

(** C3, amended. For positive integers, construction raises exactly when
    associativity exceeds cache_size // block_size, that is when the
    derived number of sets is 0 and [log2] rejects it; every other
    configuration is accepted, power of two or not, with both counters at
    0 and one set of blocks per derived set. The index and offset widths
    are the integer parts of the logarithms of the number of sets and of
    the block size when these are below 2^47; from there on the
    double-precision logarithm of the code may round up to the next
    integer. *)
Theorem Cache_init_raises_iff cs bs a :
  0 < cs → 0 < bs → 0 < a →
  (cs / bs < a → Cache_init cs bs a = Raise ValueError) ∧
  (a ≤ cs / bs →
   ∃ self, Cache_init cs bs a = Ok self ∧
     sets self = cs / (bs * a) ∧ 1 ≤ sets self ∧
     (sets self < 2 ^ 47 → no_of_ind_bits self = Z.log2 (sets self)) ∧
     (bs < 2 ^ 47 → no_of_offset_bits self = Z.log2 bs) ∧
     no_of_tag_bits self = 32 - no_of_ind_bits self - no_of_offset_bits self ∧
     length (cache self) = Z.to_nat (sets self) ∧
     (∀ blocks, blocks ∈ cache self → length blocks = Z.to_nat a) ∧
     hit_count self = 0 ∧ miss_count self = 0).
Proof.
  intros Hcs Hbs Ha.
  assert (cs / (bs * a) = cs / bs / a) as Ediv by (rewrite Z.div_div; lia).
  assert (0 ≤ cs / bs) by (apply Z.div_pos; lia).
  unfold Cache_init, floordiv, int_log2.
  destruct (Z.eqb_spec (bs * a) 0) as [E|_]; [nia |]. cbn. split.
  - intros Hlt. rewrite Ediv, Z.div_small by lia. done.
  - intros Hle.
    assert (1 ≤ cs / bs / a) by (apply Z.div_le_lower_bound; lia).
    destruct (Z.leb_spec (cs / (bs * a)) 0); [lia |]. cbn.
    destruct (Z.leb_spec bs 0); [lia |]. cbn.
    eexists. split; [done |]. cbn. rewrite length_replicate.
    split; [done |]. split; [lia |]. split; [done |]. split; [done |].
    split; [done |]. split; [done |]. split; [| done].
    intros blocks ->%elem_of_replicate_inv. apply length_replicate.
Qed.

Lemma Cache_init_raises_iff_witness :
  0 < 12 ∧ 0 < 4 ∧ 0 < 4 ∧
  (12 / 4 < 4 → Cache_init 12 4 4 = Raise ValueError) ∧
  (4 ≤ 12 / 4 →
   ∃ self, Cache_init 12 4 4 = Ok self ∧
     sets self = 12 / (4 * 4) ∧ 1 ≤ sets self ∧
     (sets self < 2 ^ 47 → no_of_ind_bits self = Z.log2 (sets self)) ∧
     (4 < 2 ^ 47 → no_of_offset_bits self = Z.log2 4) ∧
     no_of_tag_bits self = 32 - no_of_ind_bits self - no_of_offset_bits self ∧
     length (cache self) = Z.to_nat (sets self) ∧
     (∀ blocks, blocks ∈ cache self → length blocks = Z.to_nat 4) ∧
     hit_count self = 0 ∧ miss_count self = 0).
Proof.
  split; [lia |]. split; [lia |]. split; [lia |].
  apply (Cache_init_raises_iff 12 4 4); lia.
Defined.

Section points.
Context (assoc : Z) (Hassoc : 0 < assoc).

Lemma set_inv_bounds s block :
  set_inv assoc s → block ∈ s →
  if valid block then 0 ≤ lru_counter block ≤ assoc - 1
  else lru_counter block < 0.
Proof.
  intros Hinv Hin. pose proof (set_inv_valid_le assoc Hassoc s Hinv).
  destruct Hinv as (_ & _ & Hr). specialize (Hr block Hin).
  destruct (valid block); lia.
Qed.

Lemma fill_invalid_points_spec t s :
  match fill_invalid assoc t s with
  | Some s' =>
      ∃ s1 b s2, s = s1 ++ b :: s2 ∧ s' = s1 ++ place assoc t b :: s2 ∧
        fill_invalid_points assoc t s
        = Some ((λ pb : point * Block, (pb.1, s1 ++ pb.2 :: s2))
                  <$> place_points assoc t b)
  | None => fill_invalid_points assoc t s = None
  end.
Proof.
  induction s as [|b s IH]; cbn; [done |].
  destruct (valid b) eqn:Hb; cbn.
  - destruct (fill_invalid assoc t s) as [r|]; cbn.
    + destruct IH as (s1 & x & s2 & -> & -> & ->).
      by exists (b :: s1), x, s2.
    + by rewrite IH.
  - exists [], b, s. by rewrite Hb.
Qed.

Lemma evict_zero_points_spec t s :
  match evict_zero assoc t s with
  | Some s' =>
      ∃ s1 b s2, s = s1 ++ b :: s2 ∧ s' = s1 ++ place assoc t b :: s2 ∧
        evict_zero_points assoc t s
        = Some ((λ pb : point * Block, (pb.1, s1 ++ pb.2 :: s2))
                  <$> place_points assoc t b)
  | None => evict_zero_points assoc t s = None
  end.
Proof.
  induction s as [|b s IH]; cbn; [done |].
  destruct (lru_counter b =? 0) eqn:Hb; cbn.
  - by exists [], b, s.
  - destruct (evict_zero assoc t s) as [r|]; cbn.
    + destruct IH as (s1 & x & s2 & -> & -> & ->).
      by exists (b :: s1), x, s2.
    + by rewrite IH.
Qed.

(** In a set that satisfies the invariant [evictor] always picks a block,
    and its points are the three assignments to that block. *)
Lemma evictor_points_cases t s :
  set_inv assoc s →
  ∃ s1 b s2,
    s = s1 ++ b :: s2 ∧
    evictor_set assoc t s = s1 ++ place assoc t b :: s2 ∧
    evictor_points assoc t s
    = (λ pb : point * Block, (pb.1, s1 ++ pb.2 :: s2))
        <$> place_points assoc t b.
Proof.
  intros Hinv.
  destruct (evictor_set_cases assoc Hassoc t s Hinv)
    as (s1' & b' & s2' & _ & _ & Hc).
  pose proof (fill_invalid_points_spec t s) as Hf.
  pose proof (evict_zero_points_spec t s) as He.
  unfold evictor_set, evictor_points.
  destruct (fill_invalid assoc t s) as [r|].
  - destruct Hf as (s1 & b & s2 & -> & -> & ->). by exists s1, b, s2.
  - rewrite Hf. destruct (evict_zero assoc t s) as [r|].
    + destruct He as (s1 & b & s2 & -> & -> & ->). by exists s1, b, s2.
    + by destruct Hc as [[_ ?] | (_ & _ & _ & _ & ?)].
Qed.

Lemma elem_of_loop_points label body s p s' block :
  (p, s') ∈ loop_points label body s → block ∈ s' →
  ∃ b, b ∈ s ∧ (block = b ∨ block = body b).
Proof.
  unfold loop_points. intros (k & [= -> ->] & _)%list_elem_of_fmap.
  intros [(b & -> & Hb)%list_elem_of_fmap | Hb]%elem_of_app.
  - exists b. split; [by apply (subseteq_take k s) | by right].
  - exists block. split; [by apply (subseteq_drop k s) | by left].
Qed.

Lemma loop_points_last label body s :
  s ≠ [] →
  ∃ init, loop_points label body s
          = init ++ [(label (length s), body <$> s)].
Proof.
  intros Hs. unfold loop_points.
  destruct (length s) as [|m] eqn:Hlen; [by destruct s |].
  rewrite seq_S, fmap_app. eexists. f_equal. cbn. do 2 f_equal.
  rewrite take_ge, drop_ge by lia. by rewrite app_nil_r.
Qed.

(** The blocks of a set between [evictor] and the miss loop. *)
Lemma placed_bounds t s block :
  set_inv assoc s → List.find (matches t) s = None →
  block ∈ evictor_set assoc t s →
  if valid block then 1 ≤ lru_counter block ≤ assoc
  else lru_counter block < 0.
Proof.
  intros Hinv Hfind Hin.
  pose proof (access_set_inv assoc Hassoc t s Hinv) as Hinv'.
  unfold access_set in Hinv'. rewrite Hfind in Hinv'. cbn [snd] in Hinv'.
  pose proof (set_inv_bounds _ (age block) Hinv') as Haged.
  cbn in Haged.
  destruct (evictor_points_cases t s Hinv) as (s1 & b & s2 & -> & E & _).
  rewrite E in Hin, Haged.
  destruct (valid block) eqn:Hv.
  - assert (age block ∈ age <$> (s1 ++ place assoc t b :: s2)) as H
      by (apply list_elem_of_fmap; by exists block).
    specialize (Haged H). lia.
  - pose proof (set_inv_bounds _ block Hinv) as Hold. rewrite Hv in Hold.
    apply Hold. rewrite elem_of_app, elem_of_cons in Hin |- *.
    destruct Hin as [? | [-> | ?]]; [by left | done | by right; right].
Qed.

Lemma access_points_bounds t s p s' block :
  set_inv assoc s → (p, s') ∈ access_points assoc t s →
  p ≠ ValidAssigned → block ∈ s' →
  if valid block then 0 ≤ lru_counter block ≤ assoc
  else lru_counter block < 0.
Proof.
  intros Hinv Hin Hp Hb. unfold access_points in Hin.
  apply elem_of_cons in Hin as [[= -> ->] | Hin].
  { pose proof (set_inv_bounds _ _ Hinv Hb). destruct (valid block); lia. }
  destruct (List.find (matches t) s) as [b0|] eqn:Hfind.
  - apply find_matches_Some in Hfind as (Hb0 & _ & Hv0).
    pose proof (set_inv_bounds _ _ Hinv Hb0) as H0. rewrite Hv0 in H0.
    destruct (elem_of_loop_points _ _ _ _ _ _ Hin Hb) as (b & Hbs & Hor).
    pose proof (set_inv_bounds _ _ Hinv Hbs) as Hold.
    destruct Hor as [-> | ->]; [destruct (valid b); lia |].
    destruct (promote_fields assoc (lru_counter b0) b) as (_ & -> & _ & ->).
    unfold rank_promote. destruct (valid b); repeat case_match; lia.
  - apply elem_of_app in Hin as [Hin | Hin].
    + destruct (evictor_points_cases t s Hinv) as (s1 & b & s2 & -> & _ & E).
      rewrite E in Hin. clear E.
      assert (b ∈ s1 ++ b :: s2) as Hbs
        by (rewrite elem_of_app, elem_of_cons; auto).
      pose proof (set_inv_bounds _ _ Hinv Hbs) as Hold.
      assert (∀ x, x ∈ s1 ∨ x ∈ s2 →
                if valid x then 0 ≤ lru_counter x ≤ assoc
                else lru_counter x < 0) as Hrest.
      { intros x Hx.
        assert (x ∈ s1 ++ b :: s2) as Hxs
          by (rewrite elem_of_app, elem_of_cons; tauto).
        pose proof (set_inv_bounds _ _ Hinv Hxs). destruct (valid x); lia. }
      cbn in Hin.
      rewrite !elem_of_cons in Hin.
      destruct Hin as [[= -> ->] | [[= -> ->] | [[= -> ->] | []%elem_of_nil]]];
        [| done |];
        rewrite elem_of_app, elem_of_cons in Hb;
        (destruct Hb as [Hx | [-> | Hx]];
         [apply Hrest; by left | cbn | apply Hrest; by right]).
      * destruct (valid b); lia.
      * lia.
    + destruct (elem_of_loop_points _ _ _ _ _ _ Hin Hb) as (b & Hbs & Hor).
      pose proof (placed_bounds t s b Hinv Hfind Hbs) as Hpl.
      destruct Hor as [-> | ->]; cbn; destruct (valid b); lia.
Qed.

Lemma access_points_last t s :
  set_inv assoc s →
  ∃ p, last (access_points assoc t s) = Some (p, (access_set assoc t s).2).
Proof.
  intros Hinv.
  assert (s ≠ []) as Hs.
  { destruct Hinv as (Hl & _). intros ->. cbn in Hl. lia. }
  unfold access_points, access_set.
  destruct (List.find (matches t) s) as [b0|] eqn:Hfind; cbn [snd].
  - destruct (loop_points_last HitLoop (promote assoc (lru_counter b0)) s Hs)
      as [init ->].
    eexists. by rewrite app_comm_cons, last_snoc.
  - assert (evictor_set assoc t s ≠ []) as Hp.
    { destruct (evictor_points_cases t s Hinv) as (s1 & b & s2 & _ & -> & _).
      by destruct s1. }
    destruct (loop_points_last MissLoop age _ Hp) as [init ->].
    eexists. by rewrite app_comm_cons, app_assoc, last_snoc.
Qed.

(** On a miss the block that [evictor] places carries the rank
    [associativity] until the miss loop reaches it. *)
Lemma access_points_placed t s :
  set_inv assoc s → List.find (matches t) s = None →
  ∃ block,
    (RankAssigned, evictor_set assoc t s) ∈ access_points assoc t s ∧
    block ∈ evictor_set assoc t s ∧
    valid block = true ∧ lru_counter block = assoc.
Proof.
  intros Hinv Hfind.
  destruct (evictor_points_cases t s Hinv) as (s1 & b & s2 & -> & E & Ep).
  exists (place assoc t b). split; [| split; [| done]].
  - unfold access_points. rewrite Hfind, Ep, E. cbn.
    do 3 apply list_elem_of_further. apply list_elem_of_here.
  - rewrite E, elem_of_app, elem_of_cons. auto.
Qed.

(** A block that is not valid after an access was not valid before; a miss
    in its set took one from its rank, a hit left it alone. *)
Lemma access_set_invalid t s j block' :
  set_inv assoc s →
  (access_set assoc t s).2 !! j = Some block' → valid block' = false →
  ∃ block,
    s !! j = Some block ∧ valid block = false ∧
    lru_counter block'
    = if (access_set assoc t s).1 then lru_counter block
      else lru_counter block - 1.
Proof.
  intros Hinv. unfold access_set.
  destruct (List.find (matches t) s) as [b0|] eqn:Hfind; cbn [fst snd].
  - apply find_matches_Some in Hfind as (Hb0 & _ & Hv0).
    pose proof (set_inv_bounds _ _ Hinv Hb0) as H0. rewrite Hv0 in H0.
    rewrite list_lookup_fmap.
    destruct (s !! j) as [b|] eqn:Hj; [| done]. cbn. intros [= <-].
    destruct (promote_fields assoc (lru_counter b0) b) as (_ & -> & _ & ->).
    intros Hv. exists b. split; [done |]. split; [done |].
    pose proof (set_inv_bounds _ _ Hinv (list_elem_of_lookup_2 _ _ _ Hj)) as Hb.
    rewrite Hv in Hb. unfold rank_promote. repeat case_match; lia.
  - destruct (evictor_points_cases t s Hinv) as (s1 & b & s2 & -> & -> & _).
    rewrite list_lookup_fmap.
    destruct (decide (j = length s1)) as [-> | Hne].
    + rewrite list_lookup_middle by done. cbn. by intros [= <-].
    + rewrite <- (lookup_middle_ne s1 s2 b _ j Hne).
      destruct ((s1 ++ b :: s2) !! j) as [x|]; [| done]. cbn.
      intros [= <-]. cbn. intros Hv. by exists x.
Qed.

End points.

Lemma check_points_inv self address points :
  check_points self address = Ok points →
  ∃ index offset n blocks,
    extract_index self address = Ok index ∧
    extract_offset self address = Ok offset ∧
    py_index (length (cache self)) index = Ok n ∧
    cache self !! n = Some blocks ∧
    points = access_points (associativity self) (extract_tag self address)
               blocks.
Proof.
  unfold check_points.
  destruct (extract_index self address) as [index|]; [| done].
  destruct (extract_offset self address) as [offset|]; [| done]. cbn.
  destruct (getitem (cache self) index) as [blocks|] eqn:Hg; [| done]. cbn.
  apply getitem_Ok in Hg as (n & Hn & Hb). intros [= <-]. eauto 10.
Qed.




Lemma count_rank0_none (l : list Block) :
  0 ∉ lru_counter <$> l → count_rank0 l = 0%nat.
Proof.
  unfold count_rank0. induction l as [|b l IH]; [done |].
  rewrite fmap_cons, not_elem_of_cons. intros [Hb Hl]. cbn.
  destruct (Z.eqb_spec (lru_counter b) 0); [congruence | auto].
Qed.

Lemma count_rank0_one (l : list Block) :
  NoDup (lru_counter <$> l) → 0 ∈ lru_counter <$> l → count_rank0 l = 1%nat.
Proof.
  unfold count_rank0. induction l as [|b l IH].
  - intros _ H. by apply elem_of_nil in H.
  - rewrite fmap_cons, NoDup_cons, elem_of_cons. intros [Hb Hnd] H0. cbn.
    destruct (Z.eqb_spec (lru_counter b) 0) as [E|E].
    + cbn. f_equal. apply count_rank0_none. by rewrite <- E.
    + destruct H0 as [H0|H0]; [congruence | auto].
Qed.

(** C2. In every reachable state and every set, the ranks of the valid
    blocks are a permutation of the [v] integers that end at
    [associativity - 1], [v] being the number of valid blocks. When all
    blocks are valid the ranks are a permutation of 0 .. associativity-1,
    exactly one block has rank 0, the first loop of [evictor] finds no
    block and the second loop finds one. *)
Theorem valid_ranks_contiguous self blocks :
  reachable self → blocks ∈ cache self →
  valid_ranks blocks ≡ₚ
    seqZ (associativity self - Z.of_nat (length (valid_blocks blocks)))
         (Z.of_nat (length (valid_blocks blocks))) ∧
  (forallb valid blocks = true →
   valid_ranks blocks ≡ₚ seqZ 0 (associativity self) ∧
   count_rank0 blocks = 1%nat ∧
   ∀ t, fill_invalid (associativity self) t blocks = None ∧
        ∃ blocks', evict_zero (associativity self) t blocks = Some blocks').
Proof.
  intros (Ha & _ & _ & _ & Hsets)%reachable_wf Hb.
  specialize (Hsets blocks Hb).
  pose proof (set_inv_Permutation _ _ Hsets) as Hperm.
  split; [done |]. intros Hall.
  pose proof Hsets as (Hlen & Hnd & _).
  rewrite (valid_blocks_all _ Hall), Hlen, Z2Nat.id, Z.sub_diag in Hperm by lia.
  split; [done |]. split.
  - unfold valid_ranks in Hnd, Hperm. rewrite (valid_blocks_all _ Hall) in *.
    apply count_rank0_one; [done |]. rewrite Hperm. apply elem_of_seqZ. lia.
  - intros t.
    destruct (evictor_set_cases _ Ha t blocks Hsets)
      as (s1 & b & s2 & -> & _ & [[Hv Hfill] | (_ & _ & _ & Hfill & Hev)]).
    + rewrite forallb_app in Hall. cbn in Hall.
      apply andb_true_iff in Hall as [_ [? _]%andb_true_iff]. congruence.
    + eauto.
Qed.

Lemma valid_ranks_contiguous_witness :
  Cache_init 16 4 2 = Ok demo ∧
  run demo [zeros32; tagY32] = Ok ([false; false], demo2) ∧
  ∃ blocks,
    cache demo2 !! 0%nat = Some blocks ∧
    forallb valid blocks = true ∧
    valid_ranks blocks = [0; 1] ∧
    valid_ranks blocks ≡ₚ
      seqZ (associativity demo2 - Z.of_nat (length (valid_blocks blocks)))
           (Z.of_nat (length (valid_blocks blocks))) ∧
    (forallb valid blocks = true →
     valid_ranks blocks ≡ₚ seqZ 0 (associativity demo2) ∧
     count_rank0 blocks = 1%nat ∧
     ∀ t, fill_invalid (associativity demo2) t blocks = None ∧
          ∃ blocks', evict_zero (associativity demo2) t blocks = Some blocks').
Proof.
  split; [vm_compute; reflexivity |]. split; [vm_compute; reflexivity |].
  eexists. split; [reflexivity |]. split; [reflexivity |].
  split; [reflexivity |].
  apply (valid_ranks_contiguous demo2).
  - apply (reachable_check demo1 tagY32 false);
      [| reflexivity | vm_compute; reflexivity].
    apply (reachable_check demo zeros32 false);
      [| reflexivity | vm_compute; reflexivity].
    apply (reachable_init 16 4 2); [lia | vm_compute; reflexivity].
  - cbn. apply list_elem_of_here.
Defined.

Lemma after_access_counters self n (r : bool * list Block) :
  if r.1
  then hit_count (after_access self n r).2 = hit_count self + 1 ∧
       miss_count (after_access self n r).2 = miss_count self
  else hit_count (after_access self n r).2 = hit_count self ∧
       miss_count (after_access self n r).2 = miss_count self + 1.
Proof. unfold after_access. cbn. by destruct r.1. Qed.

Lemma check_counters self address hit self' :
  check self address = Ok (hit, self') →
  if hit
  then hit_count self' = hit_count self + 1 ∧ miss_count self' = miss_count self
  else hit_count self' = hit_count self ∧ miss_count self' = miss_count self + 1.
Proof.
  intros (? & ? & n & blocks & _ & _ & _ & _ & E)%check_inv.
  unfold after_access in E. injection E as -> ->.
  apply (after_access_counters self n).
Qed.

Lemma run_counters trace : ∀ self outcomes self',
  run self trace = Ok (outcomes, self') →
  length outcomes = length trace ∧
  hit_count self' + miss_count self'
  = hit_count self + miss_count self + Z.of_nat (length trace) ∧
  hit_count self ≤ hit_count self' ∧ miss_count self ≤ miss_count self'.
Proof.
  induction trace as [|a trace IH]; intros self outcomes self'.
  - cbn. intros [= <- <-]. cbn. lia.
  - intros (hit & self1 & outs & Hc & Hr & E)%run_cons_inv. cbn in Hr, E.
    subst outcomes. apply IH in Hr as (Hl & Hsum & Hh & Hm).
    apply check_counters in Hc. cbn [length]. destruct hit; lia.
Qed.






Lemma elem_of_valid_tags t s :
  t ∈ valid_tags s ↔ ∃ b, b ∈ s ∧ valid b = true ∧ tag b = t.
Proof.
  unfold valid_tags. rewrite list_elem_of_fmap. split.
  - intros (b & -> & [? ?]%elem_of_valid_blocks). by exists b.
  - intros (b & ? & ? & <-). exists b. by rewrite elem_of_valid_blocks.
Qed.




(** ** Traces *)

Section traces.

Lemma same_config_trans c1 c2 c3 :
  same_config c1 c2 → same_config c2 c3 → same_config c1 c3.
Proof. unfold same_config. intros H1 H2. repeat split; lia. Qed.

Lemma same_config_refl c : same_config c c.
Proof. by unfold same_config. Qed.

(** A tag that sits in a set stays there as long as every access goes
    to another set or carries that tag. *)
Lemma holds_tag_check self0 index t c a i :
  0 ≤ index →
  holds_tag self0 (Z.to_nat index) t c →
  bin32 a = true →
  extract_index self0 a = Ok i →
  i ≠ index ∨ extract_tag self0 a = t →
  ∃ hit c', check c a = Ok (hit, c') ∧
            holds_tag self0 (Z.to_nat index) t c' ∧
            (i = index → hit = true).
Proof.
  intros Hindex (Hwf & Hcfg & blocks & Hb & Ht) Ha Hi Hor.
  rewrite <- (same_config_extract_index _ _ _ Hcfg) in Hi.
  rewrite <- (same_config_extract_tag _ _ _ Hcfg) in Hor.
  destruct (check_defined _ _ _ Hwf Ha Hi) as (blocks' & Hb' & Hc).
  pose proof Hi as (_ & _ & Hpos & _)%int_base2_inv.
  set (r := access_set (associativity c) (extract_tag c a) blocks') in *.
  exists r.1, (after_access c (Z.to_nat i) r).2.
  split; [by rewrite Hc |]. split; [split; [| split] |].
  - apply (check_wf _ _ _ Hwf Hc).
  - eapply same_config_trans; [done |]. apply after_access_same_config.
  - rewrite cache_after_access. destruct (decide (i = index)) as [->|Hne].
    + exists r.2. split.
      * apply list_lookup_insert_eq. by eapply lookup_lt_Some.
      * destruct Hor as [? | <-]; [done |]. subst r.
        apply access_set_tag; [apply Hwf |].
        destruct Hwf as (_ & _ & _ & _ & Hsets).
        apply Hsets. by eapply list_elem_of_lookup_2.
    + exists blocks. split; [| done].
      rewrite list_lookup_insert_ne; [done | lia].
  - intros ->. destruct Hor as [? | E]; [done |].
    rewrite Hb in Hb'. injection Hb' as <-.
    subst r. apply access_set_hit. by rewrite E.
Qed.

Lemma holds_tag_run self0 index t trace : ∀ c,
  0 ≤ index →
  holds_tag self0 (Z.to_nat index) t c →
  forallb bin32 trace = true →
  (∀ a, a ∈ trace →
     ∃ i, extract_index self0 a = Ok i ∧
          (i ≠ index ∨ extract_tag self0 a = t)) →
  ∃ outcomes c', run c trace = Ok (outcomes, c') ∧
                 holds_tag self0 (Z.to_nat index) t c'.
Proof.
  induction trace as [|a trace IH]; intros c Hindex Hc.
  - intros _ _. by exists [], c.
  - intros [Ha Ht]%andb_true_iff Hall.
    destruct (Hall a (list_elem_of_here _ _)) as (i & Hi & Hor).
    destruct (holds_tag_check _ _ _ _ _ _ Hindex Hc Ha Hi Hor)
      as (hit & c1 & Hcheck & Hc1 & _).
    destruct (IH c1 Hindex Hc1 Ht) as (outs & c2 & Hrun & Hc2).
    { intros x Hx. apply Hall. by apply list_elem_of_further. }
    exists (hit :: outs), c2. split; [| done].
    cbn. rewrite Hcheck. cbn. rewrite Hrun. done.
Qed.

End traces.




(** ** Accesses that stay in one set *)

Section one_set.

Lemma run_in_set self0 index trace : ∀ c blocks,
  wf c → same_config self0 c →
  forallb bin32 trace = true →
  (∀ a, a ∈ trace → extract_index self0 a = Ok index) →
  cache c !! Z.to_nat index = Some blocks →
  ∃ c',
    run c trace
    = Ok ((run_set (associativity self0) (extract_tag self0 <$> trace)
             blocks).1, c') ∧
    cache c' !! Z.to_nat index
    = Some (run_set (associativity self0) (extract_tag self0 <$> trace)
              blocks).2 ∧
    wf c' ∧ same_config self0 c'.
Proof.
  induction trace as [|a trace IH]; intros c blocks Hwf Hcfg.
  - intros _ _ Hb. exists c. done.
  - intros [Ha Ht]%andb_true_iff Hall Hb.
    pose proof (Hall a (list_elem_of_here _ _)) as Hi.
    rewrite <- (same_config_extract_index _ _ _ Hcfg) in Hi.
    destruct (check_defined _ _ _ Hwf Ha Hi) as (blocks' & Hb' & Hc).
    rewrite Hb in Hb'. injection Hb' as <-.
    rewrite (same_config_extract_tag _ _ _ Hcfg) in Hc.
    assert (associativity c = associativity self0) as Ea by apply Hcfg.
    rewrite Ea in Hc.
    set (r := access_set (associativity self0) (extract_tag self0 a) blocks)
      in *.
    destruct (IH (after_access c (Z.to_nat index) r).2 r.2)
      as (c' & Hrun & Hb' & Hwf' & Hcfg'); [| | done | | |].
    + apply (check_wf _ _ _ Hwf Hc).
    + eapply same_config_trans; [done |]. apply after_access_same_config.
    + intros x Hx. apply Hall. by apply list_elem_of_further.
    + rewrite cache_after_access. apply list_lookup_insert_eq.
      by eapply lookup_lt_Some.
    + exists c'. split; [| done].
      by rewrite (run_cons _ _ _ _ Hc), Hrun.
Qed.

Lemma matches_invalid t b : valid b = false → matches t b = false.
Proof. intros H. unfold matches. rewrite H. apply andb_false_r. Qed.

Lemma matches_other t b : tag b ≠ t → matches t b = false.
Proof.
  intros H. unfold matches, str_eqb. by rewrite bool_decide_eq_false_2.
Qed.

Lemma matches_same t b : tag b = t → valid b = true → matches t b = true.
Proof. intros. by apply matches_true. Qed.

Ltac access_set_by_cases :=
  unfold access_set; cbn [List.find];
  repeat first
    [ rewrite matches_invalid by done
    | rewrite matches_other by (cbn; done)
    | rewrite matches_same by done ];
  reflexivity.

(** The scenario X, Y, X, Z on an empty two-way set, access by access. *)
Lemma access_set_XYXZ (X Y Z t0 d : str) :
  X ≠ Y → Y ≠ Z → X ≠ Z →
  access_set 2 X [mkBlock t0 false d (-1); mkBlock t0 false d (-1)]
  = (false, [mkBlock X true d 1; mkBlock t0 false d (-2)]) ∧
  access_set 2 Y [mkBlock X true d 1; mkBlock t0 false d (-2)]
  = (false, [mkBlock X true d 0; mkBlock Y true d 1]) ∧
  access_set 2 X [mkBlock X true d 0; mkBlock Y true d 1]
  = (true, [mkBlock X true d 1; mkBlock Y true d 0]) ∧
  access_set 2 Z [mkBlock X true d 1; mkBlock Y true d 0]
  = (false, [mkBlock X true d 0; mkBlock Z true d 1]).
Proof.
  intros HXY HYZ HXZ. repeat split; access_set_by_cases.
Qed.

Lemma run_set_XYXZ (X Y Z t0 d : str) :
  X ≠ Y → Y ≠ Z → X ≠ Z →
  run_set 2 [X; Y; X] [mkBlock t0 false d (-1); mkBlock t0 false d (-1)]
  = ([false; false; true], [mkBlock X true d 1; mkBlock Y true d 0]) ∧
  run_set 2 [Z] [mkBlock X true d 1; mkBlock Y true d 0]
  = ([false], [mkBlock X true d 0; mkBlock Z true d 1]).
Proof.
  intros HXY HYZ HXZ.
  destruct (access_set_XYXZ X Y Z t0 d HXY HYZ HXZ) as (E1 & E2 & E3 & E4).
  cbn [run_set]. rewrite E1. cbn [fst snd]. rewrite E2. cbn [fst snd].
  by rewrite E3, E4.
Qed.

End one_set.

(** C6. On a cache just built with associativity 2, take four 32-bit
    addresses mapped to the same set, with tags X, Y, X, Z, pairwise
    distinct. The first three accesses are miss, miss, hit and leave X and
    Y valid in the set; the fourth misses, finds no free block, evicts the
    block that holds Y (the one of rank 0) and leaves X and Z valid. *)
Theorem lru_evicts_least_recent cs bs self a1 a2 a3 a4 index :
  Cache_init cs bs 2 = Ok self →
  forallb bin32 [a1; a2; a3; a4] = true →
  (∀ a, a ∈ [a1; a2; a3; a4] → extract_index self a = Ok index) →
  extract_tag self a3 = extract_tag self a1 →
  extract_tag self a1 ≠ extract_tag self a2 →
  extract_tag self a2 ≠ extract_tag self a4 →
  extract_tag self a1 ≠ extract_tag self a4 →
  ∃ self3 self4 blocks3 blocks4 blockX blockY,
    run self [a1; a2; a3] = Ok ([false; false; true], self3) ∧
    cache self3 !! Z.to_nat index = Some blocks3 ∧
    blocks3 = [blockX; blockY] ∧
    valid_tags blocks3 = [extract_tag self a1; extract_tag self a2] ∧
    fill_invalid 2 (extract_tag self a4) blocks3 = None ∧
    evict_zero 2 (extract_tag self a4) blocks3
    = Some [blockX; place 2 (extract_tag self a4) blockY] ∧
    check self3 a4 = Ok (false, self4) ∧
    cache self4 !! Z.to_nat index = Some blocks4 ∧
    valid_tags blocks4 = [extract_tag self a1; extract_tag self a4].
Proof.
  intros Hinit Hbin Hidx E3 HXY HYZ HXZ.
  assert (wf self) as Hwf by (eapply Cache_init_wf; [| done]; lia).
  assert (associativity self = 2) as Ea
    by by apply Cache_init_inv in Hinit as (_ & _ & _ & ->).
  set (X := extract_tag self a1) in *. set (Y := extract_tag self a2) in *.
  set (Z := extract_tag self a4) in *.
  set (t0 := str_mul "0" (no_of_tag_bits self)).
  set (d := str_mul "0" 32).
  assert (extract_index self a4 = Ok index) as Hi4.
  { apply Hidx. rewrite !elem_of_cons. auto. }
  assert (cache self !! Z.to_nat index
          = Some [mkBlock t0 false d (-1); mkBlock t0 false d (-1)]) as Hb0.
  { destruct (wf_index _ _ _ Hwf Hi4) as [_ [blocks Hb]]. rewrite Hb.
    apply Cache_init_inv in Hinit as (_ & _ & _ & ->). cbn [cache] in Hb.
    by apply lookup_replicate_1 in Hb as [-> _]. }
  apply andb_true_iff in Hbin as [Hb1 Hbin].
  apply andb_true_iff in Hbin as [Hb2 Hbin].
  apply andb_true_iff in Hbin as [Hb3 Hbin].
  apply andb_true_iff in Hbin as [Hb4 _].
  destruct (run_set_XYXZ X Y Z t0 d HXY HYZ HXZ) as [R3 _].
  destruct (access_set_XYXZ X Y Z t0 d HXY HYZ HXZ) as (_ & _ & _ & A4).
  destruct (run_in_set self index [a1; a2; a3] self
              [mkBlock t0 false d (-1); mkBlock t0 false d (-1)]
              Hwf (same_config_refl _))
    as (self3 & Hrun & Hl3 & Hwf3 & Hcfg3); [| | exact Hb0 |].
  { cbn. by rewrite Hb1, Hb2, Hb3. }
  { intros a Ha. apply Hidx. rewrite !elem_of_cons in *. tauto. }
  cbn [fmap list_fmap] in Hrun, Hl3. fold X Y in Hrun, Hl3.
  rewrite E3, Ea, R3 in Hrun, Hl3. cbn [fst snd] in Hrun, Hl3.
  rewrite <- (same_config_extract_index _ _ _ Hcfg3) in Hi4.
  destruct (check_defined _ _ _ Hwf3 Hb4 Hi4) as (blocks3 & Hl3' & Hc4).
  rewrite Hl3 in Hl3'. injection Hl3' as <-.
  rewrite (same_config_extract_tag _ _ _ Hcfg3) in Hc4. fold Z in Hc4.
  assert (associativity self3 = 2) as Ea3 by (destruct Hcfg3; lia).
  rewrite Ea3, A4 in Hc4.
  eexists self3, _, _, [mkBlock X true d 0; mkBlock Z true d 1], _, _.
  split; [exact Hrun |].
  split; [exact Hl3 |]. split; [reflexivity |]. split; [reflexivity |].
  split; [reflexivity |]. split; [reflexivity |].
  split; [exact Hc4 |]. split; [| reflexivity].
  cbn [after_access cache with_cache fst snd].
  apply list_lookup_insert_eq. by eapply lookup_lt_Some.
Qed.

Lemma lru_evicts_least_recent_witness :
  Cache_init 16 4 2 = Ok demo ∧
  forallb bin32 [zeros32; tagY32; zeros32; tagZ32] = true ∧
  (∀ a, a ∈ [zeros32; tagY32; zeros32; tagZ32] → extract_index demo a = Ok 0) ∧
  extract_tag demo zeros32 = extract_tag demo zeros32 ∧
  extract_tag demo zeros32 ≠ extract_tag demo tagY32 ∧
  extract_tag demo tagY32 ≠ extract_tag demo tagZ32 ∧
  extract_tag demo zeros32 ≠ extract_tag demo tagZ32 ∧
  ∃ self3 self4 blocks3 blocks4 blockX blockY,
    run demo [zeros32; tagY32; zeros32] = Ok ([false; false; true], self3) ∧
    cache self3 !! Z.to_nat 0 = Some blocks3 ∧
    blocks3 = [blockX; blockY] ∧
    valid_tags blocks3 = [extract_tag demo zeros32; extract_tag demo tagY32] ∧
    fill_invalid 2 (extract_tag demo tagZ32) blocks3 = None ∧
    evict_zero 2 (extract_tag demo tagZ32) blocks3
    = Some [blockX; place 2 (extract_tag demo tagZ32) blockY] ∧
    check self3 tagZ32 = Ok (false, self4) ∧
    cache self4 !! Z.to_nat 0 = Some blocks4 ∧
    valid_tags blocks4 = [extract_tag demo zeros32; extract_tag demo tagZ32].
Proof.
  assert (∀ a, a ∈ [zeros32; tagY32; zeros32; tagZ32] →
            extract_index demo a = Ok 0) as Hidx.
  { intros a Ha. rewrite !elem_of_cons, elem_of_nil in Ha.
    destruct Ha as [-> | [-> | [-> | [-> | []]]]]; vm_compute; reflexivity. }
  assert (extract_tag demo zeros32 ≠ extract_tag demo tagY32) as HXY
    by (vm_compute; discriminate).
  assert (extract_tag demo tagY32 ≠ extract_tag demo tagZ32) as HYZ
    by (vm_compute; discriminate).
  assert (extract_tag demo zeros32 ≠ extract_tag demo tagZ32) as HXZ
    by (vm_compute; discriminate).
  split; [vm_compute; reflexivity |]. split; [reflexivity |].
  split; [exact Hidx |]. split; [reflexivity |].
  split; [exact HXY |]. split; [exact HYZ |]. split; [exact HXZ |].
  apply (lru_evicts_least_recent 16 4 demo zeros32 tagY32 zeros32 tagZ32 0);
    [vm_compute; reflexivity | reflexivity | exact Hidx | reflexivity
    | exact HXY | exact HYZ | exact HXZ].
Defined.

(** ** Filling a set that is not full *)

Section filling.

Lemma length_remove_dups_app_le (l k : list str) :
  (length (remove_dups l) ≤ length (remove_dups (l ++ k)))%nat.
Proof.
  apply submseteq_length, NoDup_submseteq; [apply NoDup_remove_dups |].
  intros x. rewrite !elem_of_remove_dups, elem_of_app. auto.
Qed.

Lemma remove_dups_snoc_in (l : list str) t :
  t ∈ l → remove_dups (l ++ [t]) ≡ₚ remove_dups l.
Proof.
  intros Ht. apply NoDup_Permutation; [apply NoDup_remove_dups.. |].
  intros x. rewrite !elem_of_remove_dups, elem_of_app, list_elem_of_singleton.
  split; [intros [? | ->]; done | auto].
Qed.

Lemma remove_dups_snoc_notin (l : list str) t :
  t ∉ l → remove_dups (l ++ [t]) ≡ₚ t :: remove_dups l.
Proof.
  intros Ht. apply NoDup_Permutation; [apply NoDup_remove_dups | |].
  - apply NoDup_cons. rewrite elem_of_remove_dups.
    split; [done | apply NoDup_remove_dups].
  - intros x.
    rewrite elem_of_cons, !elem_of_remove_dups, elem_of_app,
      list_elem_of_singleton. tauto.
Qed.

Lemma tags_of_snoc self index h a :
  tags_of self index (h ++ [a])
  = tags_of self index h
    ++ (if targets self index a then [extract_tag self a] else []).
Proof.
  unfold tags_of. rewrite List.filter_app, fmap_app. cbn.
  by destruct (targets self index a).
Qed.

(** A miss in a set with a free block goes through the first loop of
    [evictor]. *)
Lemma access_set_miss_fill assoc t s :
  0 < assoc → set_inv assoc s →
  (length (valid_blocks s) < length s)%nat →
  t ∉ valid_tags s →
  ∃ s1 b s2,
    s = s1 ++ b :: s2 ∧ valid b = false ∧
    fill_invalid assoc t s = Some (s1 ++ place assoc t b :: s2) ∧
    access_set assoc t s = (false, age <$> (s1 ++ place assoc t b :: s2)).
Proof.
  intros Ha Hinv Hlt Ht. unfold access_set.
  apply find_matches_None in Ht. rewrite Ht.
  destruct (evictor_set_cases assoc Ha t s Hinv)
    as (s1 & b & s2 & E & Hev & [[Hb Hfill] | (_ & _ & Hall & _)]).
  - exists s1, b, s2. by rewrite Hev.
  - rewrite (valid_blocks_all _ Hall) in Hlt. lia.
Qed.

Lemma valid_tags_middle_invalid s1 b s2 :
  valid b = false → valid_tags (s1 ++ b :: s2) = valid_tags s1 ++ valid_tags s2.
Proof.
  intros Hb. unfold valid_tags. rewrite valid_blocks_app, fmap_app.
  unfold valid_blocks at 2. cbn [List.filter]. by rewrite Hb.
Qed.

Lemma length_valid_tags s : length (valid_tags s) = length (valid_blocks s).
Proof. unfold valid_tags. apply length_fmap. Qed.

End filling.

Section received.

Lemma received_inv_check self0 index h c a hit c' :
  0 ≤ index →
  received_inv self0 index h c →
  check c a = Ok (hit, c') →
  received_inv self0 index (h ++ [a]) c'.
Proof.
  intros Hindex (Hwf & Hcfg & Hrec) Hc.
  split; [apply (check_wf _ _ _ Hwf Hc) |]. split.
  { eapply same_config_trans; [done |]. apply (check_same_config _ _ _ Hc). }
  pose proof Hc as (i & o & n & blocks0 & Hi & _ & Hn & Hb0 & E)%check_inv.
  pose proof Hi as (_ & _ & Hpos & _)%int_base2_inv.
  apply py_index_nonneg_inv in Hn as [-> Hlt]; [| lia].
  unfold after_access in E. injection E as -> ->. cbn [cache with_cache].
  assert (associativity c = associativity self0) as Ea by apply Hcfg.
  pose proof Hwf as (Hassoc & _ & _ & _ & Hsets).
  pose proof (Hsets _ (list_elem_of_lookup_2 _ _ _ Hb0)) as Hinv.
  unfold tags_received in *. rewrite tags_of_snoc.
  unfold targets. rewrite <- (same_config_extract_index _ _ _ Hcfg), Hi.
  rewrite <- (same_config_extract_tag _ _ _ Hcfg).
  set (t := extract_tag c a) in *. set (L := tags_of self0 index h) in *.
  intros blocks' Hb' Hlen.
  destruct (Z.eqb_spec i index) as [-> | Hne].
  - rewrite list_lookup_insert_eq in Hb' by lia. injection Hb' as <-.
    pose proof (length_remove_dups_app_le L [t]) as Hmono.
    specialize (Hrec _ Hb0 ltac:(lia)).
    destruct (decide (t ∈ valid_tags blocks0)) as [Hin | Hnotin].
    + rewrite access_set_hit_tags by by apply access_set_hit.
      rewrite Hrec. symmetry. apply remove_dups_snoc_in.
      by rewrite <- (elem_of_remove_dups L), <- Hrec.
    + assert (t ∉ L) as HtL
        by by rewrite <- (elem_of_remove_dups L), <- Hrec.
      pose proof (remove_dups_snoc_notin L t HtL) as Hsnoc.
      rewrite Hsnoc in Hlen |- *. cbn [length] in Hlen.
      destruct (access_set_miss_fill (associativity c) t blocks0)
        as (s1 & b & s2 & -> & Hb & _ & ->); [done | done | | done |].
      * destruct Hinv as (Hl & _). rewrite Hl.
        rewrite <- length_valid_tags, Hrec. lia.
      * cbn [snd]. rewrite valid_tags_age, valid_tags_place.
        rewrite valid_tags_middle_invalid in Hrec by done.
        rewrite <- Hrec. symmetry. apply Permutation_middle.
  - rewrite list_lookup_insert_ne in Hb' by lia.
    rewrite app_nil_r in Hlen |- *. auto.
Qed.

Lemma received_inv_run self0 index trace : ∀ h c outcomes c',
  0 ≤ index →
  received_inv self0 index h c →
  run c trace = Ok (outcomes, c') →
  received_inv self0 index (h ++ trace) c'.
Proof.
  induction trace as [|a trace IH]; intros h c outcomes c' Hindex Hrec.
  - cbn. intros [= <- <-]. by rewrite app_nil_r.
  - intros (hit & c1 & outs & Hc & Hr & _)%run_cons_inv. cbn [snd] in Hr.
    rewrite cons_middle, app_assoc.
    apply (IH _ c1 outs c' Hindex); [| done].
    by eapply received_inv_check.
Qed.

Lemma received_inv_init cs bs a self0 index :
  0 < a → Cache_init cs bs a = Ok self0 →
  received_inv self0 index [] self0.
Proof.
  intros Ha Hinit. split; [by eapply Cache_init_wf |].
  split; [apply same_config_refl |].
  apply Cache_init_inv in Hinit as (_ & _ & _ & ->). cbn [cache].
  intros blocks [-> _]%lookup_replicate_1 _.
  unfold valid_tags. by rewrite valid_blocks_replicate.
Qed.

End received.

(** C5. Let a cache be built and run over a trace, and let an access of a
    32-bit address then land in a set that has received fewer distinct
    tags than it has blocks. The set holds as many valid blocks as it has
    received distinct tags; the access returns; every block that was
    valid keeps its slot, its validity and its tag; and on a miss the
    first loop of [evictor] finds a block that was not valid and gives it
    the tag, so the eviction loop is not reached. *)
Theorem no_eviction_before_full cs bs a self0 trace outcomes self address index :
  0 < a → Cache_init cs bs a = Ok self0 →
  forallb bin32 trace = true →
  run self0 trace = Ok (outcomes, self) →
  bin32 address = true →
  extract_index self address = Ok index →
  Z.of_nat (length (tags_received self0 index trace)) < a →
  ∃ blocks hit self' blocks',
    cache self !! Z.to_nat index = Some blocks ∧
    length (valid_blocks blocks) = length (tags_received self0 index trace) ∧
    check self address = Ok (hit, self') ∧
    cache self' !! Z.to_nat index = Some blocks' ∧
    (∀ j block,
       blocks !! j = Some block → valid block = true →
       ∃ block', blocks' !! j = Some block' ∧
                 valid block' = true ∧ tag block' = tag block) ∧
    (hit = false →
     (∃ filled,
        fill_invalid a (extract_tag self address) blocks = Some filled) ∧
     ∃ j block block',
       blocks !! j = Some block ∧ valid block = false ∧
       blocks' !! j = Some block' ∧ valid block' = true ∧
       tag block' = extract_tag self address).
Proof.
  intros Ha Hinit _ Hrun Hbin Hi Hlen.
  pose proof Hi as (_ & _ & Hpos & _)%int_base2_inv.
  destruct (received_inv_run self0 index trace [] self0 outcomes self)
    as (Hwf & Hcfg & Hrec); [lia | by eapply received_inv_init | done |].
  cbn [app] in Hrec.
  assert (associativity self0 = a) as Ea0
    by by apply Cache_init_inv in Hinit as (_ & _ & _ & ->).
  assert (associativity self = a) as Ea by (destruct Hcfg; lia).
  destruct (check_defined _ _ _ Hwf Hbin Hi) as (blocks & Hb & Hc).
  specialize (Hrec _ Hb ltac:(lia)).
  pose proof Hwf as (_ & _ & _ & _ & Hsets).
  pose proof (Hsets _ (list_elem_of_lookup_2 _ _ _ Hb)) as Hinv.
  rewrite Ea in Hc, Hinv.
  set (t := extract_tag self address) in *.
  exists blocks, (access_set a t blocks).1,
    (after_access self (Z.to_nat index) (access_set a t blocks)).2,
    (access_set a t blocks).2.
  split; [done |].
  split; [by rewrite <- length_valid_tags, Hrec |].
  split; [done |].
  split.
  { rewrite cache_after_access. apply list_lookup_insert_eq.
    by eapply lookup_lt_Some. }
  destruct (decide (t ∈ valid_tags blocks)) as [Hin | Hnotin].
  - pose proof Hin as Hhit%(access_set_hit a). rewrite Hhit.
    split; [| done]. intros j block Hj Hv.
    unfold access_set.
    apply find_matches_is_Some in Hin as [b0 ->]. cbn [snd].
    exists (promote a (lru_counter b0) block).
    rewrite list_lookup_fmap, Hj.
    destruct (promote_fields a (lru_counter b0) block) as (-> & -> & _).
    done.
  - destruct (access_set_miss_fill a t blocks)
      as (s1 & b & s2 & -> & Hbv & Hfill & ->); [done | done | | done |].
    { destruct Hinv as (Hl & _). rewrite Hl.
      rewrite <- length_valid_tags, Hrec. lia. }
    cbn [fst snd]. split.
    + intros j block Hj Hv.
      assert (j ≠ length s1) as Hne.
      { intros ->. rewrite list_lookup_middle in Hj by done.
        injection Hj as <-. congruence. }
      exists (age block).
      rewrite list_lookup_fmap,
        <- (lookup_middle_ne s1 s2 b (place a t b) j Hne), Hj.
      done.
    + intros _. split; [by eexists |].
      exists (length s1), b, (age (place a t b)).
      rewrite list_lookup_fmap, !list_lookup_middle by done. done.
Qed.

Lemma no_eviction_before_full_witness :
  0 < 2 ∧ Cache_init 16 4 2 = Ok demo ∧
  forallb bin32 [zeros32] = true ∧
  run demo [zeros32] = Ok ([false], demo1) ∧
  bin32 tagY32 = true ∧
  extract_index demo1 tagY32 = Ok 0 ∧
  Z.of_nat (length (tags_received demo 0 [zeros32])) < 2 ∧
  ∃ blocks hit self' blocks',
    cache demo1 !! Z.to_nat 0 = Some blocks ∧
    length (valid_blocks blocks) = length (tags_received demo 0 [zeros32]) ∧
    check demo1 tagY32 = Ok (hit, self') ∧
    cache self' !! Z.to_nat 0 = Some blocks' ∧
    (∀ j block,
       blocks !! j = Some block → valid block = true →
       ∃ block', blocks' !! j = Some block' ∧
                 valid block' = true ∧ tag block' = tag block) ∧
    (hit = false →
     (∃ filled,
        fill_invalid 2 (extract_tag demo1 tagY32) blocks = Some filled) ∧
     ∃ j block block',
       blocks !! j = Some block ∧ valid block = false ∧
       blocks' !! j = Some block' ∧ valid block' = true ∧
       tag block' = extract_tag demo1 tagY32).
Proof.
  split; [lia |]. split; [vm_compute; reflexivity |].
  split; [reflexivity |]. split; [vm_compute; reflexivity |].
  split; [reflexivity |]. split; [vm_compute; reflexivity |].
  split; [vm_compute; reflexivity |].
  apply (no_eviction_before_full 16 4 2 demo [zeros32] [false] demo1 tagY32 0);
    [lia | vm_compute; reflexivity | reflexivity | vm_compute; reflexivity
    | reflexivity | vm_compute; reflexivity | vm_compute; reflexivity].
Defined.


(** ** The rank scheme against an ideal LRU stack *)

Section ideal_lru.
Context (assoc : Z) (Hassoc : 0 < assoc).

Lemma fmap_NoDup_inj {A B} (f : A → B) (l : list A) x y :
  NoDup (f <$> l) → x ∈ l → y ∈ l → f x = f y → x = y.
Proof.
  induction l as [|z l IH]; [by intros _ ?%elem_of_nil |].
  rewrite fmap_cons, NoDup_cons, !elem_of_cons.
  intros [Hz Hnd] [-> | Hx] [-> | Hy] E; [done | | | by apply IH].
  - destruct Hz. rewrite E. by apply list_elem_of_fmap_2.
  - destruct Hz. rewrite <- E. by apply list_elem_of_fmap_2.
Qed.

Lemma valid_rank_inj s b b' :
  set_inv assoc s → b ∈ s → b' ∈ s → valid b = true → valid b' = true →
  lru_counter b = lru_counter b' → b = b'.
Proof.
  intros (_ & Hnd & _) Hb Hb' Hv Hv' E.
  apply (fmap_NoDup_inj lru_counter (valid_blocks s)); [done | | | done];
    by apply elem_of_valid_blocks.
Qed.

(** The stack position of a valid block *)
Lemma ranked_lookup s stack b :
  set_inv assoc s → ranked assoc s stack → b ∈ s → valid b = true →
  0 ≤ assoc - 1 - lru_counter b ∧
  stack !! Z.to_nat (assoc - 1 - lru_counter b) = Some (tag b).
Proof.
  intros Hinv (_ & Hlen & Hr) Hb Hv.
  pose proof Hinv as (_ & _ & Hrange). specialize (Hrange b Hb).
  rewrite Hv in Hrange. split; [lia |].
  destruct (lookup_lt_is_Some_2 stack (Z.to_nat (assoc - 1 - lru_counter b)))
    as [t Ht]; [lia |].
  destruct (Hr _ _ Ht) as (b' & Hb' & Hv' & <- & Hrank).
  rewrite Ht. do 2 f_equal. symmetry.
  apply (valid_rank_inj s); try done. lia.
Qed.

Lemma ranked_elem_of s stack t :
  set_inv assoc s → ranked assoc s stack → t ∈ stack ↔ t ∈ valid_tags s.
Proof.
  intros Hinv Hr. rewrite elem_of_valid_tags. split.
  - intros (k & Hk)%list_elem_of_lookup.
    destruct Hr as (_ & _ & Hr).
    destruct (Hr _ _ Hk) as (b & ? & ? & ? & _). by exists b.
  - intros (b & Hb & Hv & <-).
    destruct (ranked_lookup s stack b Hinv Hr Hb Hv) as [_ Hl].
    by eapply list_elem_of_lookup_2.
Qed.

Lemma str_eqb_ne (x t : str) : x ≠ t → str_eqb x t = false.
Proof. intros. unfold str_eqb. by rewrite bool_decide_eq_false_2. Qed.

Lemma str_eqb_refl (t : str) : str_eqb t t = true.
Proof. unfold str_eqb. by rewrite bool_decide_eq_true_2. Qed.

Lemma remove_tag_cons_ne t x l :
  x ≠ t → remove_tag t (x :: l) = x :: remove_tag t l.
Proof. intros H. unfold remove_tag. cbn [List.filter]. by rewrite str_eqb_ne. Qed.

Lemma remove_tag_cons_eq t l : remove_tag t (t :: l) = remove_tag t l.
Proof. unfold remove_tag. cbn [List.filter]. by rewrite str_eqb_refl. Qed.

Lemma remove_tag_notin t l : t ∉ l → remove_tag t l = l.
Proof.
  induction l as [|x l IH]; [done |].
  rewrite not_elem_of_cons. intros [Hx Hl].
  rewrite remove_tag_cons_ne by done. by rewrite IH.
Qed.

Lemma remove_tag_middle t s1 s2 :
  NoDup (s1 ++ t :: s2) → remove_tag t (s1 ++ t :: s2) = s1 ++ s2.
Proof.
  intros (_ & H1 & [H2 _]%NoDup_cons)%NoDup_app.
  assert (t ∉ s1) as Hs1.
  { intros Hin. apply (H1 t Hin). apply list_elem_of_here. }
  clear H1. induction s1 as [|x s1 IH]; cbn [app].
  - rewrite remove_tag_cons_eq. by apply remove_tag_notin.
  - apply not_elem_of_cons in Hs1 as [Hx Hs1].
    rewrite remove_tag_cons_ne by done. by rewrite IH.
Qed.

End ideal_lru.

Section ideal_lru_step.
Context (assoc : Z) (Hassoc : 0 < assoc).

Lemma ranked_hit s stack b0 :
  set_inv assoc s → ranked assoc s stack → b0 ∈ s → valid b0 = true →
  ranked assoc (promote assoc (lru_counter b0) <$> s)
    (tag b0 :: remove_tag (tag b0) stack).
Proof.
  intros Hinv Hrk Hb0 Hv0.
  destruct (ranked_lookup assoc s stack b0 Hinv Hrk Hb0 Hv0) as [Hk0 Hl0].
  destruct Hrk as (Hnd & Hlen & Hr).
  remember (lru_counter b0) as cur eqn:Ecur.
  remember (Z.to_nat (assoc - 1 - cur)) as k0 eqn:Ek0.
  pose proof (lookup_lt_Some _ _ _ Hl0) as Hk0lt.
  pose proof (take_drop_middle _ _ _ Hl0) as Hsplit.
  assert (length (take k0 stack) = k0) as Hl1 by (apply length_take_le; lia).
  assert (remove_tag (tag b0) stack = take k0 stack ++ drop (S k0) stack)
    as Hrem.
  { rewrite <- Hsplit at 1. apply remove_tag_middle. by rewrite Hsplit. }
  rewrite Hrem. split; [| split].
  - rewrite Permutation_middle. by rewrite Hsplit.
  - rewrite valid_blocks_promote, length_fmap, <- Hlen.
    rewrite <- Hsplit at 3. cbn [length]. rewrite !length_app. cbn [length].
    lia.
  - intros [|j] t' Hk.
    + injection Hk as <-. exists (promote assoc cur b0).
      split; [by apply list_elem_of_fmap_2 |].
      destruct (promote_fields assoc cur b0) as (-> & -> & _ & ->).
      split; [done |]. split; [done |]. unfold rank_promote.
      rewrite <- Ecur. destruct (Z.gtb_spec cur cur); [lia |].
      rewrite Z.eqb_refl. lia.
    + cbn [lookup list_lookup] in Hk.
      change ((take k0 stack ++ drop (S k0) stack) !! j = Some t') in Hk.
      assert (∃ j', stack !! j' = Some t' ∧
                    ((j < k0)%nat ∧ j' = j ∨ (k0 ≤ j)%nat ∧ j' = S j))
        as (j' & Hold & Hj').
      { destruct (decide (j < k0)%nat) as [Hlt | Hge].
        - exists j. split; [| left; done].
          rewrite lookup_app_l in Hk by lia.
          by apply lookup_take_Some in Hk as [? _].
        - exists (S j). split; [| right; split; [lia | done]].
          rewrite lookup_app_r in Hk by lia.
          rewrite lookup_drop, Hl1 in Hk. rewrite <- Hk. f_equal. lia. }
      destruct (Hr _ _ Hold) as (b & Hb & Hv & <- & Hrank).
      exists (promote assoc cur b).
      split; [by apply list_elem_of_fmap_2 |].
      destruct (promote_fields assoc cur b) as (-> & -> & _ & ->).
      split; [done |]. split; [done |]. unfold rank_promote.
      destruct (Z.gtb_spec (lru_counter b) cur),
        (Z.eqb_spec (lru_counter b) cur); lia.
Qed.

Lemma ranked_miss s1 b s2 stack t :
  set_inv assoc (s1 ++ b :: s2) → ranked assoc (s1 ++ b :: s2) stack →
  t ∉ stack →
  valid b = false ∨
    (valid b = true ∧ lru_counter b = 0 ∧
     forallb valid (s1 ++ b :: s2) = true) →
  ranked assoc (age <$> (s1 ++ place assoc t b :: s2))
    (t :: take (Z.to_nat (assoc - 1)) stack).
Proof.
  intros Hinv (Hnd & Hlen & Hr) Ht Hcase.
  pose proof Hinv as (Hl & _).
  assert (length (valid_blocks (s1 ++ b :: s2))
          = (length (valid_blocks s1) + (if valid b then 1 else 0)
             + length (valid_blocks s2))%nat) as Hvb.
  { rewrite valid_blocks_app, length_app. unfold valid_blocks at 2.
    cbn [List.filter]. destruct (valid b); cbn [length]; fold (valid_blocks s2);
      lia. }
  assert (length (valid_blocks (age <$> (s1 ++ place assoc t b :: s2)))
          = (length (valid_blocks s1) + 1 + length (valid_blocks s2))%nat)
    as Hvb'.
  { rewrite valid_blocks_age, length_fmap, valid_blocks_app, length_app.
    unfold valid_blocks at 2. cbn [List.filter place valid length].
    fold (valid_blocks s2). lia. }
  pose proof (length_valid_blocks s1) as Hle1.
  pose proof (length_valid_blocks s2) as Hle2.
  rewrite length_app in Hl. cbn [length] in Hl.
  split; [| split].
  - apply NoDup_cons. split.
    + intros (i & Hi & _)%elem_of_take. apply Ht.
      by eapply list_elem_of_lookup_2.
    + apply (sublist_NoDup _ stack); [done | apply sublist_take].
  - cbn [length]. rewrite Hvb', length_take. rewrite Hvb in Hlen.
    destruct Hcase as [Hb | (Hb & _ & Hall)].
    + rewrite Hb in Hlen. lia.
    + rewrite (valid_blocks_all _ Hall), length_app in Hvb. cbn [length] in Hvb.
      rewrite Hb in Hvb, Hlen. lia.
  - intros [|j] t' Hk.
    + injection Hk as <-. exists (age (place assoc t b)).
      split; [| cbn; repeat split; lia].
      apply list_elem_of_fmap_2. rewrite elem_of_app, elem_of_cons. auto.
    + cbn [lookup list_lookup] in Hk.
      change (take (Z.to_nat (assoc - 1)) stack !! j = Some t') in Hk.
      apply lookup_take_Some in Hk as [Hold Hj].
      destruct (Hr _ _ Hold) as (b1 & Hb1 & Hv1 & <- & Hrank).
      exists (age b1). split; [| cbn; repeat split; [done | lia]].
      apply list_elem_of_fmap_2.
      rewrite elem_of_app, elem_of_cons in Hb1 |- *.
      destruct Hb1 as [? | [-> | ?]]; [auto | | auto].
      destruct Hcase as [Hb | (_ & Hb & _)]; [congruence | lia].
Qed.

(** One access: the set does to its tags what the ideal stack does. *)
Lemma access_set_ranked t s stack :
  set_inv assoc s → ranked assoc s stack →
  (access_set assoc t s).1 = (lru_step assoc t stack).1 ∧
  ranked assoc (access_set assoc t s).2 (lru_step assoc t stack).2.
Proof.
  intros Hinv Hrk. unfold access_set, lru_step.
  destruct (List.find (matches t) s) as [b0|] eqn:Hfind.
  - apply find_matches_Some in Hfind as (Hb0 & <- & Hv0).
    rewrite bool_decide_eq_true_2.
    + split; [done |]. by apply ranked_hit.
    + apply (ranked_elem_of assoc s); [done | done |].
      apply elem_of_valid_tags. by exists b0.
  - apply find_matches_None in Hfind.
    assert (t ∉ stack) as Ht
      by by rewrite (ranked_elem_of assoc s stack t Hinv Hrk).
    rewrite bool_decide_eq_false_2 by done. split; [done |]. cbn [snd].
    destruct (evictor_set_cases assoc Hassoc t s Hinv)
      as (s1 & b & s2 & -> & -> & Hc).
    apply ranked_miss; [done | done | done |]. tauto.
Qed.

End ideal_lru_step.

Section ideal_lru_cache.

Lemma tag_of_rank_valid assoc s b :
  set_inv assoc s → b ∈ s → valid b = true →
  tag_of_rank s (lru_counter b) = tag b.
Proof.
  intros Hinv Hb Hv. unfold tag_of_rank.
  destruct (List.find _ s) as [b'|] eqn:Hfind.
  - apply List.find_some in Hfind as [Hb' [Hv' Hr%Z.eqb_eq]%andb_true_iff].
    f_equal. apply (valid_rank_inj assoc s); try done.
    by apply list_elem_of_In.
  - apply list_elem_of_In in Hb.
    pose proof (List.find_none _ _ Hfind _ Hb) as Hn. cbn in Hn.
    by rewrite Hv, Z.eqb_refl in Hn.
Qed.

Lemma ranked_stack_of assoc s stack :
  set_inv assoc s → ranked assoc s stack → stack_of assoc s = stack.
Proof.
  intros Hinv (_ & Hlen & Hr). apply list_eq. intros k.
  unfold stack_of. rewrite list_lookup_fmap.
  destruct (decide (k < length stack)%nat) as [Hlt | Hge].
  - rewrite lookup_seq_lt by lia. cbn.
    destruct (lookup_lt_is_Some_2 stack k Hlt) as [t Ht]. rewrite Ht.
    destruct (Hr _ _ Ht) as (b & Hb & Hv & <- & <-).
    f_equal. by apply (tag_of_rank_valid assoc).
  - rewrite lookup_seq_ge by lia. symmetry. apply lookup_ge_None_2. lia.
Qed.

Lemma ranked_init assoc t :
  ranked assoc (replicate (Z.to_nat assoc) (Block_init t false)) [].
Proof.
  split; [constructor |]. split; [by rewrite valid_blocks_replicate |].
  intros k t' Hk. by rewrite lookup_nil in Hk.
Qed.

Lemma tracks_init cs bs a self :
  Cache_init cs bs a = Ok self → tracks self (λ _, []).
Proof.
  intros (_ & _ & _ & ->)%Cache_init_inv index blocks _. cbn [cache associativity].
  intros [-> _]%lookup_replicate_1. apply ranked_init.
Qed.

Lemma tracks_check c stacks a hit c' :
  wf c → tracks c stacks → check c a = Ok (hit, c') →
  ∃ index,
    extract_index c a = Ok index ∧
    hit = (lru_step (associativity c) (extract_tag c a) (stacks index)).1 ∧
    tracks c'
      (λ j, if decide (j = index)
            then (lru_step (associativity c) (extract_tag c a)
                    (stacks index)).2
            else stacks j).
Proof.
  intros Hwf Htr Hc.
  pose proof (check_same_config _ _ _ Hc) as (_ & _ & Ea & _).
  apply check_inv in Hc as (i & o & n & blocks & Hi & _ & Hn & Hb & E).
  pose proof Hi as (_ & _ & Hpos & _)%int_base2_inv.
  apply py_index_nonneg_inv in Hn as [-> Hlt]; [| lia].
  unfold after_access in E. injection E as -> ->.
  pose proof Hwf as (Hassoc & _ & _ & _ & Hsets).
  pose proof (Hsets _ (list_elem_of_lookup_2 _ _ _ Hb)) as Hinv.
  destruct (access_set_ranked (associativity c) Hassoc (extract_tag c a)
              blocks (stacks i) Hinv (Htr i blocks ltac:(lia) Hb))
    as [Ehit Hrk].
  exists i. split; [done |]. split; [done |].
  cbn [snd] in Ea. intros j blocks' Hj. rewrite Ea. cbn [cache with_cache].
  destruct (decide (j = i)) as [-> | Hne].
  - rewrite list_lookup_insert_eq by lia. by intros [= <-].
  - rewrite list_lookup_insert_ne by lia. by apply Htr.
Qed.

Lemma tracks_run self0 trace : ∀ c stacks outcomes c',
  wf c → same_config self0 c → tracks c stacks →
  run c trace = Ok (outcomes, c') →
  ∃ stacks',
    ideal_run self0 trace stacks = Ok (outcomes, stacks') ∧ tracks c' stacks'.
Proof.
  induction trace as [|a trace IH]; intros c stacks outcomes c' Hwf Hcfg Htr.
  - cbn. intros [= <- <-]. by exists stacks.
  - intros (hit & c1 & outs & Hc & Hr & E)%run_cons_inv. cbn [fst snd] in Hr, E.
    destruct (tracks_check _ _ _ _ _ Hwf Htr Hc) as (i & Hi & Hhit & Htr1).
    assert (associativity c = associativity self0) as Ea by apply Hcfg.
    rewrite (same_config_extract_index _ _ _ Hcfg) in Hi.
    rewrite (same_config_extract_tag _ _ _ Hcfg), Ea in Hhit, Htr1.
    destruct (IH c1 _ outs c' (check_wf _ _ _ Hwf Hc)
                (same_config_trans _ _ _ Hcfg (check_same_config _ _ _ Hc))
                Htr1 Hr) as (stacks' & Hrun & Htr').
    exists stacks'. split; [| done].
    cbn [ideal_run]. rewrite Hi. cbn. rewrite Hrun. cbn. by rewrite E, Hhit.
Qed.

Lemma run_wf trace : ∀ c outcomes c',
  wf c → run c trace = Ok (outcomes, c') → wf c'.
Proof.
  induction trace as [|a trace IH]; intros c outcomes c' Hwf.
  - cbn. by intros [= _ <-].
  - intros (hit & c1 & outs & Hc & Hr & _)%run_cons_inv.
    apply (IH c1 outs c'); [| done]. apply (check_wf _ _ _ Hwf Hc).
Qed.

Lemma run_same_config trace : ∀ c outcomes c',
  run c trace = Ok (outcomes, c') → same_config c c'.
Proof.
  induction trace as [|a trace IH]; intros c outcomes c'.
  - cbn. intros [= _ <-]. apply same_config_refl.
  - intros (hit & c1 & outs & Hc & Hr & _)%run_cons_inv.
    eapply same_config_trans; [apply (check_same_config _ _ _ Hc) |].
    by apply (IH c1 outs c').
Qed.

End ideal_lru_cache.

(** X1. The sequence of hits and misses of a cache over a trace is the one
    of independent ideal LRU stacks, one per set, each of capacity
    [associativity]: an access hits exactly when its tag is among the
    [associativity] most recently used distinct tags of its set, and the
    tag that leaves a full set is the least recently used one. At the end
    the valid tags of each set, read from rank [associativity - 1] down,
    are the stack of that set. *)
Theorem check_is_ideal_lru cs bs a self trace outcomes self' :
  0 < a → Cache_init cs bs a = Ok self →
  run self trace = Ok (outcomes, self') →
  ∃ stacks,
    ideal_run self trace (λ _, []) = Ok (outcomes, stacks) ∧
    ∀ index blocks, 0 ≤ index →
      cache self' !! Z.to_nat index = Some blocks →
      stack_of a blocks = stacks index.
Proof.
  intros Ha Hinit Hrun.
  assert (wf self) as Hwf by by eapply Cache_init_wf.
  destruct (tracks_run self trace self (λ _, []) outcomes self' Hwf
              (same_config_refl _) (tracks_init _ _ _ _ Hinit) Hrun)
    as (stacks & Hideal & Htr).
  exists stacks. split; [done |]. intros index blocks Hindex Hb.
  pose proof (run_wf _ _ _ _ Hwf Hrun) as (_ & _ & _ & _ & Hsets).
  assert (associativity self' = a) as Ea.
  { destruct (run_same_config _ _ _ _ Hrun) as (_ & _ & -> & _).
    by apply Cache_init_inv in Hinit as (_ & _ & _ & ->). }
  rewrite <- Ea. apply ranked_stack_of; [| by apply Htr].
  apply Hsets. by eapply list_elem_of_lookup_2.
Qed.

Lemma check_is_ideal_lru_witness :
  0 < 2 ∧ Cache_init 16 4 2 = Ok demo ∧
  ∃ self',
    run demo [zeros32; tagY32; zeros32; tagZ32]
    = Ok ([false; false; true; false], self') ∧
    ∃ stacks,
      ideal_run demo [zeros32; tagY32; zeros32; tagZ32] (λ _, [])
      = Ok ([false; false; true; false], stacks) ∧
      ∀ index blocks, 0 ≤ index →
        cache self' !! Z.to_nat index = Some blocks →
        stack_of 2 blocks = stacks index.
Proof.
  split; [lia |]. split; [vm_compute; reflexivity |].
  eexists. split; [vm_compute; reflexivity |].
  apply (check_is_ideal_lru 16 4 2 demo [zeros32; tagY32; zeros32; tagZ32]);
    [lia | vm_compute; reflexivity | vm_compute; reflexivity].
Defined.

Lemma ranked_NoDup_valid_tags assoc s stack :
  set_inv assoc s → ranked assoc s stack → NoDup (valid_tags s).
Proof.
  intros Hinv Hrk. pose proof Hinv as (_ & Hnd & _).
  unfold valid_tags. apply NoDup_fmap_2_strong.
  - intros b b' [Hb Hv]%elem_of_valid_blocks [Hb' Hv']%elem_of_valid_blocks E.
    destruct (ranked_lookup assoc s stack b Hinv Hrk Hb Hv) as [Hk Hl].
    destruct (ranked_lookup assoc s stack b' Hinv Hrk Hb' Hv') as [Hk' Hl'].
    rewrite E in Hl. destruct Hrk as (Hnds & _).
    pose proof (NoDup_lookup _ _ _ _ Hnds Hl Hl') as Ek.
    apply (valid_rank_inj assoc s); try done. lia.
  - unfold valid_ranks in Hnd. by apply NoDup_fmap_1 in Hnd.
Qed.

Lemma reachable_tracks self : reachable self → ∃ stacks, tracks self stacks.
Proof.
  induction 1 as [cs bs a self Ha Hinit
                 | self address hit self' Hre [stacks IH] _ Hc].
  - exists (λ _, []). by eapply tracks_init.
  - destruct (tracks_check _ _ _ _ _ (reachable_wf _ Hre) IH Hc)
      as (i & _ & _ & Htr). eauto.
Qed.

(** X2. In every reachable state, no tag is held by two valid blocks of
    the same set: the valid tags of a set are pairwise distinct. *)
Theorem valid_tags_distinct self blocks :
  reachable self → blocks ∈ cache self → NoDup (valid_tags blocks).
Proof.
  intros Hre (n & Hb)%list_elem_of_lookup.
  destruct (reachable_tracks _ Hre) as [stacks Htr].
  pose proof (reachable_wf _ Hre) as (_ & _ & _ & _ & Hsets).
  apply (ranked_NoDup_valid_tags (associativity self) blocks
           (stacks (Z.of_nat n))).
  - apply Hsets. by eapply list_elem_of_lookup_2.
  - apply Htr; [lia |]. by rewrite Nat2Z.id.
Qed.

Lemma valid_tags_distinct_witness :
  ∃ blocks,
    cache demo2 !! 0%nat = Some blocks ∧
    valid_tags blocks = [str_mul "0" 29; str_mul "0" 28 ++ ["1"]%char] ∧
    NoDup (valid_tags blocks).
Proof.
  eexists. split; [reflexivity |]. split; [reflexivity |].
  apply (valid_tags_distinct demo2).
  - apply (reachable_check demo1 tagY32 false);
      [| reflexivity | vm_compute; reflexivity].
    apply (reachable_check demo zeros32 false);
      [| reflexivity | vm_compute; reflexivity].
    apply (reachable_init 16 4 2); [lia | vm_compute; reflexivity].
  - cbn. apply list_elem_of_here.
Defined.


(** ** The three fields of an address *)

Section fields.

Lemma bin_value_app s1 : ∀ acc s2,
  bin_value acc (s1 ++ s2)
  = match bin_value acc s1 with
    | Some v => bin_value v s2
    | None => None
    end.
Proof.
  induction s1 as [|c s1 IH]; intros acc s2; [done |]. cbn.
  destruct (Ascii.eqb c "0"); [apply IH |].
  destruct (Ascii.eqb c "1"); [apply IH | done].
Qed.

Lemma bin_value_shift s : ∀ acc acc' v,
  bin_value acc s = Some v →
  bin_value acc' s = Some (v + (acc' - acc) * 2 ^ Z.of_nat (length s)).
Proof.
  induction s as [|c s IH]; intros acc acc' v.
  - cbn. intros [= <-]. f_equal. lia.
  - cbn [bin_value length]. rewrite Nat2Z.inj_succ, Z.pow_succ_r by lia.
    destruct (Ascii.eqb c "0").
    + intros H. rewrite (IH _ (2 * acc') _ H). f_equal. lia.
    + destruct (Ascii.eqb c "1"); [| done].
      intros H. rewrite (IH _ (2 * acc' + 1) _ H). f_equal. lia.
Qed.

(** The value of a concatenation. *)
Lemma bin_value_concat s1 s2 v :
  bin_value 0 (s1 ++ s2) = Some v →
  ∃ v1 v2, bin_value 0 s1 = Some v1 ∧ bin_value 0 s2 = Some v2 ∧
           v = v1 * 2 ^ Z.of_nat (length s2) + v2 ∧
           0 ≤ v1 ∧ 0 ≤ v2 < 2 ^ Z.of_nat (length s2).
Proof.
  rewrite bin_value_app.
  destruct (bin_value 0 s1) as [v1|] eqn:E1; [| done]. intros E.
  destruct (bin_value_bits 0 s2 (bin_value_Some_bits _ _ _ E)) as [v2 E2].
  rewrite (bin_value_shift _ _ v1 _ E2) in E. injection E as <-.
  exists v1, v2. split; [done |]. split; [done |]. split; [lia |].
  apply bin_value_bound in E1; [| lia]. apply bin_value_bound in E2; lia.
Qed.

(** The slices, when the three widths are not negative and add up to the
    length of the address. *)
Lemma py_slice_fields (a : str) t k o :
  0 ≤ t → 0 ≤ k → 0 ≤ o → t + k + o = Z.of_nat (length a) →
  py_slice a None (Some t) = take (Z.to_nat t) a ∧
  py_slice a (Some t) (Some (t + k))
  = take (Z.to_nat k) (drop (Z.to_nat t) a) ∧
  py_slice a (Some (- o)) None
  = (if o =? 0 then a else drop (Z.to_nat (t + k)) a).
Proof.
  intros Ht Hk Ho Hsum. unfold py_slice, py_clamp.
  destruct (Z.ltb_spec t 0); [lia |].
  destruct (Z.ltb_spec (t + k) 0); [lia |].
  split; [| split].
  - replace (drop (Z.to_nat 0) a) with a by done. f_equal. lia.
  - f_equal; [lia |]. f_equal. lia.
  - destruct (Z.eqb_spec o 0) as [-> | Hne].
    + change (- 0) with 0. change (0 <? 0) with false. cbn match.
      replace (Z.to_nat (Z.min 0 (Z.of_nat (length a)))) with 0%nat by lia.
      replace (drop 0 a) with a by done. apply take_ge. lia.
    + destruct (Z.ltb_spec (- o) 0); [| lia].
      replace (Z.to_nat (Z.max (Z.of_nat (length a) + - o) 0))
        with (Z.to_nat (t + k)) by lia.
      apply take_ge. rewrite length_drop. lia.
Qed.

End fields.

(** X3. On a cache whose tag width is not negative and whose blocks hold
    more than one byte, a 32-bit address is the concatenation of the tag
    [extract_tag] returns, the slice [extract_index] converts and the slice
    [extract_offset] converts, of widths [no_of_tag_bits],
    [no_of_ind_bits] and [no_of_offset_bits]: the three fields do not
    overlap and leave no bit out. *)
Theorem address_is_tag_index_offset cs bs a self address :
  Cache_init cs bs a = Ok self →
  0 ≤ no_of_tag_bits self → 1 ≤ no_of_offset_bits self →
  bin32 address = true →
  address
  = extract_tag self address ++ index_bits self address
    ++ offset_bits self address ∧
  Z.of_nat (length (extract_tag self address)) = no_of_tag_bits self ∧
  Z.of_nat (length (index_bits self address)) = no_of_ind_bits self ∧
  Z.of_nat (length (offset_bits self address)) = no_of_offset_bits self ∧
  extract_index self address = int_base2 (index_bits self address) ∧
  extract_offset self address = int_base2 (offset_bits self address).
Proof.
  intros (Hk & Ho & Hsum)%Cache_init_widths Ht Ho1 [Hlen _]%bin32_inv.
  destruct (py_slice_fields address (no_of_tag_bits self)
              (no_of_ind_bits self) (no_of_offset_bits self))
    as (Etag & Eidx & Eoff); [lia.. |].
  destruct (Z.eqb_spec (no_of_offset_bits self) 0); [lia |].
  split; [| split; [| split; [| split; [| split; reflexivity]]]];
    unfold extract_tag, index_bits, offset_bits; rewrite ?Etag, ?Eidx, ?Eoff.
  - rewrite app_assoc, take_take_drop, <- Z2Nat.inj_add by lia.
    by rewrite take_drop.
  - rewrite length_take. lia.
  - rewrite length_take, length_drop. lia.
  - rewrite length_drop. lia.
Qed.

Lemma address_is_tag_index_offset_witness :
  Cache_init 16 4 2 = Ok demo ∧
  0 ≤ no_of_tag_bits demo ∧ 1 ≤ no_of_offset_bits demo ∧
  bin32 other_set32 = true ∧
  other_set32
  = extract_tag demo other_set32 ++ index_bits demo other_set32
    ++ offset_bits demo other_set32 ∧
  Z.of_nat (length (extract_tag demo other_set32)) = no_of_tag_bits demo ∧
  Z.of_nat (length (index_bits demo other_set32)) = no_of_ind_bits demo ∧
  Z.of_nat (length (offset_bits demo other_set32)) = no_of_offset_bits demo ∧
  extract_index demo other_set32 = int_base2 (index_bits demo other_set32) ∧
  extract_offset demo other_set32 = int_base2 (offset_bits demo other_set32).
Proof.
  split; [vm_compute; reflexivity |]. split; [cbn; lia |].
  split; [cbn; lia |]. split; [reflexivity |].
  apply (address_is_tag_index_offset 16 4 2 demo other_set32);
    [vm_compute; reflexivity | cbn; lia | cbn; lia | reflexivity].
Defined.

Section field_values.

Lemma int_base2_bin_value s v :
  s ≠ [] → bin_value 0 s = Some v → int_base2 s = Ok v.
Proof. intros Hs Hv. unfold int_base2. rewrite Hv. by destruct s. Qed.

Lemma int_base2_Ok_bin_value s v : int_base2 s = Ok v → bin_value 0 s = Some v.
Proof.
  unfold int_base2. destruct s; [done |].
  destruct (bin_value 0 (a :: s)); [| done]. by intros [= <-].
Qed.

Lemma is_pow2_log2 n : is_pow2 n = true → 2 ^ Z.log2 n = n.
Proof. unfold is_pow2. intros [_ H%Z.eqb_eq]%andb_true_iff. done. Qed.

(** The values of the three fields of a 32-bit address of value [v]. *)
Lemma field_values (a : str) t k o v :
  0 ≤ t → 0 ≤ k → 0 ≤ o → t + k + o = Z.of_nat (length a) →
  bin_value 0 a = Some v →
  bin_value 0 (take (Z.to_nat (t + k)) a) = Some (v / 2 ^ o) ∧
  bin_value 0 (take (Z.to_nat k) (drop (Z.to_nat t) a))
  = Some ((v / 2 ^ o) mod 2 ^ k) ∧
  bin_value 0 (drop (Z.to_nat (t + k)) a) = Some (v mod 2 ^ o).
Proof.
  intros Ht Hk Ho Hsum Hv.
  assert (0 < 2 ^ o) by (apply Z.pow_pos_nonneg; lia).
  assert (0 < 2 ^ k) by (apply Z.pow_pos_nonneg; lia).
  rewrite <- (take_drop (Z.to_nat (t + k)) a) in Hv.
  apply bin_value_concat in Hv as (vh & vo & Eh & Eo & -> & Hh & Hvo).
  rewrite length_drop in Hvo.
  replace (Z.of_nat (length a - Z.to_nat (t + k))) with o in Hvo by lia.
  rewrite length_drop.
  replace (Z.of_nat (length a - Z.to_nat (t + k))) with o by lia.
  assert ((vh * 2 ^ o + vo) / 2 ^ o = vh) as Ediv.
  { symmetry. apply (Z.div_unique _ _ _ vo); [left; lia | lia]. }
  assert ((vh * 2 ^ o + vo) mod 2 ^ o = vo) as Emod.
  { symmetry. apply (Z.mod_unique _ _ vh); [left; lia | lia]. }
  rewrite Ediv, Emod. split; [done |]. split; [| done].
  rewrite Z2Nat.inj_add, <- take_take_drop in Eh by lia.
  apply bin_value_concat in Eh as (vt & vi & _ & Ei & -> & _ & Hvi).
  rewrite length_take, length_drop in Hvi.
  replace (Z.of_nat (Z.to_nat k `min` (length a - Z.to_nat t))) with k
    in Hvi by lia.
  rewrite Ei. f_equal. rewrite length_take, length_drop.
  replace (Z.of_nat (Z.to_nat k `min` (length a - Z.to_nat t))) with k by lia.
  apply (Z.mod_unique _ _ vt); [left; lia | lia].
Qed.

End field_values.

(** X4. On a cache with a tag width that is not negative and at least one
    index bit, the index of a 32-bit address of value [v] is the block
    number [v / 2^no_of_offset_bits] modulo [2^no_of_ind_bits], and with at
    least one offset bit its offset is [v mod 2^no_of_offset_bits]. When
    block size and number of sets are powers of two this is the textbook
    mapping: set [(v / block_size) mod sets], byte [v mod block_size]. *)
Theorem extract_index_is_block_mod_sets cs bs a self address v :
  Cache_init cs bs a = Ok self →
  0 ≤ no_of_tag_bits self → 1 ≤ no_of_ind_bits self →
  bin32 address = true → int_base2 address = Ok v →
  extract_index self address
  = Ok ((v / 2 ^ no_of_offset_bits self) mod 2 ^ no_of_ind_bits self) ∧
  (1 ≤ no_of_offset_bits self →
   extract_offset self address = Ok (v mod 2 ^ no_of_offset_bits self)) ∧
  (is_pow2 bs = true → is_pow2 (sets self) = true →
   2 ^ no_of_offset_bits self = block_size self ∧
   2 ^ no_of_ind_bits self = sets self ∧
   extract_index self address = Ok ((v / block_size self) mod sets self)).
Proof.
  intros Hinit Ht Hk1 [Hlen _]%bin32_inv Hv%int_base2_Ok_bin_value.
  pose proof (Cache_init_widths _ _ _ _ Hinit) as (Hk & Ho & Hsum).
  destruct (py_slice_fields address (no_of_tag_bits self)
              (no_of_ind_bits self) (no_of_offset_bits self))
    as (_ & Eidx & Eoff); [lia.. |].
  destruct (field_values address (no_of_tag_bits self) (no_of_ind_bits self)
              (no_of_offset_bits self) v) as (_ & Vi & Vo); [lia.. | done |].
  assert (extract_index self address
          = Ok ((v / 2 ^ no_of_offset_bits self) mod 2 ^ no_of_ind_bits self))
    as Ei.
  { unfold extract_index. rewrite Eidx. apply int_base2_bin_value; [| done].
    intros E%(f_equal length). rewrite length_take, length_drop in E.
    cbn in E. lia. }
  split; [done |]. split.
  - intros Ho1. unfold extract_offset. rewrite Eoff.
    destruct (Z.eqb_spec (no_of_offset_bits self) 0); [lia |].
    apply int_base2_bin_value; [| done].
    intros E%(f_equal length). rewrite length_drop in E. cbn in E. lia.
  - intros Hpb Hps. rewrite Ei.
    apply Cache_init_inv in Hinit as (_ & _ & _ & ->).
    cbn [no_of_offset_bits no_of_ind_bits block_size sets] in *.
    by rewrite (is_pow2_log2 _ Hpb), (is_pow2_log2 _ Hps).
Qed.

Lemma extract_index_is_block_mod_sets_witness :
  Cache_init 16 4 2 = Ok demo ∧
  0 ≤ no_of_tag_bits demo ∧ 1 ≤ no_of_ind_bits demo ∧
  bin32 other_set32 = true ∧ int_base2 other_set32 = Ok 4 ∧
  extract_index demo other_set32
  = Ok ((4 / 2 ^ no_of_offset_bits demo) mod 2 ^ no_of_ind_bits demo) ∧
  (1 ≤ no_of_offset_bits demo →
   extract_offset demo other_set32 = Ok (4 mod 2 ^ no_of_offset_bits demo)) ∧
  (is_pow2 4 = true → is_pow2 (sets demo) = true →
   2 ^ no_of_offset_bits demo = block_size demo ∧
   2 ^ no_of_ind_bits demo = sets demo ∧
   extract_index demo other_set32 = Ok ((4 / block_size demo) mod sets demo)).
Proof.
  split; [vm_compute; reflexivity |]. split; [cbn; lia |].
  split; [cbn; lia |]. split; [reflexivity |].
  split; [vm_compute; reflexivity |].
  apply (extract_index_is_block_mod_sets 16 4 2 demo other_set32 4);
    [vm_compute; reflexivity | cbn; lia | cbn; lia | reflexivity
    | vm_compute; reflexivity].
Defined.

(** X5. With [block_size = 1] there are no offset bits, and the slice
    [address[-0:]] taken by [extract_offset] is the whole address: the
    offset it returns is the value of the full address, not 0, and it is
    a [ValueError] on an empty address. *)
Theorem extract_offset_without_offset_bits cs a self address :
  Cache_init cs 1 a = Ok self →
  no_of_offset_bits self = 0 ∧
  offset_bits self address = address ∧
  extract_offset self address = int_base2 address.
Proof.
  intros (_ & _ & _ & ->)%Cache_init_inv.
  assert (py_slice address (Some (- 0)) None = address) as E.
  { unfold py_slice, py_clamp. change (- 0) with 0.
    change (0 <? 0) with false. cbn match.
    replace (Z.to_nat (Z.min 0 (Z.of_nat (length address)))) with 0%nat by lia.
    replace (drop 0 address) with address by done. apply take_ge. lia. }
  split; [done |]. unfold offset_bits, extract_offset.
  cbn [no_of_offset_bits]. change (Z.log2 1) with 0. by rewrite E.
Qed.

Lemma extract_offset_without_offset_bits_witness :
  ∃ self, Cache_init 16 1 2 = Ok self ∧
    no_of_offset_bits self = 0 ∧
    offset_bits self other_set32 = other_set32 ∧
    extract_offset self other_set32 = int_base2 other_set32 ∧
    extract_offset self other_set32 = Ok 4.
Proof.
  eexists. split; [vm_compute; reflexivity |].
  assert (∀ P Q R S : Prop, P ∧ Q ∧ R → S → P ∧ Q ∧ R ∧ S) as H by tauto.
  apply H; [| vm_compute; reflexivity].
  apply (extract_offset_without_offset_bits 16 2). vm_compute. reflexivity.
Defined.


(** ** From a hexadecimal token to a 32-bit address *)

Section hex.

Lemma hex_digit_range c d : hex_digit c = Some d → 0 ≤ d < 16.
Proof.
  unfold hex_digit. repeat case_match; intros [= <-]; lia.
Qed.

Lemma hex_value_bound s : ∀ acc v,
  0 ≤ acc → hex_value acc s = Some v →
  acc * 16 ^ Z.of_nat (length s) ≤ v < (acc + 1) * 16 ^ Z.of_nat (length s).
Proof.
  induction s as [|c s IH]; intros acc v Hacc; cbn [hex_value length].
  - intros [= <-]. lia.
  - rewrite Nat2Z.inj_succ, Z.pow_succ_r by lia.
    assert (0 < 16 ^ Z.of_nat (length s)) by (apply Z.pow_pos_nonneg; lia).
    destruct (hex_digit c) as [d|] eqn:Ed; [| done].
    apply hex_digit_range in Ed. intros H'%IH; [nia | lia].
Qed.

Lemma hex_value_is_hex s : ∀ acc,
  forallb is_hex s = true → is_Some (hex_value acc s).
Proof.
  induction s as [|c s IH]; intros acc; cbn; [by eexists |].
  unfold is_hex at 1. destruct (hex_digit c); [| done]. cbn. apply IH.
Qed.

Lemma pos_bits_bits p : forallb is_bit (pos_bits p) = true.
Proof.
  induction p as [p IH | p IH |]; cbn; [| | done];
    by rewrite forallb_app, IH.
Qed.

Lemma pos_bits_value p : ∀ acc,
  bin_value acc (pos_bits p)
  = Some (acc * 2 ^ Z.of_nat (length (pos_bits p)) + Zpos p).
Proof.
  induction p as [p IH | p IH |]; intros acc; cbn [pos_bits].
  - rewrite bin_value_app, IH, length_app, Nat2Z.inj_add. cbn.
    rewrite Z.pow_add_r by lia. f_equal. lia.
  - rewrite bin_value_app, IH, length_app, Nat2Z.inj_add. cbn.
    rewrite Z.pow_add_r by lia. f_equal. lia.
  - cbn. f_equal. lia.
Qed.

Lemma pos_bits_length p :
  2 ^ (Z.of_nat (length (pos_bits p)) - 1) ≤ Zpos p
  < 2 ^ Z.of_nat (length (pos_bits p)).
Proof.
  induction p as [p IH | p IH |]; cbn [pos_bits]; [| | cbn; lia].
  - rewrite length_app, Nat2Z.inj_add. cbn [length].
    replace (Z.of_nat (length (pos_bits p)) + Z.of_nat 1 - 1)
      with (Z.succ (Z.of_nat (length (pos_bits p)) - 1)) by lia.
    replace (Z.of_nat (length (pos_bits p)) + Z.of_nat 1)
      with (Z.succ (Z.of_nat (length (pos_bits p)))) by lia.
    assert (0 < length (pos_bits p))%nat by (destruct p; cbn;
      rewrite ?length_app; cbn; lia).
    rewrite !Z.pow_succ_r by lia. lia.
  - rewrite length_app, Nat2Z.inj_add. cbn [length].
    replace (Z.of_nat (length (pos_bits p)) + Z.of_nat 1 - 1)
      with (Z.succ (Z.of_nat (length (pos_bits p)) - 1)) by lia.
    replace (Z.of_nat (length (pos_bits p)) + Z.of_nat 1)
      with (Z.succ (Z.of_nat (length (pos_bits p)))) by lia.
    assert (0 < length (pos_bits p))%nat by (destruct p; cbn;
      rewrite ?length_app; cbn; lia).
    rewrite !Z.pow_succ_r by lia. lia.
Qed.

End hex.

Section hextobin_facts.

Lemma py_bin_strip n :
  0 ≤ n → py_slice (py_bin n) (Some 2) None = bin_digits n.
Proof.
  intros Hn. destruct n as [|p|p]; [done | | lia].
  unfold py_slice, py_clamp, py_bin, bin_digits.
  change (2 <? 0) with false. cbn match. cbn [app length].
  replace (Z.to_nat (Z.min 2 (Z.of_nat (S (S (length (pos_bits p)))))))
    with 2%nat by lia.
  cbn [drop]. apply take_ge. lia.
Qed.

Lemma bin_digits_bits n : forallb is_bit (bin_digits n) = true.
Proof. destruct n; [done | apply pos_bits_bits | done]. Qed.

Lemma bin_digits_value n : 0 ≤ n → bin_value 0 (bin_digits n) = Some n.
Proof.
  intros Hn. destruct n as [|p|p]; [done | | lia].
  cbn [bin_digits]. by rewrite pos_bits_value.
Qed.

Lemma bin_digits_length n :
  0 ≤ n →
  (1 ≤ length (bin_digits n))%nat ∧
  (n < 2 ^ 32 → (length (bin_digits n) ≤ 32)%nat) ∧
  (2 ^ 32 ≤ n → (32 < length (bin_digits n))%nat).
Proof.
  intros Hn. destruct n as [|p|p]; [cbn; lia | | lia]. cbn [bin_digits].
  pose proof (pos_bits_length p) as [Hlo Hhi].
  assert (1 ≤ length (pos_bits p))%nat
    by (destruct p; cbn; rewrite ?length_app; cbn; lia).
  split; [done |]. split.
  - intros Hlt. destruct (decide (length (pos_bits p) ≤ 32)%nat); [done |].
    assert (2 ^ 32 ≤ 2 ^ (Z.of_nat (length (pos_bits p)) - 1))
      by (apply Z.pow_le_mono_r; lia). lia.
  - intros Hge. destruct (decide (32 < length (pos_bits p))%nat); [done |].
    assert (2 ^ Z.of_nat (length (pos_bits p)) ≤ 2 ^ 32)
      by (apply Z.pow_le_mono_r; lia). lia.
Qed.

Lemma is_bit_not_sign c :
  is_bit c = true → Ascii.eqb c "+" || Ascii.eqb c "-" = false.
Proof.
  unfold is_bit. intros [->%Ascii.eqb_eq | ->%Ascii.eqb_eq]%orb_true_iff; done.
Qed.

Lemma zfill_bits width (d : str) :
  d ≠ [] → forallb is_bit d = true →
  zfill width d = str_mul "0" (width - Z.of_nat (length d)) ++ d.
Proof.
  intros Hd Hb. unfold zfill.
  destruct (Z.leb_spec (width - Z.of_nat (length d)) 0) as [Hle | Hgt].
  - unfold str_mul. by replace (Z.to_nat (width - Z.of_nat (length d)))
      with 0%nat by lia.
  - destruct d as [|c d]; [done |]. cbn in Hb.
    apply andb_true_iff in Hb as [Hc _]. by rewrite (is_bit_not_sign c Hc).
Qed.

Lemma bin_value_zeros k (d : str) acc :
  bin_value acc (replicate k "0"%char ++ d)
  = bin_value (acc * 2 ^ Z.of_nat k) d.
Proof.
  revert acc. induction k as [|k IH]; intros acc.
  - cbn. f_equal. lia.
  - cbn [replicate app bin_value]. cbn. rewrite IH. f_equal.
    rewrite Nat2Z.inj_succ, Z.pow_succ_r by lia. lia.
Qed.

Lemma forallb_replicate_zero k : forallb is_bit (replicate k "0"%char) = true.
Proof. induction k; [done |]. cbn. done. Qed.

(** What [hextobin] returns on a number that is not negative. *)
Lemma hextobin_digits h n :
  int_base16 h = Ok n → 0 ≤ n →
  hextobin h
  = Ok (str_mul "0" (32 - Z.of_nat (length (bin_digits n))) ++ bin_digits n).
Proof.
  intros Hh Hn. unfold hextobin. rewrite Hh. cbn.
  rewrite py_bin_strip by done. f_equal.
  apply zfill_bits; [| apply bin_digits_bits].
  pose proof (bin_digits_length n Hn) as [H1 _].
  intros E. rewrite E in H1. cbn in H1. lia.
Qed.

Lemma int_base16_nonneg h n : int_base16 h = Ok n → 0 ≤ n.
Proof.
  unfold int_base16. destruct h as [|c h]; [done |].
  destruct (hex_value 0 (c :: h)) as [v|] eqn:E; [| done].
  intros [= <-]. apply hex_value_bound in E; lia.
Qed.

End hextobin_facts.

Lemma hextobin_hex_token h :
  forallb is_hex h = true → (1 ≤ length h ≤ 8)%nat →
  ∃ n b,
    int_base16 h = Ok n ∧ 0 ≤ n < 2 ^ 32 ∧
    hextobin h = Ok b ∧ bin32 b = true ∧ int_base2 b = Ok n.
Proof.
  intros Hhex [Hl1 Hl8].
  destruct (hex_value_is_hex h 0 Hhex) as [n Hn].
  assert (int_base16 h = Ok n) as Hint.
  { unfold int_base16. rewrite Hn. destruct h; [cbn in Hl1; lia | done]. }
  pose proof (hex_value_bound h 0 n ltac:(lia) Hn) as Hb.
  assert (16 ^ Z.of_nat (length h) ≤ 16 ^ 8)
    by (apply Z.pow_le_mono_r; lia).
  assert (0 ≤ n < 2 ^ 32) as Hrange by (change (2 ^ 32) with (16 ^ 8); lia).
  exists n, (str_mul "0" (32 - Z.of_nat (length (bin_digits n)))
             ++ bin_digits n).
  split; [done |]. split; [done |].
  split; [apply hextobin_digits; [done | lia] |].
  pose proof (bin_digits_length n ltac:(lia)) as (H1 & H32 & _).
  specialize (H32 ltac:(lia)). unfold str_mul. split.
  - unfold bin32. rewrite length_app, length_replicate, forallb_app,
      forallb_replicate_zero, bin_digits_bits.
    apply andb_true_iff. split; [apply Nat.eqb_eq; lia | done].
  - apply int_base2_bin_value.
    + intros E%(f_equal length). rewrite length_app in E. cbn in E. lia.
    + rewrite bin_value_zeros. cbn. apply bin_digits_value. lia.
Qed.

(** X6. [hextobin] turns a token of one to eight hexadecimal digits into
    a 32-bit address, a string of exactly 32 binary digits, whose value
    as read by [int(_, 2)] is the value of the token. *)
Theorem hextobin_is_32_bits h :
  forallb is_hex h = true → (1 ≤ length h ≤ 8)%nat →
  ∃ n b,
    int_base16 h = Ok n ∧ 0 ≤ n < 2 ^ 32 ∧
    hextobin h = Ok b ∧ bin32 b = true ∧ int_base2 b = Ok n.
Proof. apply hextobin_hex_token. Qed.

Lemma hextobin_is_32_bits_witness :
  forallb is_hex ["7"; "f"; "F"; "0"]%char = true ∧
  (1 ≤ length ["7"; "f"; "F"; "0"]%char ≤ 8)%nat ∧
  hextobin ["7"; "f"; "F"; "0"]%char
  = Ok (str_mul "0" 17 ++ str_mul "1" 11 ++ str_mul "0" 4) ∧
  ∃ n b,
    int_base16 ["7"; "f"; "F"; "0"]%char = Ok n ∧ 0 ≤ n < 2 ^ 32 ∧
    hextobin ["7"; "f"; "F"; "0"]%char = Ok b ∧ bin32 b = true ∧
    int_base2 b = Ok n.
Proof.
  split; [reflexivity |]. split; [cbn; lia |].
  split; [vm_compute; reflexivity |].
  apply (hextobin_is_32_bits ["7"; "f"; "F"; "0"]%char); [reflexivity |].
  cbn. lia.
Defined.

(** X7. [hextobin] does not truncate: on a token whose value is 2^32 or
    more it returns all the binary digits of the value, a string longer
    than 32 characters that is not a 32-bit address. *)
Theorem hextobin_keeps_wide_values h n :
  int_base16 h = Ok n → 2 ^ 32 ≤ n →
  ∃ b, hextobin h = Ok b ∧ b = bin_digits n ∧
       (32 < length b)%nat ∧ bin32 b = false ∧ int_base2 b = Ok n.
Proof.
  intros Hint Hn. assert (0 ≤ n) as Hpos by lia.
  pose proof (bin_digits_length n Hpos) as (H1 & _ & H32).
  specialize (H32 Hn). exists (bin_digits n).
  split.
  { rewrite (hextobin_digits h n Hint Hpos). unfold str_mul.
    by replace (Z.to_nat (32 - Z.of_nat (length (bin_digits n))))
      with 0%nat by lia. }
  split; [done |]. split; [done |]. split.
  - unfold bin32. apply andb_false_iff. left. apply Nat.eqb_neq. lia.
  - apply int_base2_bin_value; [| by apply bin_digits_value].
    intros E. rewrite E in H1. cbn in H1. lia.
Qed.

Lemma hextobin_keeps_wide_values_witness :
  int_base16 ["1"; "0"; "0"; "0"; "0"; "0"; "0"; "0"; "0"]%char = Ok (2 ^ 32) ∧
  2 ^ 32 ≤ 2 ^ 32 ∧
  ∃ b, hextobin ["1"; "0"; "0"; "0"; "0"; "0"; "0"; "0"; "0"]%char = Ok b ∧
       b = bin_digits (2 ^ 32) ∧
       (32 < length b)%nat ∧ bin32 b = false ∧ int_base2 b = Ok (2 ^ 32).
Proof.
  split; [vm_compute; reflexivity |]. split; [lia |].
  apply (hextobin_keeps_wide_values
           ["1"; "0"; "0"; "0"; "0"; "0"; "0"; "0"; "0"]%char (2 ^ 32));
    [vm_compute; reflexivity | lia].
Defined.

(** ** Addresses of one memory block *)

Section same_block.

Lemma bin_value_inj s : ∀ s' acc v,
  0 ≤ acc → length s = length s' →
  bin_value acc s = Some v → bin_value acc s' = Some v → s = s'.
Proof.
  induction s as [|c s IH]; intros [|c' s'] acc v Hacc Hlen; try done.
  injection Hlen as Hlen. cbn [bin_value].
  assert (0 < 2 ^ Z.of_nat (length s')) by (apply Z.pow_pos_nonneg; lia).
  destruct (Ascii.eqb_spec c "0") as [-> | _];
    [| destruct (Ascii.eqb_spec c "1") as [-> | _]; [| done]];
    (destruct (Ascii.eqb_spec c' "0") as [-> | _];
     [| destruct (Ascii.eqb_spec c' "1") as [-> | _]; [| done]]);
    intros H1 H2.
  - f_equal. by apply (IH s' (2 * acc) v); [lia | ..].
  - apply bin_value_bound in H1; [| lia]. apply bin_value_bound in H2; [| lia].
    rewrite Hlen in H1. nia.
  - apply bin_value_bound in H1; [| lia]. apply bin_value_bound in H2; [| lia].
    rewrite Hlen in H1. nia.
  - f_equal. by apply (IH s' (2 * acc + 1) v); [lia | ..].
Qed.

(** After an access that returned, the tag of its address is in its set. *)
Lemma check_holds_tag self address hit self1 index :
  wf self → bin32 address = true →
  check self address = Ok (hit, self1) →
  extract_index self address = Ok index →
  holds_tag self (Z.to_nat index) (extract_tag self address) self1.
Proof.
  intros Hwf Ha Hc Hi.
  destruct (check_defined _ _ _ Hwf Ha Hi) as (blocks & Hb & Hc').
  split; [apply (check_wf _ _ _ Hwf Hc) |].
  split; [by apply (check_same_config _ _ _ Hc) |].
  rewrite Hc in Hc'. injection Hc' as -> ->.
  eexists. cbn [cache with_cache]. split.
  - apply list_lookup_insert_eq. by eapply lookup_lt_Some.
  - apply access_set_tag; [apply Hwf |].
    destruct Hwf as (_ & _ & _ & _ & Hsets).
    apply Hsets. by eapply list_elem_of_lookup_2.
Qed.

(** Two 32-bit addresses with the same block number have the same tag and
    the same index slice. *)
Lemma same_block_fields (a a' : str) t k o v v' :
  0 ≤ t → 0 ≤ k → 0 ≤ o → t + k + o = 32 →
  bin32 a = true → bin32 a' = true →
  bin_value 0 a = Some v → bin_value 0 a' = Some v' →
  v / 2 ^ o = v' / 2 ^ o →
  take (Z.to_nat t) a = take (Z.to_nat t) a' ∧
  take (Z.to_nat k) (drop (Z.to_nat t) a)
  = take (Z.to_nat k) (drop (Z.to_nat t) a').
Proof.
  intros Ht Hk Ho Hsum [Hl _]%bin32_inv [Hl' _]%bin32_inv Hv Hv' E.
  destruct (field_values a t k o v) as (Vh & _); [lia.. | done |].
  destruct (field_values a' t k o v') as (Vh' & _); [lia.. | done |].
  rewrite <- E in Vh'.
  assert (take (Z.to_nat (t + k)) a = take (Z.to_nat (t + k)) a') as Eh.
  { apply (bin_value_inj _ _ 0 (v / 2 ^ o)); [lia | | done | done].
    rewrite !length_take. lia. }
  split.
  - rewrite <- (Nat.min_l (Z.to_nat t) (Z.to_nat (t + k))) by lia.
    by rewrite <- !take_take, Eh.
  - rewrite !take_drop_commute, <- !Z2Nat.inj_add by lia. by rewrite Eh.
Qed.

End same_block.

(** X8. Spatial locality. In a reachable cache with a tag width that is
    not negative, two 32-bit addresses of the same memory block (the same
    value divided by [2^no_of_offset_bits]) have the same index and the
    same tag, so right after an access of one that returned, the access
    of the other is a hit. *)
Theorem same_block_hits self a a' v v' hit self1 :
  reachable self → 0 ≤ no_of_tag_bits self →
  bin32 a = true → bin32 a' = true →
  int_base2 a = Ok v → int_base2 a' = Ok v' →
  v / 2 ^ no_of_offset_bits self = v' / 2 ^ no_of_offset_bits self →
  check self a = Ok (hit, self1) →
  extract_index self a' = extract_index self a ∧
  extract_tag self a' = extract_tag self a ∧
  ∃ self2, check self1 a' = Ok (true, self2).
Proof.
  intros Hre Ht Ha Ha' Hv%int_base2_Ok_bin_value Hv'%int_base2_Ok_bin_value
    E Hc.
  pose proof (reachable_widths _ Hre) as Hsum.
  pose proof (reachable_wf _ Hre) as Hwf.
  pose proof Hwf as (_ & Hk & Ho & _).
  pose proof Ha as [Hl _]%bin32_inv. pose proof Ha' as [Hl' _]%bin32_inv.
  destruct (same_block_fields a a' _ _ _ v v' Ht Hk Ho Hsum Ha Ha' Hv Hv' E)
    as [Etag Eidx].
  destruct (py_slice_fields a (no_of_tag_bits self) (no_of_ind_bits self)
              (no_of_offset_bits self)) as (T & I & _); [lia.. |].
  destruct (py_slice_fields a' (no_of_tag_bits self) (no_of_ind_bits self)
              (no_of_offset_bits self)) as (T' & I' & _); [lia.. |].
  assert (extract_index self a' = extract_index self a) as Ei
    by (unfold extract_index; by rewrite I, I', Eidx).
  assert (extract_tag self a' = extract_tag self a) as Et
    by (unfold extract_tag; by rewrite T, T', Etag).
  split; [done |]. split; [done |].
  pose proof Hc as (index & _ & _ & _ & Hi & _)%check_inv.
  pose proof Hi as (_ & _ & Hpos & _)%int_base2_inv.
  pose proof (check_holds_tag _ _ _ _ _ Hwf Ha Hc Hi) as Hh.
  destruct (holds_tag_check self index (extract_tag self a) self1 a' index)
    as (hit' & self2 & Hc2 & _ & Hhit);
    [lia | done | done | by rewrite Ei | by right |].
  exists self2. by rewrite Hc2, Hhit.
Qed.

Lemma same_block_hits_witness :
  ∃ a', a' = str_mul "0" 30 ++ ["1"; "1"]%char ∧
  Cache_init 16 4 2 = Ok demo ∧ 0 ≤ no_of_tag_bits demo ∧
  bin32 zeros32 = true ∧ bin32 a' = true ∧
  int_base2 zeros32 = Ok 0 ∧ int_base2 a' = Ok 3 ∧
  0 / 2 ^ no_of_offset_bits demo = 3 / 2 ^ no_of_offset_bits demo ∧
  check demo zeros32 = Ok (false, demo1) ∧
  extract_index demo a' = extract_index demo zeros32 ∧
  extract_tag demo a' = extract_tag demo zeros32 ∧
  ∃ self2, check demo1 a' = Ok (true, self2).
Proof.
  eexists. split; [reflexivity |]. split; [vm_compute; reflexivity |].
  split; [cbn; lia |]. split; [reflexivity |]. split; [reflexivity |].
  split; [vm_compute; reflexivity |]. split; [vm_compute; reflexivity |].
  split; [reflexivity |]. split; [vm_compute; reflexivity |].
  apply (same_block_hits demo zeros32 _ 0 3 false demo1).
  - apply (reachable_init 16 4 2); [lia | vm_compute; reflexivity].
  - cbn; lia.
  - reflexivity.
  - reflexivity.
  - vm_compute. reflexivity.
  - vm_compute. reflexivity.
  - reflexivity.
  - vm_compute. reflexivity.
Defined.


(** ** What an access never does *)

Section never.

Lemma evictor_set_slots assoc t s j block :
  s !! j = Some block →
  ∃ block1, evictor_set assoc t s !! j = Some block1 ∧
            (block1 = block ∨ block1 = place assoc t block).
Proof.
  intros Hj.
  assert (∀ s1 b s2, s = s1 ++ b :: s2 →
            ∃ block1, (s1 ++ place assoc t b :: s2) !! j = Some block1 ∧
                      (block1 = block ∨ block1 = place assoc t block)) as H.
  { intros s1 b s2 ->. destruct (decide (j = length s1)) as [-> | Hne].
    - rewrite list_lookup_middle in Hj by done. injection Hj as ->.
      exists (place assoc t block). by rewrite list_lookup_middle; auto.
    - exists block. rewrite <- (lookup_middle_ne s1 s2 b _ j Hne). auto. }
  unfold evictor_set.
  destruct (fill_invalid assoc t s) as [s'|] eqn:Hfill.
  - apply fill_invalid_Some in Hfill as (s1 & b & s2 & E & -> & _). eauto.
  - destruct (evict_zero assoc t s) as [s'|] eqn:Hev.
    + apply evict_zero_Some in Hev as (s1 & b & s2 & E & -> & _). eauto.
    + eauto.
Qed.

Lemma access_set_slots assoc t s :
  length (access_set assoc t s).2 = length s ∧
  ∀ j block, s !! j = Some block →
    ∃ block', (access_set assoc t s).2 !! j = Some block' ∧
              data block' = data block ∧
              (valid block = true → valid block' = true).
Proof.
  unfold access_set. destruct (List.find (matches t) s) as [b0|]; cbn [snd].
  - split; [apply length_fmap |]. intros j block Hj.
    exists (promote assoc (lru_counter b0) block).
    rewrite list_lookup_fmap, Hj.
    destruct (promote_fields assoc (lru_counter b0) block) as (_ & -> & -> & _).
    done.
  - split.
    + rewrite length_fmap. unfold evictor_set.
      destruct (fill_invalid assoc t s) as [s'|] eqn:Hfill.
      * apply fill_invalid_Some in Hfill as (s1 & b & s2 & -> & -> & _).
        by rewrite !length_app.
      * destruct (evict_zero assoc t s) as [s'|] eqn:Hev; [| done].
        apply evict_zero_Some in Hev as (s1 & b & s2 & -> & -> & _).
        by rewrite !length_app.
    + intros j block Hj.
      destruct (evictor_set_slots assoc t s j block Hj)
        as (block1 & Hj1 & [-> | ->]);
        eexists; rewrite list_lookup_fmap, Hj1; cbn; done.
Qed.

End never.

(** X9. An access that returns never changes the shape of the cache,
    never touches the [data] of a block and never turns a valid block
    into one that is not valid: every slot of every set is still there,
    with the same data, and valid if it was. *)
Theorem check_never_invalidates self address hit self' :
  check self address = Ok (hit, self') →
  length (cache self') = length (cache self) ∧
  ∀ i blocks, cache self !! i = Some blocks →
    ∃ blocks', cache self' !! i = Some blocks' ∧
      length blocks' = length blocks ∧
      ∀ j block, blocks !! j = Some block →
        ∃ block', blocks' !! j = Some block' ∧
                  data block' = data block ∧
                  (valid block = true → valid block' = true).
Proof.
  intros (index & o & n & blocks0 & _ & _ & Hn%py_index_lt & Hb0 & E)%check_inv.
  unfold after_access in E. injection E as -> ->. cbn [cache with_cache].
  split; [apply length_insert |]. intros i blocks Hi.
  destruct (decide (i = n)) as [-> | Hne].
  - rewrite Hb0 in Hi. injection Hi as <-.
    eexists. split; [by apply list_lookup_insert_eq |].
    apply access_set_slots.
  - exists blocks. rewrite list_lookup_insert_ne by done.
    split; [done |]. split; [done |]. eauto.
Qed.

Lemma check_never_invalidates_witness :
  check demo1 tagY32 = Ok (false, demo2) ∧
  length (cache demo2) = length (cache demo1) ∧
  ∀ i blocks, cache demo1 !! i = Some blocks →
    ∃ blocks', cache demo2 !! i = Some blocks' ∧
      length blocks' = length blocks ∧
      ∀ j block, blocks !! j = Some block →
        ∃ block', blocks' !! j = Some block' ∧
                  data block' = data block ∧
                  (valid block = true → valid block' = true).
Proof.
  split; [vm_compute; reflexivity |].
  apply (check_never_invalidates demo1 tagY32 false demo2).
  vm_compute. reflexivity.
Defined.

(** ** Sets beyond the index range *)

Lemma run_beyond_index_range self0 trace : ∀ c outcomes c' n,
  same_config self0 c → 0 ≤ no_of_ind_bits self0 →
  run c trace = Ok (outcomes, c') →
  2 ^ no_of_ind_bits self0 ≤ Z.of_nat n →
  cache c' !! n = cache c !! n.
Proof.
  induction trace as [|a trace IH]; intros c outcomes c' n Hcfg Hk.
  - cbn. by intros [= _ <-].
  - intros (hit & c1 & outs & Hc & Hr & _)%run_cons_inv Hn. cbn [snd] in Hr.
    rewrite (IH c1 outs c' n); [| | done | done | done].
    + apply check_inv in Hc as (i & o & m & blocks & Hi & _ & Hm & _ & E).
      unfold after_access in E. injection E as _ ->. cbn [cache with_cache].
      rewrite (same_config_extract_index _ _ _ Hcfg) in Hi.
      pose proof (extract_index_bound _ _ _ Hk Hi) as Hb.
      apply py_index_nonneg_inv in Hm as [-> _]; [| lia].
      apply list_lookup_insert_ne. lia.
    + eapply same_config_trans; [done |]. apply (check_same_config _ _ _ Hc).
Qed.

(** X10. Only the first [2^no_of_ind_bits] sets are ever used: whatever
    the trace, a set at a position from [2^no_of_ind_bits] on is as
    construction left it. When the number of sets is not a power of two
    there are such sets, since [no_of_ind_bits] is the integer part of
    the logarithm. *)
Theorem sets_beyond_index_range_unused cs bs a self trace outcomes self' :
  Cache_init cs bs a = Ok self →
  run self trace = Ok (outcomes, self') →
  (∀ n, 2 ^ no_of_ind_bits self ≤ Z.of_nat n →
        cache self' !! n = cache self !! n) ∧
  (is_pow2 (sets self) = false →
   2 ^ no_of_ind_bits self < sets self ∧
   is_Some (cache self !! Z.to_nat (2 ^ no_of_ind_bits self))).
Proof.
  intros Hinit Hrun.
  pose proof (Cache_init_widths _ _ _ _ Hinit) as (Hk & _).
  split.
  - intros n Hn.
    by apply (run_beyond_index_range self trace self outcomes self' n
                (same_config_refl _) Hk).
  - apply Cache_init_inv in Hinit as (_ & Hs & _ & ->).
    cbn [sets no_of_ind_bits cache]. unfold is_pow2.
    pose proof (Z.log2_spec _ Hs) as [Hlo _].
    intros [?%Z.ltb_ge | Hne%Z.eqb_neq]%andb_false_iff; [lia |].
    assert (2 ^ Z.log2 (cs / (bs * a)) < cs / (bs * a)) by lia.
    split; [done |]. apply lookup_lt_is_Some. rewrite length_replicate.
    assert (0 < 2 ^ Z.log2 (cs / (bs * a)))
      by (apply Z.pow_pos_nonneg; [lia | apply Z.log2_nonneg]).
    lia.
Qed.

Lemma sets_beyond_index_range_unused_witness :
  ∃ self self',
    Cache_init 12 4 1 = Ok self ∧
    run self [zeros32; other_set32; tagY32] = Ok ([false; false; false], self') ∧
    sets self = 3 ∧ cache self' !! 2%nat = cache self !! 2%nat ∧
    (∀ n, 2 ^ no_of_ind_bits self ≤ Z.of_nat n →
          cache self' !! n = cache self !! n) ∧
    (is_pow2 (sets self) = false →
     2 ^ no_of_ind_bits self < sets self ∧
     is_Some (cache self !! Z.to_nat (2 ^ no_of_ind_bits self))).
Proof.
  eexists _, _. split; [vm_compute; reflexivity |].
  split; [vm_compute; reflexivity |]. split; [reflexivity |].
  split; [reflexivity |].
  apply (sets_beyond_index_range_unused 12 4 1 _
           [zeros32; other_set32; tagY32] [false; false; false]);
    vm_compute; reflexivity.
Defined.

(** ** Hits and the tags a set has received *)

Section received_tags.

Lemma valid_tags_access_set assoc t s t' :
  t' ∈ valid_tags (access_set assoc t s).2 → t' = t ∨ t' ∈ valid_tags s.
Proof.
  unfold access_set. destruct (List.find (matches t) s) as [b0|]; cbn [snd].
  - rewrite valid_tags_promote. auto.
  - rewrite valid_tags_age. unfold evictor_set.
    assert (∀ s1 b s2, s = s1 ++ b :: s2 →
              t' ∈ valid_tags (s1 ++ place assoc t b :: s2) →
              t' = t ∨ t' ∈ valid_tags s) as H.
    { intros s1 b s2 ->. rewrite valid_tags_place.
      unfold valid_tags at 3. rewrite valid_blocks_app, fmap_app.
      fold (valid_tags s1). rewrite !elem_of_app, elem_of_cons.
      intros [? | [? | Hin]]; [auto.. |]. right. right.
      unfold valid_blocks. cbn [List.filter].
      destruct (valid b); [rewrite fmap_cons; right |]; done. }
    destruct (fill_invalid assoc t s) as [s'|] eqn:Hfill.
    + apply fill_invalid_Some in Hfill as (s1 & b & s2 & E & -> & _). eauto.
    + destruct (evict_zero assoc t s) as [s'|] eqn:Hev; [| auto].
      apply evict_zero_Some in Hev as (s1 & b & s2 & E & -> & _). eauto.
Qed.

Lemma elem_of_tags_of self index trace t :
  t ∈ tags_of self index trace ↔
  ∃ a, a ∈ trace ∧ extract_index self a = Ok index ∧ extract_tag self a = t.
Proof.
  unfold tags_of. rewrite list_elem_of_fmap. split.
  - intros (a & -> & Ha). apply list_elem_of_In, List.filter_In in Ha as [Ha Ht].
    exists a. split; [by apply list_elem_of_In |]. split; [| done].
    unfold targets in Ht. destruct (extract_index self a); [| done].
    by apply Z.eqb_eq in Ht as ->.
  - intros (a & Ha & Hi & <-). exists a. split; [done |].
    apply list_elem_of_In, List.filter_In. split; [by apply list_elem_of_In |].
    unfold targets. rewrite Hi. apply Z.eqb_refl.
Qed.

Lemma only_received_check self0 h c a hit c' :
  same_config self0 c → only_received self0 h c →
  check c a = Ok (hit, c') → only_received self0 (h ++ [a]) c'.
Proof.
  intros Hcfg Hrec Hc index blocks' t Hindex.
  apply check_inv in Hc as (i & o & n & blocks0 & Hi & _ & Hn & Hb0 & E).
  pose proof Hi as (_ & _ & Hpos & _)%int_base2_inv.
  apply py_index_nonneg_inv in Hn as [-> Hlt]; [| lia].
  unfold after_access in E. injection E as _ ->. cbn [cache with_cache].
  rewrite (same_config_extract_index _ _ _ Hcfg) in Hi.
  rewrite tags_of_snoc, elem_of_app.
  destruct (decide (i = index)) as [-> | Hne].
  - rewrite list_lookup_insert_eq by lia. intros [= <-] Ht.
    unfold targets. rewrite Hi, Z.eqb_refl.
    apply valid_tags_access_set in Ht as [-> | Ht].
    + right. rewrite (same_config_extract_tag _ _ _ Hcfg).
      apply list_elem_of_here.
    + left. by apply (Hrec index blocks0).
  - rewrite list_lookup_insert_ne by lia. intros Hb Ht.
    left. by apply (Hrec index blocks').
Qed.

Lemma only_received_run self0 trace : ∀ h c outcomes c',
  same_config self0 c → only_received self0 h c →
  run c trace = Ok (outcomes, c') → only_received self0 (h ++ trace) c'.
Proof.
  induction trace as [|a trace IH]; intros h c outcomes c' Hcfg Hrec.
  - cbn. intros [= _ <-]. by rewrite app_nil_r.
  - intros (hit & c1 & outs & Hc & Hr & _)%run_cons_inv. cbn [snd] in Hr.
    rewrite cons_middle, app_assoc.
    apply (IH _ c1 outs c'); [| by eapply only_received_check | done].
    eapply same_config_trans; [done |]. apply (check_same_config _ _ _ Hc).
Qed.

Lemma only_received_init cs bs a self0 :
  Cache_init cs bs a = Ok self0 → only_received self0 [] self0.
Proof.
  intros (_ & _ & _ & ->)%Cache_init_inv index blocks t _. cbn [cache].
  intros [-> _]%lookup_replicate_1. unfold valid_tags.
  rewrite valid_blocks_replicate by done. by intros ?%elem_of_nil.
Qed.

End received_tags.

(** X11. No hit without an earlier access: when [check] returns true
    after a trace run from construction, some address of the trace had
    the same index and the same tag as the address accessed. In
    particular the first access of a tag in a set is a miss. *)
Theorem hit_needs_earlier_access cs bs a self0 trace outcomes self address self' :
  Cache_init cs bs a = Ok self0 →
  run self0 trace = Ok (outcomes, self) →
  check self address = Ok (true, self') →
  ∃ earlier,
    earlier ∈ trace ∧
    extract_index self0 earlier = extract_index self0 address ∧
    extract_tag self0 earlier = extract_tag self0 address.
Proof.
  intros Hinit Hrun Hc.
  pose proof (run_same_config _ _ _ _ Hrun) as Hcfg.
  pose proof (only_received_run self0 trace [] self0 outcomes self
                (same_config_refl _) (only_received_init _ _ _ _ Hinit) Hrun)
    as Hrec. cbn [app] in Hrec.
  apply check_inv in Hc as (i & o & n & blocks & Hi & _ & Hn & Hb & E).
  pose proof Hi as (_ & _ & Hpos & _)%int_base2_inv.
  apply py_index_nonneg_inv in Hn as [-> _]; [| lia].
  unfold after_access in E. injection E as Hhit _. symmetry in Hhit.
  apply access_set_hit in Hhit.
  rewrite (same_config_extract_tag _ _ _ Hcfg) in Hhit.
  rewrite (same_config_extract_index _ _ _ Hcfg) in Hi.
  apply (Hrec i blocks _ ltac:(lia) Hb), elem_of_tags_of in Hhit
    as (earlier & Hin & Hie & Hte).
  exists earlier. by rewrite Hi.
Qed.

Lemma hit_needs_earlier_access_witness :
  Cache_init 16 4 2 = Ok demo ∧
  run demo [zeros32; tagY32] = Ok ([false; false], demo2) ∧
  (∃ self', check demo2 zeros32 = Ok (true, self')) ∧
  ∃ earlier,
    earlier ∈ [zeros32; tagY32] ∧
    extract_index demo earlier = extract_index demo zeros32 ∧
    extract_tag demo earlier = extract_tag demo zeros32.
Proof.
  split; [vm_compute; reflexivity |]. split; [vm_compute; reflexivity |].
  split; [eexists; vm_compute; reflexivity |].
  eapply (hit_needs_earlier_access 16 4 2 demo [zeros32; tagY32]
            [false; false] demo2 zeros32);
    vm_compute; reflexivity.
Defined.


(** ** Traces whose working set fits *)

Section fitting.

Lemma received_hit_iff self0 index h c a hit c' :
  0 ≤ index → received_inv self0 index h c →
  check c a = Ok (hit, c') → extract_index c a = Ok index →
  Z.of_nat (length (tags_received self0 index (h ++ [a])))
    ≤ associativity self0 →
  hit = true ↔ extract_tag self0 a ∈ tags_of self0 index h.
Proof.
  intros Hindex (Hwf & Hcfg & Hrec) Hc Hi Hlen.
  apply check_inv in Hc as (i & o & n & blocks & Hi' & _ & Hn & Hb & E).
  rewrite Hi in Hi'. injection Hi' as <-.
  apply py_index_nonneg_inv in Hn as [-> _]; [| lia].
  unfold after_access in E. injection E as -> _.
  rewrite access_set_hit, (same_config_extract_tag _ _ _ Hcfg).
  unfold tags_received in *.
  pose proof (length_remove_dups_app_le (tags_of self0 index h)
                (if targets self0 index a then [extract_tag self0 a] else []))
    as Hmono.
  rewrite <- tags_of_snoc in Hmono.
  rewrite (Hrec _ Hb ltac:(lia)). apply elem_of_remove_dups.
Qed.

Lemma run_snoc_inv trace : ∀ c a outcomes c',
  run c (trace ++ [a]) = Ok (outcomes, c') →
  ∃ outs1 c1 hit,
    run c trace = Ok (outs1, c1) ∧ check c1 a = Ok (hit, c') ∧
    outcomes = outs1 ++ [hit].
Proof.
  induction trace as [|x trace IH]; intros c a outcomes c'.
  - intros (hit & c1 & outs & Hc & Hr & E)%run_cons_inv.
    cbn in Hr, E. injection Hr as <- <-. subst outcomes.
    by exists [], c, hit.
  - rewrite <- app_comm_cons.
    intros (hit & c1 & outs & Hc & Hr & E)%run_cons_inv. cbn [fst snd] in Hr, E.
    apply IH in Hr as (outs1 & c2 & hit' & Hr & Hc' & ->).
    exists (hit :: outs1), c2, hit'. split; [| by subst].
    rewrite (run_cons _ _ _ _ Hc). cbn [fst snd]. by rewrite Hr.
Qed.

Lemma length_remove_dups_snoc {A} `{EqDecision A} (l : list A) x :
  length (remove_dups (l ++ [x]))
  = (length (remove_dups l) + (if decide (x ∈ l) then 0 else 1))%nat.
Proof.
  assert (remove_dups (l ++ [x])
          ≡ₚ (if decide (x ∈ l) then [] else [x]) ++ remove_dups l) as H.
  { apply NoDup_Permutation; [apply NoDup_remove_dups | |].
    - destruct (decide (x ∈ l)); [apply NoDup_remove_dups |].
      apply NoDup_cons. rewrite elem_of_remove_dups.
      split; [done | apply NoDup_remove_dups].
    - intros y.
      rewrite elem_of_app, !elem_of_remove_dups, elem_of_app,
        list_elem_of_singleton.
      destruct (decide (x ∈ l)) as [Hin | Hnotin].
      + rewrite elem_of_nil. split; [intros [? | ->]; auto | tauto].
      + rewrite list_elem_of_singleton. tauto. }
  rewrite H, length_app. destruct (decide (x ∈ l)); cbn; lia.
Qed.

Lemma elem_of_lines self trace i t :
  (Ok i, t) ∈ line_of self <$> trace ↔ t ∈ tags_of self i trace.
Proof.
  rewrite list_elem_of_fmap, elem_of_tags_of. unfold line_of. split.
  - intros (a & [= Hi Ht] & Ha). eauto.
  - intros (a & Ha & Hi & Ht). exists a. by rewrite Hi, Ht.
Qed.

End fitting.

(** X12. While the distinct tags sent to a set, the one of the next
    access included, number at most [associativity], that access returns
    and is a hit exactly when an earlier address of the trace had the
    same index and tag: in a set whose working set fits, only the first
    access of a tag misses. *)
Theorem fitting_set_hits_known_tags
    cs bs a self0 trace outcomes self address index :
  0 < a → Cache_init cs bs a = Ok self0 →
  run self0 trace = Ok (outcomes, self) →
  bin32 address = true →
  extract_index self address = Ok index →
  Z.of_nat (length (tags_received self0 index (trace ++ [address]))) ≤ a →
  ∃ hit self',
    check self address = Ok (hit, self') ∧
    (hit = true ↔
     ∃ earlier,
       earlier ∈ trace ∧ extract_index self0 earlier = Ok index ∧
       extract_tag self0 earlier = extract_tag self0 address).
Proof.
  intros Ha Hinit Hrun Hbin Hi Hlen.
  pose proof Hi as (_ & _ & Hpos & _)%int_base2_inv.
  pose proof (received_inv_run self0 index trace [] self0 outcomes self
                ltac:(lia) (received_inv_init _ _ _ _ index Ha Hinit) Hrun)
    as Hrec. cbn [app] in Hrec.
  pose proof Hrec as (Hwf & _).
  destruct (check_defined _ _ _ Hwf Hbin Hi) as (blocks & _ & Hc).
  destruct (after_access self (Z.to_nat index)
              (access_set (associativity self) (extract_tag self address)
                 blocks)) as [hit self'].
  exists hit, self'. split; [done |].
  rewrite <- elem_of_tags_of.
  apply (received_hit_iff self0 index trace self address hit self');
    [lia | done | done | done |].
  by apply Cache_init_inv in Hinit as (_ & _ & _ & ->).
Qed.

Lemma fitting_set_hits_known_tags_witness :
  0 < 2 ∧ Cache_init 16 4 2 = Ok demo ∧
  run demo [zeros32; tagY32] = Ok ([false; false], demo2) ∧
  bin32 zeros32 = true ∧ extract_index demo2 zeros32 = Ok 0 ∧
  Z.of_nat (length (tags_received demo 0 ([zeros32; tagY32] ++ [zeros32]))) ≤ 2 ∧
  ∃ hit self',
    check demo2 zeros32 = Ok (hit, self') ∧
    (hit = true ↔
     ∃ earlier,
       earlier ∈ [zeros32; tagY32] ∧ extract_index demo earlier = Ok 0 ∧
       extract_tag demo earlier = extract_tag demo zeros32).
Proof.
  split; [lia |]. split; [vm_compute; reflexivity |].
  split; [vm_compute; reflexivity |]. split; [reflexivity |].
  split; [vm_compute; reflexivity |]. split; [vm_compute; discriminate |].
  apply (fitting_set_hits_known_tags 16 4 2 demo [zeros32; tagY32]
           [false; false] demo2 zeros32 0);
    [lia | vm_compute; reflexivity | vm_compute; reflexivity | reflexivity
    | vm_compute; reflexivity | vm_compute; discriminate].
Defined.

Lemma fitting_trace_misses self0 cs bs a :
  0 < a → Cache_init cs bs a = Ok self0 →
  ∀ trace outcomes self,
    run self0 trace = Ok (outcomes, self) →
    (∀ index, Z.of_nat (length (tags_received self0 index trace)) ≤ a) →
    miss_count self = Z.of_nat (length (lines_touched self0 trace)).
Proof.
  intros Ha Hinit trace.
  assert (associativity self0 = a) as Ea
    by by apply Cache_init_inv in Hinit as (_ & _ & _ & ->).
  induction trace as [|x trace IH] using rev_ind; intros outcomes self.
  - cbn. intros [= _ <-] _. by apply Cache_init_inv in Hinit as (_ & _ & _ & ->).
  - intros (outs1 & c1 & hit & Hrun & Hc & _)%run_snoc_inv Hfit.
    assert (∀ index,
              Z.of_nat (length (tags_received self0 index trace)) ≤ a) as Hfit1.
    { intros index. specialize (Hfit index). unfold tags_received in *.
      rewrite tags_of_snoc in Hfit.
      pose proof (length_remove_dups_app_le (tags_of self0 index trace)
                    (if targets self0 index x
                     then [extract_tag self0 x] else [])). lia. }
    specialize (IH outs1 c1 Hrun Hfit1).
    pose proof (check_counters _ _ _ _ Hc) as Hcnt.
    pose proof Hc as (i & _ & _ & _ & Hi & _)%check_inv.
    pose proof Hi as (_ & _ & Hpos & _)%int_base2_inv.
    pose proof (received_inv_run self0 i trace [] self0 outs1 c1
                  ltac:(lia) (received_inv_init _ _ _ _ i Ha Hinit) Hrun)
      as Hrec. cbn [app] in Hrec.
    pose proof (received_hit_iff self0 i trace c1 x hit self ltac:(lia) Hrec
                  Hc Hi ltac:(rewrite Ea; apply Hfit)) as Hhit.
    pose proof Hrec as (_ & Hcfg & _).
    rewrite (same_config_extract_index _ _ _ Hcfg) in Hi.
    unfold lines_touched in *. rewrite fmap_app.
    change (line_of self0 <$> [x]) with [line_of self0 x].
    assert (line_of self0 x = (Ok i, extract_tag self0 x)) as El
      by (unfold line_of; by rewrite Hi).
    rewrite length_remove_dups_snoc, El.
    rewrite <- elem_of_lines in Hhit.
    destruct (decide ((Ok i, extract_tag self0 x) ∈ line_of self0 <$> trace))
      as [Hin | Hnotin].
    + apply Hhit in Hin as ->. lia.
    + destruct hit; [by destruct Hnotin; apply Hhit | lia].
Qed.

(** X13. A trace run from construction in which no set is sent more
    distinct tags than it has blocks misses once per memory block and
    never again: [miss_count] is the number of distinct (index, tag)
    pairs of the trace and every other access is a hit. *)
Theorem fitting_trace_only_cold_misses cs bs a self0 trace outcomes self :
  0 < a → Cache_init cs bs a = Ok self0 →
  run self0 trace = Ok (outcomes, self) →
  (∀ index, Z.of_nat (length (tags_received self0 index trace)) ≤ a) →
  miss_count self = Z.of_nat (length (lines_touched self0 trace)) ∧
  hit_count self
  = Z.of_nat (length trace) - Z.of_nat (length (lines_touched self0 trace)).
Proof.
  intros Ha Hinit Hrun Hfit.
  pose proof (fitting_trace_misses self0 cs bs a Ha Hinit trace outcomes self
                Hrun Hfit) as Hmiss.
  split; [done |].
  apply run_counters in Hrun as (_ & Hsum & _).
  apply Cache_init_inv in Hinit as (_ & _ & _ & ->). cbn in Hsum. lia.
Qed.

Lemma fitting_trace_only_cold_misses_witness :
  0 < 2 ∧ Cache_init 16 4 2 = Ok demo ∧
  (∃ self, run demo [zeros32; tagY32; zeros32] = Ok ([false; false; true], self) ∧
           miss_count self = 2 ∧ hit_count self = 1) ∧
  (∀ index,
     Z.of_nat (length (tags_received demo index [zeros32; tagY32; zeros32])) ≤ 2) ∧
  ∃ self, run demo [zeros32; tagY32; zeros32] = Ok ([false; false; true], self) ∧
    miss_count self
    = Z.of_nat (length (lines_touched demo [zeros32; tagY32; zeros32])) ∧
    hit_count self
    = Z.of_nat (length [zeros32; tagY32; zeros32])
      - Z.of_nat (length (lines_touched demo [zeros32; tagY32; zeros32])).
Proof.
  assert (∀ index,
            Z.of_nat (length (tags_received demo index
                                [zeros32; tagY32; zeros32])) ≤ 2) as Hfit.
  { intros index. unfold tags_received, tags_of. cbn [List.filter].
    destruct (targets demo index zeros32), (targets demo index tagY32);
      vm_compute; discriminate. }
  split; [lia |]. split; [vm_compute; reflexivity |].
  split; [eexists; split; [vm_compute; reflexivity | split; reflexivity] |].
  split; [exact Hfit |].
  eexists. split; [vm_compute; reflexivity |].
  apply (fitting_trace_only_cold_misses 16 4 2 demo [zeros32; tagY32; zeros32]
           [false; false; true]);
    [lia | vm_compute; reflexivity | vm_compute; reflexivity | exact Hfit].
Defined.

(** ** The drivers *)

Section drivers.

Lemma py_slice_from (s : str) n :
  0 ≤ n → py_slice s (Some n) None = drop (Z.to_nat n) s.
Proof.
  intros Hn. unfold py_slice, py_clamp.
  destruct (Z.ltb_spec n 0); [lia |].
  destruct (decide (n ≤ Z.of_nat (length s))) as [Hle | Hgt].
  - rewrite Z.min_l by lia. apply take_ge. rewrite length_drop. lia.
  - rewrite Z.min_r, Nat2Z.id, Z.sub_diag by lia.
    rewrite !drop_ge by lia. done.
Qed.

Lemma line_address_well_formed line :
  well_formed_line line = true →
  ∃ b, line_address line = Ok b ∧ bin32 b = true.
Proof.
  unfold well_formed_line, line_address.
  destruct (py_split line) as [|t0 [|token rest]]; [done.. |].
  intros [[H1%Nat.leb_le H8%Nat.leb_le]%andb_true_iff Hhex]%andb_true_iff.
  rewrite (getitem_at (t0 :: token :: rest) 1 1 token);
    [| apply (py_index_nonneg _ 1); cbn [length]; lia | done].
  cbn [mbind result_bind]. rewrite py_slice_from by lia.
  change (Z.to_nat 2) with 2%nat.
  destruct (hextobin_hex_token (drop 2 token) Hhex (conj H1 H8))
    as (n & b & _ & _ & Hb & Hbin & _).
  exists b. by rewrite Hb.
Qed.

Lemma replay_total lines : ∀ self,
  wf self → decodes self = true →
  forallb well_formed_line lines = true →
  ∃ c, replay self lines = Ok c ∧
       hit_count c + miss_count c
       = hit_count self + miss_count self + Z.of_nat (length lines) ∧
       hit_count self ≤ hit_count c ∧ miss_count self ≤ miss_count c.
Proof.
  induction lines as [|line lines IH]; intros self Hwf Hd.
  - intros _. exists self. cbn. split; [done |]. lia.
  - intros [Hl Hls]%andb_true_iff.
    destruct (line_address_well_formed line Hl) as (b & Hb & Hbin).
    destruct (check_total _ _ Hwf Hd Hbin) as [[hit c1] Hc].
    destruct (IH c1) as (c & Hr & Hsum & Hh & Hm); [| | done |].
    + apply (check_wf _ _ _ Hwf Hc).
    + pose proof (same_config_decodes _ _ (check_same_config _ _ _ Hc)) as E.
      cbn [snd] in E. by rewrite E.
    + exists c. cbn [replay]. rewrite Hb. cbn. rewrite Hc. cbn.
      split; [done |]. apply check_counters in Hc. cbn [length].
      destruct hit; lia.
Qed.

Lemma Cache_init_Ok cs bs a :
  0 < a → 0 < bs → 0 < cs / (bs * a) →
  ∃ self, Cache_init cs bs a = Ok self ∧
    no_of_ind_bits self = Z.log2 (cs / (bs * a)) ∧
    no_of_offset_bits self = Z.log2 bs ∧
    no_of_tag_bits self = 32 - Z.log2 (cs / (bs * a)) - Z.log2 bs ∧
    hit_count self = 0 ∧ miss_count self = 0.
Proof.
  intros Ha Hbs Hs. unfold Cache_init, floordiv, int_log2.
  destruct (Z.eqb_spec (bs * a) 0); [nia |]. cbn.
  destruct (Z.leb_spec (cs / (bs * a)) 0); [lia |]. cbn.
  destruct (Z.leb_spec bs 0); [lia |]. cbn. by eexists.
Qed.

(** No configuration of the four parts is fully associative or too wide:
    each is accepted and reads an index out of every 32-bit address. *)
Lemma driver_configs_decode cs bs a :
  (cs, bs, a) ∈ driver_configs →
  0 < a ∧
  ∃ self, Cache_init cs bs a = Ok self ∧ decodes self = true ∧
          hit_count self = 0 ∧ miss_count self = 0.
Proof.
  intros Hin. vm_compute in Hin.
  repeat (apply elem_of_cons in Hin as [[= -> -> ->] | Hin]);
    try (by apply elem_of_nil in Hin);
    (split; [lia |];
     match goal with
     | |- ∃ _, Cache_init ?c ?b ?s = _ ∧ _ =>
         destruct (Cache_init_Ok c b s)
           as (self & Hi & Ek & Eo & Et & Hh & Hm);
         [lia | lia | by vm_compute |]
     end;
     exists self; split; [done |]; split; [| done];
     apply decodes_of_widths; rewrite ?Ek, ?Eo, ?Et;
     vm_compute; congruence).
Qed.

End drivers.

(** X14. Under every configuration of [parta], [partb], [partc] and
    [partd], a trace file whose lines all carry, as second field, two
    characters followed by one to eight hexadecimal digits is replayed to
    its end without an exception, and the counters then add up to the
    number of lines. The rates are computed without error exactly when
    the file has a line: an empty file ends in [ZeroDivisionError]. *)
Theorem drivers_count_every_line cs bs a lines :
  (cs, bs, a) ∈ driver_configs →
  forallb well_formed_line lines = true →
  match lines with
  | [] => measure cs bs a lines = Raise ZeroDivisionError
  | _ => ∃ hits misses,
           measure cs bs a lines = Ok (hits, misses) ∧
           hits + misses = Z.of_nat (length lines) ∧
           0 ≤ hits ∧ 0 ≤ misses
  end.
Proof.
  intros (Ha & self & Hinit & Hd & Hh & Hm)%driver_configs_decode Hlines.
  destruct (replay_total lines self (Cache_init_wf _ _ _ _ Ha Hinit) Hd Hlines)
    as (c & Hr & Hsum & Hhc & Hmc).
  unfold measure. rewrite Hinit. cbn. rewrite Hr. cbn.
  destruct lines as [|line lines].
  - cbn in Hr. injection Hr as <-. by rewrite Hh, Hm.
  - cbn [length] in Hsum.
    destruct (Z.eqb_spec (hit_count c + miss_count c) 0); [lia |].
    exists (hit_count c), (miss_count c). cbn [length]. repeat split; lia.
Qed.

Lemma drivers_count_every_line_witness :
  (1024 * 1024, 1, 4) ∈ driver_configs ∧
  forallb well_formed_line [demo_line; demo_line] = true ∧
  line_address demo_line
  = Ok (str_mul "0" 3 ++ str_mul "1" 21
        ++ ["0"; "1"; "0"; "1"; "0"; "0"; "0"; "0"]%char) ∧
  match [demo_line; demo_line] with
  | [] => measure (1024 * 1024) 1 4 [demo_line; demo_line]
          = Raise ZeroDivisionError
  | _ => ∃ hits misses,
           measure (1024 * 1024) 1 4 [demo_line; demo_line]
           = Ok (hits, misses) ∧
           hits + misses = Z.of_nat (length [demo_line; demo_line]) ∧
           0 ≤ hits ∧ 0 ≤ misses
  end.
Proof.
  assert ((1024 * 1024, 1, 4) ∈ driver_configs) as Hin.
  { apply list_elem_of_In. vm_compute. do 7 right. by left. }
  split; [exact Hin |]. split; [reflexivity |].
  split; [vm_compute; reflexivity |].
  apply (drivers_count_every_line (1024 * 1024) 1 4 [demo_line; demo_line]);
    [exact Hin | reflexivity].
Defined.

Lemma split_ws_blank s : forallb is_space s = true → split_ws s [] = [].
Proof.
  induction s as [|c s IH]; [done |]. cbn.
  intros [-> Hs]%andb_true_iff. auto.
Qed.

Lemma line_address_short line :
  (length (py_split line) < 2)%nat → line_address line = Raise IndexError.
Proof.
  unfold line_address. intros Hlen.
  assert (getitem (py_split line) 1 = Raise IndexError) as ->; [| done].
  unfold getitem, py_index.
  destruct (py_split line) as [|t0 [|t1 rest]]; [done | done |].
  cbn in Hlen. lia.
Qed.

(** X15. The replay stops at the first line with fewer than two fields,
    a blank line for instance: after any number of well-formed lines,
    [line.split()[1]] raises [IndexError] and the lines that follow are
    not read. *)
Theorem replay_stops_at_short_line cache1 good line rest :
  wf cache1 → decodes cache1 = true →
  forallb well_formed_line good = true →
  (forallb is_space line = true → py_split line = []) ∧
  ((length (py_split line) < 2)%nat →
   replay cache1 (good ++ line :: rest) = Raise IndexError).
Proof.
  intros Hwf Hd Hgood. split; [apply split_ws_blank |].
  intros Hshort. revert cache1 Hwf Hd Hgood.
  induction good as [|g good IH]; intros cache1 Hwf Hd.
  - intros _. cbn [app replay]. by rewrite line_address_short.
  - intros [Hg Hgood]%andb_true_iff.
    destruct (line_address_well_formed g Hg) as (b & Hb & Hbin).
    destruct (check_total _ _ Hwf Hd Hbin) as [[hit c1] Hc].
    rewrite <- app_comm_cons. cbn [replay]. rewrite Hb. cbn. rewrite Hc. cbn.
    apply IH; [| | done].
    + apply (check_wf _ _ _ Hwf Hc).
    + pose proof (same_config_decodes _ _ (check_same_config _ _ _ Hc)) as E.
      cbn [snd] in E. by rewrite E.
Qed.

Lemma replay_stops_at_short_line_witness :
  Cache_init 16 4 2 = Ok demo ∧ decodes demo = true ∧
  forallb well_formed_line [demo_line] = true ∧
  (forallb is_space [" "; "010"]%char = true →
   py_split [" "; "010"]%char = []) ∧
  ((length (py_split [" "; "010"]%char) < 2)%nat →
   replay demo ([demo_line] ++ [" "; "010"]%char :: [demo_line])
   = Raise IndexError).
Proof.
  split; [vm_compute; reflexivity |]. split; [reflexivity |].
  split; [reflexivity |].
  apply (replay_stops_at_short_line demo [demo_line] [" "; "010"]%char
           [demo_line]); [| reflexivity | reflexivity].
  apply (Cache_init_wf 16 4 2); [lia | vm_compute; reflexivity].
Defined.

Section stack_distance.

Lemma elem_of_remove_tag x t l : x ∈ remove_tag t l ↔ x ∈ l ∧ x ≠ t.
Proof.
  unfold remove_tag. rewrite !list_elem_of_In, filter_In. unfold str_eqb.
  by rewrite negb_true_iff, bool_decide_eq_false.
Qed.

Lemma NoDup_remove_tag t l : NoDup l → NoDup (remove_tag t l).
Proof.
  induction 1 as [|x l Hx Hl IH]; [constructor |].
  destruct (decide (x = t)) as [-> | Hne].
  - by rewrite remove_tag_cons_eq.
  - rewrite remove_tag_cons_ne by done. apply NoDup_cons. split; [| done].
    rewrite elem_of_remove_tag. by intros [? _].
Qed.

Lemma mru_order_snoc L t :
  mru_order (L ++ [t]) = t :: remove_tag t (mru_order L).
Proof. unfold mru_order. by rewrite foldl_app. Qed.

Lemma NoDup_mru_order L : NoDup (mru_order L).
Proof.
  induction L as [|t L IH] using rev_ind; [constructor |].
  rewrite mru_order_snoc. apply NoDup_cons. split.
  - rewrite elem_of_remove_tag. by intros [_ ?].
  - by apply NoDup_remove_tag.
Qed.

Lemma elem_of_mru_order t L : t ∈ mru_order L ↔ t ∈ L.
Proof.
  induction L as [|x L IH] using rev_ind; [done |].
  rewrite mru_order_snoc, elem_of_cons, elem_of_remove_tag, IH.
  rewrite elem_of_app, list_elem_of_singleton.
  split.
  - intros [-> | [? _]]; auto.
  - intros [? | ->]; [| auto]. destruct (decide (t = x)); auto.
Qed.

Lemma remove_tag_take_hit t S m :
  NoDup S → t ∈ take (Datatypes.S m) S →
  remove_tag t (take (Datatypes.S m) S) = take m (remove_tag t S).
Proof.
  revert m. induction S as [|x S IH]; intros m.
  { intros _ Hin. rewrite take_nil in Hin. by apply elem_of_nil in Hin. }
  intros [Hx HS]%NoDup_cons. cbn [take].
  destruct (decide (x = t)) as [-> | Hne].
  - intros _. rewrite !remove_tag_cons_eq.
    rewrite !remove_tag_notin; [done | done |].
    intros (i & Hi & _)%elem_of_take. apply Hx.
    by eapply list_elem_of_lookup_2.
  - intros [? | Hin]%elem_of_cons; [done |].
    rewrite !remove_tag_cons_ne by done.
    destruct m as [|m]; [by rewrite take_0 in Hin; apply elem_of_nil in Hin |].
    cbn [take]. f_equal. by apply IH.
Qed.

Lemma remove_tag_take_miss t S m :
  t ∉ take (Datatypes.S m) S → take m (remove_tag t S) = take m S.
Proof.
  revert m. induction S as [|x S IH]; intros m; [done |].
  cbn [take]. intros [Hx Hin]%not_elem_of_cons.
  rewrite remove_tag_cons_ne by done.
  destruct m as [|m]; [done |]. cbn [take]. f_equal. by apply IH.
Qed.

Lemma lru_step_take a t S :
  0 < a → NoDup S →
  lru_step a t (take (Z.to_nat a) S)
  = (bool_decide (t ∈ take (Z.to_nat a) S),
     take (Z.to_nat a) (t :: remove_tag t S)).
Proof.
  intros Ha HS. unfold lru_step.
  replace (Z.to_nat a) with (Datatypes.S (Z.to_nat (a - 1))) by lia.
  set (m := Z.to_nat (a - 1)). cbn [take].
  destruct (decide (t ∈ take (Datatypes.S m) S)) as [Hin | Hout].
  - rewrite bool_decide_eq_true_2 by done.
    by rewrite remove_tag_take_hit.
  - rewrite bool_decide_eq_false_2 by done.
    rewrite remove_tag_take_miss by done.
    rewrite take_take. do 3 f_equal. lia.
Qed.

Lemma recent_check self0 h c a0 hit c' :
  0 < associativity self0 → wf c → same_config self0 c →
  tracks c (recent_stacks self0 h) → check c a0 = Ok (hit, c') →
  tracks c' (recent_stacks self0 (h ++ [a0])) ∧
  ∃ index,
    extract_index self0 a0 = Ok index ∧
    (hit = true ↔ extract_tag self0 a0 ∈ recent_stacks self0 h index).
Proof.
  intros Ha Hwf Hcfg Htr Hc.
  destruct (tracks_check _ _ _ _ _ Hwf Htr Hc) as (i & Hi & Hhit & Htr1).
  assert (associativity c = associativity self0) as Ea by apply Hcfg.
  rewrite (same_config_extract_index _ _ _ Hcfg) in Hi.
  rewrite (same_config_extract_tag _ _ _ Hcfg), Ea in Hhit, Htr1.
  unfold recent_stacks in Hhit, Htr1 at 1 2.
  rewrite lru_step_take in Hhit, Htr1 by (done || apply NoDup_mru_order).
  cbn [fst snd] in Hhit, Htr1. split.
  - intros j blocks Hj Hb. specialize (Htr1 j blocks Hj Hb).
    replace (recent_stacks self0 (h ++ [a0]) j)
      with (if decide (j = i)
            then take (Z.to_nat (associativity self0))
                   (extract_tag self0 a0
                    :: remove_tag (extract_tag self0 a0)
                         (mru_order (tags_of self0 i h)))
            else recent_stacks self0 h j); [done |].
    unfold recent_stacks. rewrite tags_of_snoc. unfold targets. rewrite Hi.
    destruct (decide (j = i)) as [-> | Hne].
    + by rewrite Z.eqb_refl, mru_order_snoc.
    + destruct (Z.eqb_spec i j) as [-> | _]; [done |]. by rewrite app_nil_r.
  - exists i. split; [done |]. rewrite Hhit. unfold recent_stacks.
    apply bool_decide_eq_true.
Qed.

Lemma recent_run self0 trace : ∀ h c outcomes c',
  0 < associativity self0 → wf c → same_config self0 c →
  tracks c (recent_stacks self0 h) →
  run c trace = Ok (outcomes, c') →
  tracks c' (recent_stacks self0 (h ++ trace)) ∧
  ∀ k hit, outcomes !! k = Some hit →
    ∃ address index,
      trace !! k = Some address ∧ extract_index self0 address = Ok index ∧
      (hit = true ↔
       extract_tag self0 address
       ∈ recent_stacks self0 (h ++ take k trace) index).
Proof.
  induction trace as [|a0 trace IH]; intros h c outcomes c' Ha Hwf Hcfg Htr.
  - cbn. intros [= <- <-]. rewrite app_nil_r. split; [done |].
    intros k hit Hk. by rewrite lookup_nil in Hk.
  - intros (hit0 & c1 & outs & Hc & Hr & E)%run_cons_inv.
    cbn [fst snd] in Hr, E. subst outcomes.
    destruct (recent_check _ _ _ _ _ _ Ha Hwf Hcfg Htr Hc)
      as (Htr1 & i & Hi & Hhit).
    destruct (IH (h ++ [a0]) c1 outs c' Ha (check_wf _ _ _ Hwf Hc)
                (same_config_trans _ _ _ Hcfg (check_same_config _ _ _ Hc))
                Htr1 Hr) as (Htr' & Houts).
    rewrite <- app_assoc in Htr'. split; [done |].
    intros [|k] hit.
    + cbn. intros [= <-]. exists a0, i. by rewrite app_nil_r.
    + cbn [lookup list_lookup]. intros Hk.
      destruct (Houts k hit Hk) as (address & index & Hl & Hidx & Hiff).
      exists address, index. rewrite <- app_assoc in Hiff. done.
Qed.

Lemma recent_init cs bs a self0 :
  Cache_init cs bs a = Ok self0 → tracks self0 (recent_stacks self0 []).
Proof.
  intros Hinit. pose proof (tracks_init _ _ _ _ Hinit) as Htr.
  intros index blocks Hindex Hb. specialize (Htr index blocks Hindex Hb).
  unfold recent_stacks, tags_of. cbn. by rewrite take_nil.
Qed.

End stack_distance.

Lemma recent_contents self0 c h index blocks :
  wf c → same_config self0 c → tracks c (recent_stacks self0 h) →
  0 ≤ index → cache c !! Z.to_nat index = Some blocks →
  valid_tags blocks ≡ₚ recent_stacks self0 h index.
Proof.
  intros Hwf Hcfg Htr Hindex Hb.
  pose proof Hwf as (_ & _ & _ & _ & Hsets).
  pose proof (Hsets _ (list_elem_of_lookup_2 _ _ _ Hb)) as Hinv.
  pose proof (Htr index blocks Hindex Hb) as Hrk.
  apply NoDup_Permutation.
  - by eapply ranked_NoDup_valid_tags.
  - apply Hrk.
  - intros t. symmetry. by apply (ranked_elem_of (associativity c)).
Qed.

(** X16. An access hits exactly when its tag is among the [associativity]
    most recently used distinct tags of its set: list the tags that the
    earlier addresses of the trace brought to the set, most recent first
    and each once; the access hits when its tag is within the first
    [associativity] entries. After the trace each set holds exactly the
    first [associativity] entries of its list. *)
Theorem hit_iff_recently_used cs bs a self0 trace outcomes self :
  0 < a → Cache_init cs bs a = Ok self0 →
  run self0 trace = Ok (outcomes, self) →
  (∀ k hit, outcomes !! k = Some hit →
     ∃ address index,
       trace !! k = Some address ∧ extract_index self0 address = Ok index ∧
       (hit = true ↔
        extract_tag self0 address
        ∈ take (Z.to_nat a)
            (mru_order (tags_of self0 index (take k trace))))) ∧
  ∀ index blocks, 0 ≤ index →
    cache self !! Z.to_nat index = Some blocks →
    valid_tags blocks
    ≡ₚ take (Z.to_nat a) (mru_order (tags_of self0 index trace)).
Proof.
  intros Ha Hinit Hrun.
  assert (wf self0) as Hwf by by eapply Cache_init_wf.
  assert (associativity self0 = a) as Ea
    by by apply Cache_init_inv in Hinit as (_ & _ & _ & ->).
  destruct (recent_run self0 trace [] self0 outcomes self
              ltac:(lia) Hwf (same_config_refl _)
              (recent_init _ _ _ _ Hinit) Hrun) as (Htr & Houts).
  cbn [app] in Htr, Houts. unfold recent_stacks in Houts. rewrite Ea in Houts.
  split; [done |]. intros index blocks Hindex Hb.
  rewrite <- Ea.
  apply (recent_contents self0 self trace index blocks);
    [by eapply run_wf | by eapply run_same_config | done | done | done].
Qed.

Lemma hit_iff_recently_used_witness :
  0 < 2 ∧ Cache_init 16 4 2 = Ok demo ∧
  ∃ self,
    run demo [zeros32; tagY32; zeros32; tagZ32; tagY32]
    = Ok ([false; false; true; false; false], self) ∧
    (∀ k hit, [false; false; true; false; false] !! k = Some hit →
       ∃ address index,
         [zeros32; tagY32; zeros32; tagZ32; tagY32] !! k = Some address ∧
         extract_index demo address = Ok index ∧
         (hit = true ↔
          extract_tag demo address
          ∈ take (Z.to_nat 2)
              (mru_order
                 (tags_of demo index
                    (take k [zeros32; tagY32; zeros32; tagZ32; tagY32]))))) ∧
    ∀ index blocks, 0 ≤ index →
      cache self !! Z.to_nat index = Some blocks →
      valid_tags blocks
      ≡ₚ take (Z.to_nat 2)
           (mru_order
              (tags_of demo index
                 [zeros32; tagY32; zeros32; tagZ32; tagY32])).
Proof.
  split; [lia |]. split; [vm_compute; reflexivity |].
  eexists. split; [vm_compute; reflexivity |].
  apply (hit_iff_recently_used 16 4 2 demo
           [zeros32; tagY32; zeros32; tagZ32; tagY32]);
    [lia | vm_compute; reflexivity | vm_compute; reflexivity].
Defined.

Section inclusion.

Lemma same_widths_tags_of c c' index trace :
  no_of_ind_bits c' = no_of_ind_bits c →
  no_of_tag_bits c' = no_of_tag_bits c →
  tags_of c' index trace = tags_of c index trace.
Proof.
  intros Hi Ht. unfold tags_of, targets, extract_index, extract_tag.
  by rewrite Hi, Ht.
Qed.

Lemma run_hit_count trace : ∀ self outcomes self',
  run self trace = Ok (outcomes, self') →
  hit_count self'
  = hit_count self + Z.of_nat (length (List.filter (λ h : bool, h) outcomes)).
Proof.
  induction trace as [|a trace IH]; intros self outcomes self'.
  - cbn. intros [= <- <-]. cbn. lia.
  - intros (hit & self1 & outs & Hc & Hr & E)%run_cons_inv. cbn in Hr, E.
    subst outcomes. apply IH in Hr. apply check_counters in Hc.
    cbn [List.filter]. destruct hit; cbn [length]; lia.
Qed.

Lemma count_hits_le (outs : list bool) : ∀ outs',
  length outs = length outs' →
  (∀ k, outs !! k = Some true → outs' !! k = Some true) →
  (length (List.filter (λ h : bool, h) outs)
   ≤ length (List.filter (λ h : bool, h) outs'))%nat.
Proof.
  induction outs as [|h outs IH]; intros [|h' outs'] Hlen Himp;
    try done.
  cbn in Hlen. specialize (IH outs' ltac:(lia) (λ k, Himp (S k))).
  pose proof (Himp 0%nat) as H0. cbn in H0. cbn [List.filter].
  destruct h.
  - specialize (H0 eq_refl). injection H0 as ->. cbn [length]. lia.
  - destruct h'; cbn [length]; lia.
Qed.

End inclusion.

(** X17. With the same number of sets and the same block size, a cache
    of higher associativity hits wherever the smaller one hits: on one
    trace, every access that hits in the cache of associativity [a] hits
    in the cache of associativity [a' ≥ a], so the larger cache ends with
    at least as many hits. *)
Theorem larger_associativity_keeps_hits
    cs cs' bs a a' small large trace outs outs' c c' :
  0 < a → a ≤ a' →
  Cache_init cs bs a = Ok small → Cache_init cs' bs a' = Ok large →
  cs' / (bs * a') = cs / (bs * a) →
  run small trace = Ok (outs, c) → run large trace = Ok (outs', c') →
  (∀ k, outs !! k = Some true → outs' !! k = Some true) ∧
  hit_count c ≤ hit_count c'.
Proof.
  intros Ha Hle Hs Hl Hsets Hr Hr'.
  assert (wf small) as Hwf by by eapply Cache_init_wf.
  assert (wf large) as Hwf' by (eapply (Cache_init_wf cs' bs a'); [lia | done]).
  pose proof Hs as (_ & _ & _ & Es)%Cache_init_inv.
  pose proof Hl as (_ & _ & _ & El)%Cache_init_inv.
  assert (associativity small = a) as Ea by by rewrite Es.
  assert (associativity large = a') as Ea' by by rewrite El.
  assert (no_of_ind_bits large = no_of_ind_bits small) as Ei.
  { rewrite Es, El. cbn. by rewrite Hsets. }
  assert (no_of_tag_bits large = no_of_tag_bits small) as Et.
  { rewrite Es, El. cbn. by rewrite Hsets. }
  assert (hit_count small = 0) as H0 by by rewrite Es.
  assert (hit_count large = 0) as H0' by by rewrite El.
  destruct (recent_run small trace [] small outs c
              ltac:(lia) Hwf (same_config_refl _)
              (recent_init _ _ _ _ Hs) Hr) as (_ & Houts).
  destruct (recent_run large trace [] large outs' c'
              ltac:(lia) Hwf' (same_config_refl _)
              (recent_init _ _ _ _ Hl) Hr') as (_ & Houts').
  cbn [app] in Houts, Houts'.
  pose proof (run_counters _ _ _ _ Hr) as (Hlen & _).
  pose proof (run_counters _ _ _ _ Hr') as (Hlen' & _).
  assert (∀ k, outs !! k = Some true → outs' !! k = Some true) as Himp.
  { intros k Hk.
    destruct (lookup_lt_is_Some_2 outs' k) as [hit' Hk'].
    { apply lookup_lt_Some in Hk. lia. }
    rewrite Hk'. f_equal.
    destruct (Houts k true Hk) as (address & index & Hl1 & Hi1 & Hiff).
    destruct (Houts' k hit' Hk') as (address' & index' & Hl2 & Hi2 & Hiff').
    rewrite Hl1 in Hl2. injection Hl2 as <-.
    assert (extract_index large address = extract_index small address) as E
      by (unfold extract_index; by rewrite Ei, Et).
    rewrite E, Hi1 in Hi2. injection Hi2 as <-.
    apply Hiff'. unfold recent_stacks in Hiff |- *.
    rewrite (same_widths_tags_of small large) by done.
    assert (extract_tag large address = extract_tag small address) as ->
      by (unfold extract_tag; by rewrite Et).
    apply proj1 in Hiff. specialize (Hiff eq_refl).
    apply elem_of_take in Hiff as (i & Hi & Hlt).
    apply elem_of_take. exists i. split; [done | lia]. }
  split; [done |].
  rewrite (run_hit_count _ _ _ _ Hr), (run_hit_count _ _ _ _ Hr'), H0, H0'.
  pose proof (count_hits_le outs outs' ltac:(lia) Himp). lia.
Qed.

Lemma larger_associativity_keeps_hits_witness :
  0 < 2 ∧ 2 ≤ 4 ∧ Cache_init 16 4 2 = Ok demo ∧
  32 / (4 * 4) = 16 / (4 * 2) ∧
  ∃ large c c',
    Cache_init 32 4 4 = Ok large ∧
    run demo [zeros32; zeros32; tagY32; tagZ32; zeros32]
    = Ok ([false; true; false; false; false], c) ∧
    run large [zeros32; zeros32; tagY32; tagZ32; zeros32]
    = Ok ([false; true; false; false; true], c') ∧
    (∀ k, [false; true; false; false; false] !! k = Some true →
          [false; true; false; false; true] !! k = Some true) ∧
    hit_count c ≤ hit_count c'.
Proof.
  split; [lia |]. split; [lia |]. split; [vm_compute; reflexivity |].
  split; [reflexivity |].
  eexists _, _, _. split; [vm_compute; reflexivity |].
  split; [vm_compute; reflexivity |]. split; [vm_compute; reflexivity |].
  eapply (larger_associativity_keeps_hits 16 32 4 2 4 demo _
            [zeros32; zeros32; tagY32; tagZ32; zeros32]);
    [lia | lia | vm_compute; reflexivity | vm_compute; reflexivity
    | reflexivity | vm_compute; reflexivity | vm_compute; reflexivity].
Defined.

Lemma take_1_mru_order t L :
  t ∈ take 1 (mru_order L) ↔ last L = Some t.
Proof.
  destruct L as [|x L _] using rev_ind.
  - cbn. split; [by intros ?%elem_of_nil | done].
  - rewrite mru_order_snoc, last_snoc. cbn [take].
    rewrite take_0, list_elem_of_singleton. split; [by intros -> | by intros [= ->]].
Qed.

(** X18. In a direct-mapped cache (associativity 1) an access hits
    exactly when the previous access to its set carried the same tag:
    each set remembers the last tag it received and nothing else. *)
Theorem direct_mapped_hits_last_tag cs bs self0 trace outcomes self k hit :
  Cache_init cs bs 1 = Ok self0 →
  run self0 trace = Ok (outcomes, self) →
  outcomes !! k = Some hit →
  ∃ address index,
    trace !! k = Some address ∧ extract_index self0 address = Ok index ∧
    (hit = true ↔
     last (tags_of self0 index (take k trace))
     = Some (extract_tag self0 address)).
Proof.
  intros Hinit Hrun Hk.
  assert (wf self0) as Hwf by (eapply (Cache_init_wf cs bs 1); [lia | done]).
  assert (associativity self0 = 1) as Ea
    by by apply Cache_init_inv in Hinit as (_ & _ & _ & ->).
  destruct (recent_run self0 trace [] self0 outcomes self
              ltac:(lia) Hwf (same_config_refl _)
              (recent_init _ _ _ _ Hinit) Hrun) as (_ & Houts).
  destruct (Houts k hit Hk) as (address & index & Hl & Hi & Hiff).
  exists address, index. split; [done |]. split; [done |].
  cbn [app] in Hiff. unfold recent_stacks in Hiff. rewrite Ea in Hiff.
  change (Z.to_nat 1) with 1%nat in Hiff.
  by rewrite Hiff, take_1_mru_order.
Qed.

Lemma direct_mapped_hits_last_tag_witness :
  ∃ self0 self,
    Cache_init 16 4 1 = Ok self0 ∧
    run self0 [zeros32; tagY32; tagY32] = Ok ([false; false; true], self) ∧
    [false; false; true] !! 2%nat = Some true ∧
    ∃ address index,
      [zeros32; tagY32; tagY32] !! 2%nat = Some address ∧
      extract_index self0 address = Ok index ∧
      (true = true ↔
       last (tags_of self0 index (take 2 [zeros32; tagY32; tagY32]))
       = Some (extract_tag self0 address)).
Proof.
  eexists _, _. split; [vm_compute; reflexivity |].
  split; [vm_compute; reflexivity |]. split; [reflexivity |].
  eapply (direct_mapped_hits_last_tag 16 4 _ [zeros32; tagY32; tagY32]
            [false; false; true] _ 2 true);
    [vm_compute; reflexivity | vm_compute; reflexivity | reflexivity].
Defined.
